(** * Route finding: road maps, search nodes, frontiers and search drivers

    A shallow embedding of [route.py], [heuristic.py] and the five search
    drivers ([bfs.py], [dfs.py], [ucost.py], [greedy.py], [astar.py]).

    Modelling choices.
    - Locations and road names are Python strings: [string], compared with
      [String.eqb] and [String.ltb] (lexicographic by character code).
    - Costs and coordinates are the "real" numbers of route finding: exact
      rationals [Q], compared with [Qeq_bool] and [Qle_bool].  [math.sqrt]
      and the builtin [hash] are parameters (class [builtins]).  Sums are
      taken in the order the code adds; what is stated of a sum is stated
      of that very fold, or for costs that are whole numbers small enough
      for double precision to add them exactly.
    - [bfs.py] and [dfs.py] belong to Assignment 0, whose own [route]
      module is not among the sources.  Its frontier is modelled from the
      spec (module [PA0]); the two drivers themselves are run over the
      frontier of Assignment 1.
    - A Python [dict] keeps insertion order and the drivers iterate over it,
      so a dict is an association list with Python's update discipline.
    - A method that mutates its object is a computation over that object's
      state, in a state-and-exception monad; the [while] loop of a driver
      takes fuel.
    - [heapq] is written out on index-addressed lists, following CPython's
      [Lib/heapq.py]. *)

From Stdlib Require Import QArith String Ascii List Bool Arith Lia Permutation Sorted.
From stdpp Require Import base list.
Import ListNotations.

Local Open Scope string_scope.
Local Open Scope list_scope.

(** ** Exceptions, and the state-and-exception monad *)

Inductive exn : Type :=
| UnknownLocation (loc : string)   (* Exception("Unknown location - " + loc) *)
| KeyError                         (* d[k] on an absent key, frontier lookups *)
| EmptyFrontier                    (* Exception("Trying to pop from an empty frontier.") *)
| TypeError                        (* float + None, str + None *)
| AttributeError                   (* None.goal *)
| ZeroDivisionError                (* x / 0.0 *)
| ValueError.                      (* max([]) *)

Inductive result (S A : Type) : Type :=
| Return (a : A) (s : S)
| Raise (e : exn) (s : S)
| OutOfFuel.
Arguments Return {S A} a s.
Arguments Raise {S A} e s.
Arguments OutOfFuel {S A}.

Definition M (S A : Type) : Type := S -> result S A.

Definition ret {S A} (a : A) : M S A := fun s => Return a s.

Definition bind {S A B} (c : M S A) (k : A -> M S B) : M S B :=
  fun s => match c s with
           | Return a s' => k a s'
           | Raise e s' => Raise e s'
           | OutOfFuel => OutOfFuel
           end.

Definition raise {S A} (e : exn) : M S A := fun s => Raise e s.

Notation "x <- c ;; k" := (bind c (fun x => k))
  (at level 100, c at next level, right associativity).

(** The state a computation ends in, when it ends. *)
Definition state_of {S A} (r : result S A) : option S :=
  match r with
  | Return _ s => Some s
  | Raise _ s => Some s
  | OutOfFuel => None
  end.

(** The value a computation returns, when it returns. *)
Definition value_of {S A} (r : result S A) : option A :=
  match r with
  | Return a _ => Some a
  | _ => None
  end.

Definition raises {S A} (r : result S A) : Prop :=
  exists e s, r = Raise e s.

(** [for x in xs: body], threading the variables the body assigns. *)
Fixpoint for_each {S A B} (xs : list A) (body : B -> A -> M S B) (acc : B) : M S B :=
  match xs with
  | [] => ret acc
  | x :: rest => acc' <- body acc x ;; for_each rest body acc'
  end.

(** [while cond: body], where the body either goes on with new values of
    the loop variables ([inl]) or returns from the enclosing function
    ([inr]).  The loop falls through with [inl] when [cond] fails. *)
Fixpoint while_loop {S St R} (fuel : nat) (cond : St -> bool)
    (body : St -> M S (St + R)) (st : St) : M S (St + R) :=
  match fuel with
  | O => fun _ => OutOfFuel
  | Datatypes.S fuel =>
      if cond st then
        r <- body st ;;
        match r with
        | inl st' => while_loop fuel cond body st'
        | inr v => ret (inr v)
        end
      else ret (inl st)
  end.

(** A method call [obj.m(...)] on a local object, from a computation over
    another state: the object is passed in and handed back updated. *)
Definition call {W O A} (m : M O A) (obj : O) : M W (A * O) :=
  fun w => match m obj with
           | Return a obj' => Return (a, obj') w
           | Raise e _ => Raise e w
           | OutOfFuel => OutOfFuel
           end.

(** The functions of Python that are not modelled: [math.sqrt] on the
    rationals, and the builtin [hash] of a string. *)
Class builtins : Type := {
  math_sqrt : Q -> Q;
  hash : string -> Z
}.

(** Truth value of a number: non-zero. *)
Definition truthy (x : Q) : bool := negb (Qeq_bool x 0).

(** [x < y] on numbers *)
Definition Qlt_bool (x y : Q) : bool := negb (Qle_bool y x).

(** ** Python dicts: insertion-ordered association lists *)

Module Dict.
Section Dict.
Context {V : Type}.

Definition t := list (string * V).

(** [d.get(k)] *)
Fixpoint get (d : t) (k : string) : option V :=
  match d with
  | [] => None
  | (k', v) :: rest => if String.eqb k' k then Some v else get rest k
  end.

(** [d[k] = v]: in place when the key exists, appended otherwise *)
Fixpoint set (d : t) (k : string) (v : V) : t :=
  match d with
  | [] => [(k, v)]
  | (k', v') :: rest =>
      if String.eqb k' k then (k', v) :: rest else (k', v') :: set rest k v
  end.

(** [d.setdefault(k, v)]: the value found, or [v] after appending it *)
Definition setdefault (d : t) (k : string) (v : V) : V * t :=
  match get d k with
  | Some x => (x, d)
  | None => (v, d ++ [(k, v)])
  end.

(** [d.keys()], in insertion order *)
Definition keys (d : t) : list string := map fst d.

End Dict.
Arguments t V : clear implicits.
End Dict.

(** ** RoadMap *)

(** What a lookup with an optional second argument returns: the whole
    successor dict, or the entry for the given key ([None] when absent). *)
Inductive lookup (V : Type) : Type :=
| Successors (d : Dict.t V)
| Entry (v : option V).
Arguments Successors {V} d.
Arguments Entry {V} v.

Module RoadMap.

Record t : Type := mk {
  connection_dict : Dict.t (Dict.t Q);      (* start -> end -> cost *)
  road_dict : Dict.t (Dict.t string);       (* start -> road name -> end *)
  loc_dict : Dict.t (Q * Q)                 (* location -> (x, y) *)
}.

(** [dict or {}] *)
Definition or_empty {V} (d : option (Dict.t V)) : Dict.t V :=
  match d with Some d => d | None => [] end.

Definition init (connection_dict : option (Dict.t (Dict.t Q)))
    (road_dict : option (Dict.t (Dict.t string)))
    (loc_dict : option (Dict.t (Q * Q))) : t :=
  mk (or_empty connection_dict) (or_empty road_dict) (or_empty loc_dict).

Definition add_location (loc : string) (longitude latitude : Q) : M t unit :=
  fun self =>
    Return tt (mk (connection_dict self) (road_dict self)
                 (Dict.set (loc_dict self) loc (longitude, latitude))).

(** [d.setdefault(start, {})[key] = v] on a dict of dicts *)
Definition set_inner {V} (d : Dict.t (Dict.t V)) (start key : string) (v : V)
    : Dict.t (Dict.t V) :=
  let '(inner, d') := Dict.setdefault d start [] in
  Dict.set d' start (Dict.set inner key v).

Definition add_road (start end_ : string) (name : option string) (cost : Q)
    : M t unit :=
  fun self =>
    let cd := set_inner (connection_dict self) start end_ cost in
    let rd := match name with
              | Some name => set_inner (road_dict self) start name end_
              | None => road_dict self
              end in
    Return tt (mk cd rd (loc_dict self)).

Definition locations : M t (list string) :=
  fun self => Return (Dict.keys (loc_dict self)) self.

Definition get (start : string) (end_ : option string) : M t (lookup Q) :=
  fun self =>
    let '(successors, cd) := Dict.setdefault (connection_dict self) start [] in
    let self' := mk cd (road_dict self) (loc_dict self) in
    match end_ with
    | None => Return (Successors successors) self'
    | Some e => Return (Entry (Dict.get successors e)) self'
    end.

Definition get_result (start : string) (road : option string)
    : M t (lookup string) :=
  fun self =>
    let '(successors, rd) := Dict.setdefault (road_dict self) start [] in
    let self' := mk (connection_dict self) rd (loc_dict self) in
    match road with
    | None => Return (Successors successors) self'
    | Some r => Return (Entry (Dict.get successors r)) self'
    end.

(** The [for road in road_list] loop of [path_cost], with its early
    [return 0.0]; [total_cost += None] is a TypeError. *)
Fixpoint path_cost_loop (road_list : list string) (total_cost : Q) (loc : string)
    : M t Q :=
  match road_list with
  | [] => ret total_cost
  | road :: rest =>
      next_loc <- get_result loc (Some road) ;;
      match next_loc with
      | Entry (Some next_loc) =>
          c <- get loc (Some next_loc) ;;
          match c with
          | Entry (Some c) => path_cost_loop rest (total_cost + c)%Q next_loc
          | _ => raise TypeError
          end
      | _ => ret 0%Q
      end
  end.

Definition path_cost (start : string) (road_list : list string) : M t Q :=
  path_cost_loop road_list 0%Q start.

Definition location_coordinates (loc : string) : M t (Q * Q) :=
  fun self =>
    let '((x, y), ld) := Dict.setdefault (loc_dict self) loc (0, 0)%Q in
    let self' := mk (connection_dict self) (road_dict self) ld in
    if truthy x && truthy y then Return (x, y) self'
    else Raise (UnknownLocation loc) self'.

Definition euclidean_distance `{builtins} (loc0 loc1 : string) : M t Q :=
  p0 <- location_coordinates loc0 ;;
  p1 <- location_coordinates loc1 ;;
  let '(x0, y0) := p0 in
  let '(x1, y1) := p1 in
  ret (math_sqrt (((x0 - x1) * (x0 - x1)) + ((y0 - y1) * (y0 - y1)))%Q).

End RoadMap.

(** ** The world a search runs in: the problem's map (one object, shared by
    the problem and the heuristic built from it) and the global expansion
    counter of [vars]. *)
Record World : Type := mkWorld {
  the_map : RoadMap.t;
  node_expansion_count : nat
}.

(** A method call on the world's map. *)
Definition on_map {A} (m : M RoadMap.t A) : M World A :=
  fun w => match m (the_map w) with
           | Return a rm => Return a (mkWorld rm (node_expansion_count w))
           | Raise e rm => Raise e (mkWorld rm (node_expansion_count w))
           | OutOfFuel => OutOfFuel
           end.

(** ** RouteProblem *)

(** [x == goal] for the values a driver passes to [is_goal]. *)
Class EqGoal (L : Type) : Type := eq_goal : L -> option string -> bool.

#[export] Instance EqGoal_str : EqGoal string :=
  fun loc goal => match goal with Some g => String.eqb loc g | None => false end.

Module RouteProblem.

(** The [map] attribute is the world's map. *)
Record t : Type := mk {
  start : string;
  goal : option string
}.

Definition actions (self : t) (loc : string) : M World (list string) :=
  r <- on_map (RoadMap.get_result loc None) ;;
  match r with
  | Successors d => ret (Dict.keys d)
  | Entry _ => raise AttributeError
  end.

Definition result (self : t) (loc : string) (road : string) : M World (option string) :=
  r <- on_map (RoadMap.get_result loc (Some road)) ;;
  match r with
  | Entry v => ret v
  | Successors _ => raise TypeError
  end.

Definition is_goal {L} `{EqGoal L} (self : t) (loc : L) : bool :=
  eq_goal loc (goal self).

Definition action_cost (self : t) (start : string) (end_ : option string)
    : M World (lookup Q) :=
  on_map (RoadMap.get start end_).

End RouteProblem.

(** ** HeuristicFunction *)

Module HeuristicFunction.

(** The [map] attribute is the world's map. *)
Record t : Type := mk {
  goal : option string;
  gasConsumption : list Q;
  efficientGas : Q
}.

(** [max(xs)]: the first maximal element; ValueError on the empty list *)
Definition py_max (xs : list Q) : option Q :=
  match xs with
  | [] => None
  | x :: rest => Some (fold_left (fun m y => if Qlt_bool m y then y else m) rest x)
  end.

(** [x / y] *)
Definition py_div {S} (x y : Q) : M S Q :=
  if Qeq_bool y 0 then raise ZeroDivisionError else ret (x / y)%Q.

(** The body of the inner loop of [__init__]. *)
Definition scan_connection `{builtins} (location : string)
    (gasConsumption : list Q) (connection : string) : M RoadMap.t (list Q) :=
  distance <- RoadMap.euclidean_distance location connection ;;
  c <- RoadMap.get location (Some connection) ;;
  match c with
  | Entry (Some c) =>
      gas <- py_div distance c ;;
      if negb (existsb (Qeq_bool gas) gasConsumption)
      then ret (gasConsumption ++ [gas])
      else ret gasConsumption
  | _ => raise TypeError
  end.

(** The body of the outer loop of [__init__]. *)
Definition scan_location `{builtins} (gasConsumption : list Q) (location : string)
    : M RoadMap.t (list Q) :=
  fun self =>
    match Dict.get (RoadMap.connection_dict self) location with
    | None => Raise KeyError self
    | Some connections =>
        for_each (Dict.keys connections) (scan_connection location) gasConsumption self
    end.

Definition init `{builtins} (problem : option RouteProblem.t) : M RoadMap.t t :=
  match problem with
  | None => raise AttributeError
  | Some problem =>
      fun self =>
        (gasConsumption <-
           for_each (Dict.keys (RoadMap.loc_dict self)) scan_location [] ;;
         match py_max gasConsumption with
         | None => raise ValueError
         | Some m => ret (mk (RouteProblem.goal problem) gasConsumption m)
         end) self
  end.

(** [self.map] is the map of the problem the heuristic was built from, the
    state these computations run in.  With no goal, [euclidean_distance]
    looks [loc] up and then fails on [None]: the message of the unknown
    location error is built by appending [None] to a string, a type error.
    The entry [setdefault] stores under the key [None] before that has no
    place in a dict keyed by strings and is left out. *)
Definition h_cost `{builtins} (self : t) (loc : option string) : M RoadMap.t Q :=
  match loc with
  | None => ret 0%Q
  | Some loc =>
      match goal self with
      | None => _ <- RoadMap.location_coordinates loc ;; raise TypeError
      | Some g =>
          distance <- RoadMap.euclidean_distance loc g ;;
          py_div distance (efficientGas self)
      end
  end.

End HeuristicFunction.

(** Search depth limit, to avoid infinite loops. *)
Definition depth_limit : nat := 20.

(** The [sort_by] argument: a metric name, or the [True] that [DFS] passes. *)
Inductive sort_key : Type :=
| Metric (s : string)
| Flag (b : bool).

(** ** Node *)

Module Node.

#[warnings="-register-all"]
Inductive t : Type := mk {
  loc : string;
  parent : option t;
  road : option string;
  path_cost : Q;
  h_eval : Q;
  h_fun : option HeuristicFunction.t;
  depth : nat
}.

Definition init (loc : string) (parent : option t) (road : option string)
    (path_cost h_eval : Q) (h_fun : option HeuristicFunction.t) : t :=
  mk loc parent road path_cost h_eval h_fun
     (match parent with Some p => depth p + 1 | None => 0 end).

(** [__lt__] *)
Definition lt (self node : t) : bool := String.ltb (loc self) (loc node).

Definition value (self : t) (sort_by : sort_key) : Q :=
  match sort_by with
  | Metric s =>
      if String.eqb s "g" then path_cost self
      else if String.eqb s "h" then h_eval self
      else if String.eqb s "f" then (path_cost self + h_eval self)%Q
      else 0%Q
  | Flag _ => 0%Q
  end.

Definition child_node `{builtins} (self : t) (problem : RouteProblem.t)
    (road : string) (h_fun_arg : option HeuristicFunction.t) : M World t :=
  child_loc <- RouteProblem.result problem (loc self) road ;;
  c <- RouteProblem.action_cost problem (loc self) child_loc ;;
  match c, child_loc with
  | Entry (Some c), Some child_loc =>
      let child_cost := (path_cost self + c)%Q in
      let child_h_fun := match h_fun_arg with
                         | None => h_fun self
                         | Some h => Some h
                         end in
      child_eval <- match child_h_fun with
                    | Some h => on_map (HeuristicFunction.h_cost h (Some child_loc))
                    | None => ret 0%Q
                    end ;;
      ret (init child_loc (Some self) (Some road) child_cost child_eval child_h_fun)
  | _, _ => raise TypeError
  end.

Definition expand `{builtins} (self : t) (problem : RouteProblem.t) : M World (list t) :=
  fun w =>
    let w := mkWorld (the_map w) (node_expansion_count w + 1) in
    if (depth_limit <=? depth self)%nat then Return [] w
    else (roads <- RouteProblem.actions problem (loc self) ;;
          for_each roads
            (fun children road =>
               child <- child_node self problem road None ;;
               ret (children ++ [child]))
            []) w.

(** The walk up the parent chain of [path] and [solution_with_roads]. *)
Fixpoint backwards_path (this_node : t) : list t :=
  match this_node with
  | mk _ p _ _ _ _ _ =>
      this_node :: match p with Some p => backwards_path p | None => [] end
  end.

Definition path (self : t) : list t := rev (backwards_path self).

Definition solution (self : t) : list (option string) :=
  map road (tail (path self)).

Definition solution_with_roads (self : t) : list (option string * string) :=
  rev (map (fun n => (road n, loc n)) (backwards_path self)).

(** [__eq__] against another node *)
Definition eq (self other : t) : bool := String.eqb (loc self) (loc other).

(** [__hash__] *)
Definition hash_ `{builtins} (self : t) : Z := hash (loc self).

(** [node in nodes], for a list of nodes *)
Definition elem (self : t) (nodes : list t) : bool :=
  existsb (fun n => eq n self) nodes.

End Node.

(** [node == goal]: [__eq__] answers False to what is not a Node. *)
#[export] Instance EqGoal_Node : EqGoal Node.t := fun _ _ => false.

(** ** heapq, after CPython's [Lib/heapq.py], over any item type with [<] *)

Module heapq.
Section heapq.
Context {A : Type} (lt : A -> A -> bool).

(** The [while pos > startpos] loop of [_siftdown]: parents larger than
    [newitem] move down; the result is the heap and the position left for
    [newitem].  The position strictly decreases, so fuel [pos] is enough. *)
Fixpoint _siftdown_loop (fuel : nat) (heap : list A) (newitem : A)
    (startpos pos : nat) : list A * nat :=
  match fuel with
  | O => (heap, pos)
  | S fuel =>
      if (startpos <? pos)%nat then
        let parentpos := (pos - 1) / 2 in
        match heap !! parentpos with
        | Some parent =>
            if lt newitem parent
            then _siftdown_loop fuel (<[pos := parent]> heap) newitem startpos parentpos
            else (heap, pos)
        | None => (heap, pos)
        end
      else (heap, pos)
  end.

Definition _siftdown (heap : list A) (startpos pos : nat) : list A :=
  match heap !! pos with
  | Some newitem =>
      let '(heap, pos) := _siftdown_loop pos heap newitem startpos pos in
      <[pos := newitem]> heap
  | None => heap
  end.

(** The [while childpos < endpos] loop of [_siftup]: the smaller child
    moves up until a leaf is reached.  The position strictly increases, so
    fuel [endpos] is enough. *)
Fixpoint _siftup_loop (fuel : nat) (heap : list A) (endpos pos childpos : nat)
    : list A * nat :=
  match fuel with
  | O => (heap, pos)
  | S fuel =>
      if (childpos <? endpos)%nat then
        let rightpos := childpos + 1 in
        let childpos :=
          match heap !! childpos, heap !! rightpos with
          | Some c, Some r =>
              if (rightpos <? endpos)%nat && negb (lt c r) then rightpos else childpos
          | _, _ => childpos
          end in
        match heap !! childpos with
        | Some c => _siftup_loop fuel (<[pos := c]> heap) endpos childpos (2 * childpos + 1)
        | None => (heap, pos)
        end
      else (heap, pos)
  end.

Definition _siftup (heap : list A) (pos : nat) : list A :=
  let endpos := length heap in
  let startpos := pos in
  match heap !! pos with
  | Some newitem =>
      let '(heap, pos) := _siftup_loop endpos heap endpos pos (2 * pos + 1) in
      _siftdown (<[pos := newitem]> heap) startpos pos
  | None => heap
  end.

Definition heappush (heap : list A) (item : A) : list A :=
  _siftdown (heap ++ [item]) 0 (length heap).

(** [None] stands for the IndexError of popping from an empty list. *)
Definition heappop (heap : list A) : option (A * list A) :=
  match last heap with
  | None => None
  | Some lastelt =>
      let heap := removelast heap in
      match heap with
      | returnitem :: _ => Some (returnitem, _siftup (<[0 := lastelt]> heap) 0)
      | [] => Some (lastelt, heap)
      end
  end.

Definition heapify (x : list A) : list A :=
  let n := length x in
  fold_left _siftup (rev (seq 0 (n / 2))) x.

End heapq.
End heapq.

(** ** Frontier *)

(** [nodes] of [Frontier.add]: one node, or a list of nodes. *)
Inductive node_or_list : Type :=
| One (n : Node.t)
| Many (ns : list Node.t).

Module Frontier.

Record t : Type := mk {
  sort_by : sort_key;
  fringe : list (Q * Node.t)
}.

(** [<] on the [(value, node)] tuples of the fringe: on the first
    component that is not [==], and False when both are. *)
Definition entry_lt (a b : Q * Node.t) : bool :=
  if Qeq_bool (fst a) (fst b) then
    if Node.eq (snd a) (snd b) then false else Node.lt (snd a) (snd b)
  else Qlt_bool (fst a) (fst b).

Definition init (root_node : Node.t) (sort_by : sort_key) : t :=
  mk sort_by (heapq.heapify entry_lt [(Node.value root_node sort_by, root_node)]).

(** [__len__] *)
Definition len (self : t) : nat := length (fringe self).

(** [__contains__] *)
Definition contains_ (self : t) (query : Node.t) : bool :=
  existsb (fun e => Node.eq (snd e) query) (fringe self).

(** [__getitem__] *)
Definition getitem (query : Node.t) : M t Q :=
  fun self =>
    match find (fun e => Node.eq (snd e) query) (fringe self) with
    | Some (value, _) => Return value self
    | None => Raise KeyError self
    end.

(** [[n == query for _, n in fringe].index(True)] *)
Fixpoint index_of (query : Node.t) (fringe : list (Q * Node.t)) : option nat :=
  match fringe with
  | [] => None
  | e :: rest =>
      if Node.eq (snd e) query then Some 0
      else option_map S (index_of query rest)
  end.

(** [__delitem__] *)
Definition delitem (query : Node.t) : M t unit :=
  fun self =>
    match index_of query (fringe self) with
    | Some i =>
        Return tt (mk (sort_by self) (heapq.heapify entry_lt (delete i (fringe self))))
    | None => Raise KeyError self
    end.

Definition is_empty (self : t) : bool := (length (fringe self) =? 0)%nat.

Definition contains (self : t) (query : Node.t) : bool := contains_ self query.

Definition add (nodes : node_or_list) : M t unit :=
  fun self =>
    match nodes with
    | Many ns =>
        Return tt
          (mk (sort_by self)
             (fold_left
                (fun h n => heapq.heappush entry_lt h (Node.value n (sort_by self), n))
                ns (fringe self)))
    | One n =>
        Return tt
          (mk (sort_by self)
             (heapq.heappush entry_lt (fringe self) (Node.value n (sort_by self), n)))
    end.

Definition pop : M t Node.t :=
  fun self =>
    match heapq.heappop entry_lt (fringe self) with
    | Some (e, rest) => Return (snd e) (mk (sort_by self) rest)
    | None => Raise EmptyFrontier self
    end.

End Frontier.

(** ** The frontier of Assignment 0

    [bfs.py] and [dfs.py] import [Node] and [Frontier] from the module
    [route] of their own assignment, which is not among the sources.  They
    build their frontier with [Frontier(parent)] and [Frontier(parent, True)]
    and use [is_empty], [pop] and [add] of it. *)

Module PA0.
Module Frontier.

(** Modelled from the spec: the class [Frontier] of the module [route] of
    Assignment 0, which is missing.  The spec gives BFS a FIFO queue and
    DFS a LIFO stack, both in insertion order; the fringe is kept in
    insertion order and the flag tells which end [pop] takes. *)
Record t : Type := mk {
  stack : bool;
  fringe : list Node.t
}.

(** Modelled from the spec: the missing constructor.  The frontier is seeded
    with the root; [Frontier(parent)] is the queue of BFS and
    [Frontier(parent, True)] the stack of DFS. *)
Definition init (root_node : Node.t) (stack : bool) : t := mk stack [root_node].

(** Modelled from the spec: the missing [is_empty]. *)
Definition is_empty (self : t) : bool := (length (fringe self) =? 0)%nat.

(** Modelled from the spec: the missing [add]; the node is inserted after
    the nodes the frontier holds. *)
Definition add (node : Node.t) : M t unit :=
  fun self => Return tt (mk (stack self) (fringe self ++ [node])).

(** Modelled from the spec: the missing [pop].  The queue gives up the node
    inserted first (insertion order), the stack the node inserted last
    (insertion order, reversed at pop); popping from an empty frontier
    fails. *)
Definition pop : M t Node.t :=
  fun self =>
    if stack self then
      match last (fringe self) with
      | Some n => Return n (mk (stack self) (removelast (fringe self)))
      | None => Raise EmptyFrontier self
      end
    else
      match fringe self with
      | n :: rest => Return n (mk (stack self) rest)
      | [] => Raise EmptyFrontier self
      end.

End Frontier.

(** A sequence of adds: [add] for each node of a list, in the order of
    the list. *)
Definition push_each (nodes : list Node.t) : M Frontier.t unit :=
  for_each nodes (fun _ n => Frontier.add n) tt.

(** Popping until the frontier is empty; the result lists the nodes in
    the order they were popped. *)
Fixpoint pop_all_loop (fuel : nat) : M Frontier.t (list Node.t) :=
  match fuel with
  | O => ret []
  | S fuel =>
      fun self =>
        if Frontier.is_empty self then Return [] self
        else (n <- Frontier.pop ;; ns <- pop_all_loop fuel ;; ret (n :: ns)) self
  end.

Definition pop_all : M Frontier.t (list Node.t) :=
  fun self => pop_all_loop (length (Frontier.fringe self)) self.

End PA0.

(** ** The search drivers

    The drivers of Assignment 0, [BFS] and [DFS], are run here over the
    [Frontier] of Assignment 1's [route.py], the one frontier class among
    the sources, as the drivers of Assignment 1 are.  What is proved of
    [BFS] and [DFS] below uses only that [pop] returns one of the nodes
    the frontier holds and keeps the others, which any frontier
    discipline gives; the order of their pops is the subject of the
    frontier above. *)

Section Drivers.
Context `{builtins}.

(** The loop variables of a driver: the frontier and the list of visited
    (reached) nodes. *)
Definition search_state : Type := Frontier.t * list Node.t.

(** [frontier.add(node)] on the loop's frontier *)
Definition frontier_add (node : Node.t) (st : search_state) : M World search_state :=
  r <- call (Frontier.add (One node)) (fst st) ;;
  ret (snd r, snd st).

(** *** bfs.py *)

(** The body of [for node in branch.expand(problem)] *)
Definition BFS_child (repeat_check : bool) (st : search_state) (node : Node.t)
    : M World search_state :=
  if repeat_check then
    if negb (Node.elem node (snd st)) then
      let st := (fst st, snd st ++ [node]) in
      frontier_add node st
    else ret st
  else frontier_add node st.

(** The body of [while not queue.is_empty()] *)
Definition BFS_body (problem : RouteProblem.t) (repeat_check : bool)
    (st : search_state) : M World (search_state + Node.t) :=
  r <- call Frontier.pop (fst st) ;;
  let branch := fst r in
  let st := (snd r, snd st) in
  if RouteProblem.is_goal problem (Node.loc branch) then ret (inr branch)
  else
    children <- Node.expand branch problem ;;
    st <- for_each children (BFS_child repeat_check) st ;;
    ret (inl st).

Definition BFS (fuel : nat) (problem : RouteProblem.t) (repeat_check : bool)
    : M World (option Node.t) :=
  let parent := Node.init (RouteProblem.start problem) None None 0 0 None in
  if RouteProblem.is_goal problem parent then ret (Some parent)
  else
    let visited := [parent] in
    let queue := Frontier.init parent (Metric "g") in
    r <- while_loop fuel (fun st => negb (Frontier.is_empty (fst st)))
           (BFS_body problem repeat_check) (queue, visited) ;;
    match r with
    | inr branch => ret (Some branch)
    | inl _ => ret None
    end.

(** *** dfs.py *)

Definition DFS_child (repeat_check : bool) (st : search_state) (node : Node.t)
    : M World search_state :=
  if repeat_check then
    if negb (Node.elem node (snd st)) then
      let st := (fst st, snd st ++ [node]) in
      frontier_add node st
    else ret st
  else frontier_add node st.

Definition DFS_body (problem : RouteProblem.t) (repeat_check : bool)
    (st : search_state) : M World (search_state + Node.t) :=
  r <- call Frontier.pop (fst st) ;;
  let branch := fst r in
  let st := (snd r, snd st) in
  if RouteProblem.is_goal problem (Node.loc branch) then ret (inr branch)
  else
    children <- Node.expand branch problem ;;
    st <- for_each children (DFS_child repeat_check) st ;;
    ret (inl st).

Definition DFS (fuel : nat) (problem : RouteProblem.t) (repeat_check : bool)
    : M World (option Node.t) :=
  let parent := Node.init (RouteProblem.start problem) None None 0 0 None in
  if RouteProblem.is_goal problem parent then ret (Some parent)
  else
    let visited := [parent] in
    let stack := Frontier.init parent (Flag true) in
    r <- while_loop fuel (fun st => negb (Frontier.is_empty (fst st)))
           (DFS_body problem repeat_check) (stack, visited) ;;
    match r with
    | inr branch => ret (Some branch)
    | inl _ => ret None
    end.

(** *** ucost.py and astar.py: the replacement test

    [frontier.contains(child) and frontier[child] > frontier.__getitem__(child)] *)
Definition replace_test (frontier : Frontier.t) (child : Node.t) : M World bool :=
  if Frontier.contains frontier child then
    a <- call (Frontier.getitem child) frontier ;;
    b <- call (Frontier.getitem child) (snd a) ;;
    ret (Qlt_bool (fst b) (fst a))
  else ret false.

(** The body of [for child in node.expand(problem)] in ucost.py *)
Definition uniform_cost_search_child (repeat_check : bool) (st : search_state)
    (child : Node.t) : M World search_state :=
  if repeat_check then
    if Node.elem child (snd st) then
      b <- replace_test (fst st) child ;;
      if b then
        r <- call (Frontier.delitem child) (fst st) ;;
        frontier_add child (snd r, snd st)
      else ret st
    else
      st <- frontier_add child st ;;
      ret (fst st, snd st ++ [child])
  else frontier_add child st.

(** The body of [for child in node.expand(problem)] in astar.py *)
Definition a_star_search_child (repeat_check : bool) (st : search_state)
    (child : Node.t) : M World search_state :=
  if repeat_check then
    if Node.elem child (snd st) then
      b <- replace_test (fst st) child ;;
      if b then
        r <- call (Frontier.delitem child) (fst st) ;;
        frontier_add child (snd r, snd st)
      else ret st
    else
      st <- frontier_add child st ;;
      ret (fst st, snd st ++ [child])
  else frontier_add child st.

Definition uniform_cost_search_body (problem : RouteProblem.t) (repeat_check : bool)
    (st : search_state) : M World (search_state + Node.t) :=
  r <- call Frontier.pop (fst st) ;;
  let node := fst r in
  let st := (snd r, snd st) in
  if RouteProblem.is_goal problem (Node.loc node) then ret (inr node)
  else
    children <- Node.expand node problem ;;
    st <- for_each children (uniform_cost_search_child repeat_check) st ;;
    ret (inl st).

Definition uniform_cost_search (fuel : nat) (problem : RouteProblem.t)
    (repeat_check : bool) : M World (option Node.t) :=
  let node := Node.init (RouteProblem.start problem) None None 0 0 None in
  if RouteProblem.is_goal problem (Node.loc node) then ret (Some node)
  else
    let frontier := Frontier.init node (Metric "g") in
    let reachedNodes := [node] in
    r <- while_loop fuel (fun st => negb (Frontier.is_empty (fst st)))
           (uniform_cost_search_body problem repeat_check) (frontier, reachedNodes) ;;
    match r with
    | inr node => ret (Some node)
    | inl _ => ret None
    end.

Definition a_star_search_body (problem : RouteProblem.t) (repeat_check : bool)
    (st : search_state) : M World (search_state + Node.t) :=
  r <- call Frontier.pop (fst st) ;;
  let node := fst r in
  let st := (snd r, snd st) in
  if RouteProblem.is_goal problem (Node.loc node) then ret (inr node)
  else
    children <- Node.expand node problem ;;
    st <- for_each children (a_star_search_child repeat_check) st ;;
    ret (inl st).

Definition a_star_search (fuel : nat) (problem : RouteProblem.t)
    (h : HeuristicFunction.t) (repeat_check : bool) : M World (option Node.t) :=
  let node := Node.init (RouteProblem.start problem) None None 0 0 (Some h) in
  if RouteProblem.is_goal problem (Node.loc node) then ret (Some node)
  else
    let frontier := Frontier.init node (Metric "f") in
    let reachedNodes := [node] in
    r <- while_loop fuel (fun st => negb (Frontier.is_empty (fst st)))
           (a_star_search_body problem repeat_check) (frontier, reachedNodes) ;;
    match r with
    | inr node => ret (Some node)
    | inl _ => ret None
    end.

(** *** greedy.py *)

Definition greedy_child (repeat_check : bool) (st : search_state) (child : Node.t)
    : M World search_state :=
  if repeat_check then
    if negb (Node.elem child (snd st)) then
      st <- frontier_add child st ;;
      ret (fst st, snd st ++ [child])
    else ret st
  else frontier_add child st.

Definition greedy_search_body (problem : RouteProblem.t) (repeat_check : bool)
    (st : search_state) : M World (search_state + Node.t) :=
  r <- call Frontier.pop (fst st) ;;
  let node := fst r in
  let st := (snd r, snd st) in
  if RouteProblem.is_goal problem (Node.loc node) then ret (inr node)
  else
    children <- Node.expand node problem ;;
    st <- for_each children (greedy_child repeat_check) st ;;
    ret (inl st).

Definition greedy_search (fuel : nat) (problem : RouteProblem.t)
    (h : HeuristicFunction.t) (repeat_check : bool) : M World (option Node.t) :=
  let node := Node.init (RouteProblem.start problem) None None 0 0 (Some h) in
  if RouteProblem.is_goal problem (Node.loc node) then ret (Some node)
  else
    let frontier := Frontier.init node (Metric "h") in
    let reachedNodes := [node] in
    r <- while_loop fuel (fun st => negb (Frontier.is_empty (fst st)))
           (greedy_search_body problem repeat_check) (frontier, reachedNodes) ;;
    match r with
    | inr node => ret (Some node)
    | inl _ => ret None
    end.

End Drivers.

(** * Properties *)

(** ** Numbers and strings *)

Lemma Qlt_bool_irrefl (x : Q) : Qlt_bool x x = false.
Proof.
  unfold Qlt_bool. apply negb_false_iff, Qle_bool_iff, Qle_refl.
Qed.

Lemma Qlt_bool_iff (x y : Q) : Qlt_bool x y = true <-> (x < y)%Q.
Proof.
  unfold Qlt_bool. rewrite negb_true_iff. split.
  - intros Hle. apply Qnot_le_lt. intros Hyx.
    apply Qle_bool_iff in Hyx. congruence.
  - intros Hlt. destruct (Qle_bool y x) eqn:E; [|reflexivity].
    apply Qle_bool_iff in E. exfalso. exact (Qlt_not_le _ _ Hlt E).
Qed.

(** ** Node equality and hashing *)

Lemma Node_eq_iff (n1 n2 : Node.t) : Node.eq n1 n2 = true <-> Node.loc n1 = Node.loc n2.
Proof. unfold Node.eq. apply String.eqb_eq. Qed.

Lemma Node_eq_refl (n : Node.t) : Node.eq n n = true.
Proof. apply Node_eq_iff. reflexivity. Qed.

(** C9. Node equality and hashing look at the location only: two nodes
    built on the same location, whatever their parents, roads, path costs,
    heuristic values and depths, are [==] and have the same hash; and two
    nodes are [==] only when their locations are the same. *)
Theorem Node_eq_hash_by_location `{builtins} :
  (forall loc p1 r1 c1 e1 f1 d1 p2 r2 c2 e2 f2 d2,
      let n1 := Node.mk loc p1 r1 c1 e1 f1 d1 in
      let n2 := Node.mk loc p2 r2 c2 e2 f2 d2 in
      Node.eq n1 n2 = true /\ Node.hash_ n1 = Node.hash_ n2) /\
  (forall n1 n2 : Node.t, Node.eq n1 n2 = true <-> Node.loc n1 = Node.loc n2).
Proof.
  split.
  - intros loc *. split.
    + apply Node_eq_iff. reflexivity.
    + reflexivity.
  - exact Node_eq_iff.
Qed.

(** ** The replacement test of uniform-cost and A* search *)

Lemma find_existsb {A} (p : A -> bool) (l : list A) :
  existsb p l = true -> exists x, find p l = Some x.
Proof.
  induction l as [|a l IH]; simpl; [discriminate|].
  destruct (p a); [eauto | exact IH].
Qed.

Lemma replace_test_false (frontier : Frontier.t) (child : Node.t) (w : World) :
  replace_test frontier child w = Return false w.
Proof.
  unfold replace_test, Frontier.contains, Frontier.contains_.
  destruct (existsb _ _) eqn:E; [|reflexivity].
  apply find_existsb in E. destruct E as [[v n] E].
  unfold bind, call, Frontier.getitem. rewrite E. simpl. rewrite E. simpl.
  unfold ret. rewrite Qlt_bool_irrefl. reflexivity.
Qed.

(** C1. With repeated-state checking on, the replacement condition of
    uniform-cost and A* search compares the key of the frontier's entry for
    the child with that same key: in every state it evaluates to False
    (and raises nothing), so for a child whose location is already reached
    the loop body leaves the frontier and the reached list as they are:
    no entry is removed or re-inserted. *)
Theorem replacement_branch_dead (frontier : Frontier.t) (reached : list Node.t)
    (child : Node.t) (w : World) :
  replace_test frontier child w = Return false w /\
  (Node.elem child reached = true ->
   uniform_cost_search_child true (frontier, reached) child w
     = Return (frontier, reached) w /\
   a_star_search_child true (frontier, reached) child w
     = Return (frontier, reached) w).
Proof.
  split; [apply replace_test_false|].
  intros Hin.
  unfold uniform_cost_search_child, a_star_search_child. simpl.
  rewrite Hin. unfold bind. rewrite replace_test_false. split; reflexivity.
Qed.

(** ** Concrete inputs used below *)

(** A stand-in for [math.sqrt] (three decimals, rounded down) and for
    [hash], to run the model on concrete inputs. *)
Definition example_sqrt (q : Q) : Q :=
  (Z.sqrt (Qnum q * Zpos (Qden q) * 1000000) # (Qden q * 1000))%Q.

Definition example_builtins : builtins :=
  {| math_sqrt := example_sqrt; hash := fun s => Z.of_nat (String.length s) |}.

(** The map a sequence of [add_location] and [add_road] calls builds. *)
Definition build (calls : list (M RoadMap.t unit)) : RoadMap.t :=
  fold_left (fun m c => match c m with Return _ m' => m' | _ => m end)
    calls (RoadMap.init None None None).

Definition empty_world : World := mkWorld (RoadMap.init None None None) 0.

Definition node_s : Node.t := Node.init "s" None None 0 0 None.
Definition node_a (cost : Q) : Node.t := Node.init "a" (Some node_s) (Some "sa") cost 0 None.
Definition node_b (cost : Q) : Node.t := Node.init "b" (Some node_s) (Some "sb") cost 0 None.

Lemma replacement_branch_dead_witness :
  uniform_cost_search_child true
    (Frontier.init node_s (Metric "g"), [node_s; node_a 5]) (node_a 2) empty_world
  = Return (Frontier.init node_s (Metric "g"), [node_s; node_a 5]) empty_world.
Proof.
  apply (replacement_branch_dead (Frontier.init node_s (Metric "g"))
           [node_s; node_a 5] (node_a 2) empty_world).
  reflexivity.
Defined.

(** ** The frontiers of DFS and BFS *)

(** ** The frontiers of BFS and DFS *)

Lemma PA0_push_each_spec (nodes : list Node.t) :
  forall F : PA0.Frontier.t,
  PA0.push_each nodes F
  = Return tt (PA0.Frontier.mk (PA0.Frontier.stack F) (PA0.Frontier.fringe F ++ nodes)).
Proof.
  unfold PA0.push_each.
  induction nodes as [|n nodes IH]; intros [st fr]; simpl.
  - rewrite app_nil_r. reflexivity.
  - unfold bind. simpl. rewrite IH. simpl. rewrite <- app_assoc. reflexivity.
Qed.

Lemma PA0_stack_pop_all (fuel : nat) :
  forall fr : list Node.t, length fr = fuel ->
  PA0.pop_all_loop fuel (PA0.Frontier.mk true fr)
  = Return (rev fr) (PA0.Frontier.mk true []).
Proof.
  induction fuel as [|fuel IH]; intros fr Hlen; simpl.
  - destruct fr; [reflexivity | discriminate].
  - unfold PA0.Frontier.is_empty. simpl. rewrite Hlen. simpl.
    destruct (last fr) as [n|] eqn:E.
    2:{ apply last_None in E. subst fr. discriminate. }
    apply last_Some in E. destruct E as [fr' ->].
    unfold bind, PA0.Frontier.pop. simpl. rewrite last_snoc, removelast_last.
    rewrite length_app in Hlen. simpl in Hlen.
    rewrite (IH fr') by lia. simpl. rewrite rev_unit. reflexivity.
Qed.

Lemma PA0_queue_pop_all (fuel : nat) :
  forall fr : list Node.t, length fr = fuel ->
  PA0.pop_all_loop fuel (PA0.Frontier.mk false fr)
  = Return fr (PA0.Frontier.mk false []).
Proof.
  induction fuel as [|fuel IH]; intros fr Hlen; simpl.
  - destruct fr; [reflexivity | discriminate].
  - destruct fr as [|n fr]; [discriminate|].
    unfold PA0.Frontier.is_empty, bind, PA0.Frontier.pop. simpl.
    rewrite (IH fr) by (simpl in Hlen; lia). reflexivity.
Qed.

(** C2. The frontier [DFS] builds, [Frontier(parent, True)], is a LIFO
    stack: a [pop] right after an [add] returns the node just added and
    leaves the frontier as it was before the [add], and after any sequence
    of adds the pops return all the nodes, the most recently added first:
    the insertion order, reversed. *)
Theorem DFS_frontier_is_stack (parent : Node.t) (nodes : list Node.t) :
  (forall (F : PA0.Frontier.t) (n : Node.t),
      PA0.Frontier.stack F = true ->
      (_ <- PA0.Frontier.add n ;; PA0.Frontier.pop) F = Return n F) /\
  exists F',
    (_ <- PA0.push_each nodes ;; PA0.pop_all) (PA0.Frontier.init parent true)
      = Return (rev (parent :: nodes)) F' /\
    PA0.Frontier.is_empty F' = true.
Proof.
  split.
  - intros [st fr] n Hst. simpl in Hst. subst st.
    unfold bind, PA0.Frontier.add, PA0.Frontier.pop. simpl.
    rewrite last_snoc, removelast_last. reflexivity.
  - unfold bind. rewrite PA0_push_each_spec. unfold PA0.pop_all. simpl.
    exists (PA0.Frontier.mk true []). split; [|reflexivity].
    exact (PA0_stack_pop_all _ (parent :: nodes) eq_refl).
Qed.

(** C3. The frontier [BFS] builds, [Frontier(parent)], is a FIFO queue: a
    [pop] returns the node that was inserted first and keeps the others in
    their order, and after any sequence of adds the pops return all the
    nodes in the order they were inserted. *)
Theorem BFS_frontier_is_queue (parent : Node.t) (nodes : list Node.t) :
  (forall (first : Node.t) (others : list Node.t) (n : Node.t),
      (_ <- PA0.Frontier.add n ;; PA0.Frontier.pop)
        (PA0.Frontier.mk false (first :: others))
      = Return first (PA0.Frontier.mk false (others ++ [n]))) /\
  exists F',
    (_ <- PA0.push_each nodes ;; PA0.pop_all) (PA0.Frontier.init parent false)
      = Return (parent :: nodes) F' /\
    PA0.Frontier.is_empty F' = true.
Proof.
  split.
  - intros first others n. reflexivity.
  - unfold bind. rewrite PA0_push_each_spec. unfold PA0.pop_all. simpl.
    exists (PA0.Frontier.mk false []). split; [|reflexivity].
    exact (PA0_queue_pop_all _ (parent :: nodes) eq_refl).
Qed.

(** C5 (what the code does). [location_coordinates] tests [x and y]: a
    location that is on the map with one zero coordinate, here (0, 5), is
    reported as unknown. *)
Theorem location_coordinates_one_zero_component :
  RoadMap.location_coordinates "a" (RoadMap.mk [] [] [("a", (0, 5)%Q)])
  = Raise (UnknownLocation "a") (RoadMap.mk [] [] [("a", (0, 5)%Q)]).
Proof. reflexivity. Qed.

(** *** What a lookup may change in the map

    [setdefault] appends the queried key with a default value when the key
    is absent, and nothing else ever changes. *)

(** [d'] is [d] followed by default entries for keys absent from [d]. *)
Definition defaults_appended {V} (dflt : V) (d d' : Dict.t V) : Prop :=
  exists ks, d' = d ++ map (fun k => (k, dflt)) ks /\
             Forall (fun k => Dict.get d k = None) ks.

Definition only_defaults_added (m m' : RoadMap.t) : Prop :=
  defaults_appended [] (RoadMap.connection_dict m) (RoadMap.connection_dict m') /\
  defaults_appended [] (RoadMap.road_dict m) (RoadMap.road_dict m') /\
  defaults_appended (0, 0)%Q (RoadMap.loc_dict m) (RoadMap.loc_dict m').

(** [d.get(k, dflt)] *)
Definition get_or {V} (d : Dict.t V) (k : string) (dflt : V) : V :=
  match Dict.get d k with Some v => v | None => dflt end.

Lemma Dict_get_app {V} (d1 d2 : Dict.t V) (k : string) :
  Dict.get (d1 ++ d2) k =
  match Dict.get d1 k with Some v => Some v | None => Dict.get d2 k end.
Proof.
  induction d1 as [|[k' v'] d1 IH]; simpl; [reflexivity|].
  destruct (String.eqb k' k); [reflexivity | exact IH].
Qed.

Lemma Dict_get_defaults {V} (dflt : V) (ks : list string) (k : string) :
  Dict.get (map (fun k => (k, dflt)) ks) k = None \/
  Dict.get (map (fun k => (k, dflt)) ks) k = Some dflt.
Proof.
  induction ks as [|k' ks IH]; simpl; [left; reflexivity|].
  destruct (String.eqb k' k); [right; reflexivity | exact IH].
Qed.

Lemma defaults_appended_refl {V} (dflt : V) (d : Dict.t V) : defaults_appended dflt d d.
Proof. exists []. simpl. rewrite app_nil_r. split; [reflexivity | constructor]. Qed.

Lemma defaults_appended_trans {V} (dflt : V) (d1 d2 d3 : Dict.t V) :
  defaults_appended dflt d1 d2 -> defaults_appended dflt d2 d3 ->
  defaults_appended dflt d1 d3.
Proof.
  intros (ks1 & -> & H1) (ks2 & -> & H2).
  exists (ks1 ++ ks2). split.
  - rewrite map_app, app_assoc. reflexivity.
  - apply Forall_app. split; [exact H1|].
    eapply Forall_impl; [exact H2|]. simpl. intros k Hk.
    rewrite Dict_get_app in Hk. destruct (Dict.get d1 k); [discriminate | reflexivity].
Qed.

Lemma defaults_appended_get_or {V} (dflt : V) (d d' : Dict.t V) (k : string) :
  defaults_appended dflt d d' -> get_or d' k dflt = get_or d k dflt.
Proof.
  intros (ks & -> & _). unfold get_or. rewrite Dict_get_app.
  destruct (Dict.get d k); [reflexivity|].
  destruct (Dict_get_defaults dflt ks k) as [-> | ->]; reflexivity.
Qed.

Lemma defaults_appended_get_some {V} (dflt : V) (d d' : Dict.t V) (k : string) (v : V) :
  defaults_appended dflt d d' -> Dict.get d k = Some v -> Dict.get d' k = Some v.
Proof.
  intros (ks & -> & _) Hk. rewrite Dict_get_app, Hk. reflexivity.
Qed.

Lemma setdefault_fst {V} (d : Dict.t V) (k : string) (dflt : V) :
  fst (Dict.setdefault d k dflt) = get_or d k dflt.
Proof. unfold Dict.setdefault, get_or. destruct (Dict.get d k); reflexivity. Qed.

Lemma setdefault_appended {V} (d : Dict.t V) (k : string) (dflt : V) :
  defaults_appended dflt d (snd (Dict.setdefault d k dflt)).
Proof.
  unfold Dict.setdefault. destruct (Dict.get d k) eqn:E; simpl.
  - apply defaults_appended_refl.
  - exists [k]. split; [reflexivity|]. constructor; [exact E | constructor].
Qed.

Lemma setdefault_present {V} (d : Dict.t V) (k : string) (dflt : V) :
  Dict.get d k <> None -> snd (Dict.setdefault d k dflt) = d.
Proof. unfold Dict.setdefault. destruct (Dict.get d k); [reflexivity | congruence]. Qed.

Lemma setdefault_absent {V} (d : Dict.t V) (k : string) (dflt : V) :
  Dict.get d k = None -> snd (Dict.setdefault d k dflt) = d ++ [(k, dflt)].
Proof. unfold Dict.setdefault. intros ->. reflexivity. Qed.

Lemma only_defaults_added_refl (m : RoadMap.t) : only_defaults_added m m.
Proof. repeat split; apply defaults_appended_refl. Qed.

Lemma only_defaults_added_trans (m1 m2 m3 : RoadMap.t) :
  only_defaults_added m1 m2 -> only_defaults_added m2 m3 -> only_defaults_added m1 m3.
Proof.
  intros (A1 & B1 & C1) (A2 & B2 & C2).
  repeat split; eapply defaults_appended_trans; eassumption.
Qed.

(** [get]: the value returned and the map left behind. *)
Lemma get_spec (start : string) (end_ : option string) (m : RoadMap.t) :
  RoadMap.get start end_ m =
  Return (match end_ with
          | None => Successors (get_or (RoadMap.connection_dict m) start [])
          | Some e => Entry (Dict.get (get_or (RoadMap.connection_dict m) start []) e)
          end)
         (RoadMap.mk (snd (Dict.setdefault (RoadMap.connection_dict m) start []))
            (RoadMap.road_dict m) (RoadMap.loc_dict m)).
Proof.
  unfold RoadMap.get. rewrite <- setdefault_fst.
  destruct (Dict.setdefault _ _ _) as [s cd]. destruct end_; reflexivity.
Qed.

Lemma get_result_spec (start : string) (road : option string) (m : RoadMap.t) :
  RoadMap.get_result start road m =
  Return (match road with
          | None => Successors (get_or (RoadMap.road_dict m) start [])
          | Some r => Entry (Dict.get (get_or (RoadMap.road_dict m) start []) r)
          end)
         (RoadMap.mk (RoadMap.connection_dict m)
            (snd (Dict.setdefault (RoadMap.road_dict m) start []))
            (RoadMap.loc_dict m)).
Proof.
  unfold RoadMap.get_result. rewrite <- setdefault_fst.
  destruct (Dict.setdefault _ _ _) as [s rd]. destruct road; reflexivity.
Qed.

Lemma location_coordinates_spec (loc : string) (m : RoadMap.t) :
  RoadMap.location_coordinates loc m =
  let p := get_or (RoadMap.loc_dict m) loc (0, 0)%Q in
  let m' := RoadMap.mk (RoadMap.connection_dict m) (RoadMap.road_dict m)
              (snd (Dict.setdefault (RoadMap.loc_dict m) loc (0, 0)%Q)) in
  if truthy (fst p) && truthy (snd p) then Return p m'
  else Raise (UnknownLocation loc) m'.
Proof.
  unfold RoadMap.location_coordinates. rewrite <- setdefault_fst.
  destruct (Dict.setdefault _ _ _) as [[x y] ld]. simpl.
  destruct (truthy x && truthy y); reflexivity.
Qed.

Lemma get_only_defaults (start : string) (end_ : option string) (m : RoadMap.t) :
  exists v m', RoadMap.get start end_ m = Return v m' /\ only_defaults_added m m'.
Proof.
  rewrite get_spec. eexists _, _. split; [reflexivity|].
  repeat split; simpl; try apply defaults_appended_refl. apply setdefault_appended.
Qed.

Lemma get_result_only_defaults (start : string) (road : option string) (m : RoadMap.t) :
  exists v m', RoadMap.get_result start road m = Return v m' /\ only_defaults_added m m'.
Proof.
  rewrite get_result_spec. eexists _, _. split; [reflexivity|].
  repeat split; simpl; try apply defaults_appended_refl. apply setdefault_appended.
Qed.

Lemma location_coordinates_only_defaults (loc : string) (m : RoadMap.t) :
  exists m', state_of (RoadMap.location_coordinates loc m) = Some m' /\
             only_defaults_added m m'.
Proof.
  rewrite location_coordinates_spec. cbv zeta.
  destruct (_ && _); simpl; eexists; (split; [reflexivity|]);
    repeat split; simpl; try apply defaults_appended_refl; apply setdefault_appended.
Qed.

(** *** path_cost *)

(** Where the road named [road] leads from [loc], and what the segment
    from [a] to [b] costs: the map as the lookups see it. *)
Definition road_end (m : RoadMap.t) (loc road : string) : option string :=
  Dict.get (get_or (RoadMap.road_dict m) loc []) road.

Definition edge_cost (m : RoadMap.t) (a b : string) : option Q :=
  Dict.get (get_or (RoadMap.connection_dict m) a []) b.

(** Every named road segment has a cost: the invariant [add_road] keeps. *)
Definition roads_have_costs (m : RoadMap.t) : Prop :=
  forall a r b, road_end m a r = Some b -> edge_cost m a b <> None.

(** What walking a road list meets first. *)
Inductive walk_result : Type :=
| Unresolved
| MissingCost
| Resolved (costs : list Q).

Fixpoint walk (m : RoadMap.t) (loc : string) (road_list : list string) : walk_result :=
  match road_list with
  | [] => Resolved []
  | road :: rest =>
      match road_end m loc road with
      | None => Unresolved
      | Some next_loc =>
          match edge_cost m loc next_loc with
          | None => MissingCost
          | Some c =>
              match walk m next_loc rest with
              | Resolved cs => Resolved (c :: cs)
              | other => other
              end
          end
      end
  end.

(** The segments a road list resolves to from [loc], when every road of
    the list is a road of the location reached so far. *)
Fixpoint resolve (m : RoadMap.t) (loc : string) (road_list : list string)
    : option (list (string * string)) :=
  match road_list with
  | [] => Some []
  | road :: rest =>
      match road_end m loc road with
      | None => None
      | Some next_loc => option_map (cons (loc, next_loc)) (resolve m next_loc rest)
      end
  end.

(** The cost of a segment, and the sum of the costs of a list of
    segments, added in order from 0.0. *)
Definition segment_cost (m : RoadMap.t) (e : string * string) : Q :=
  match edge_cost m (fst e) (snd e) with Some c => c | None => 0%Q end.

Definition sum_costs (m : RoadMap.t) (segments : list (string * string)) : Q :=
  fold_left (fun total e => (total + segment_cost m e)%Q) segments 0%Q.

(** Where a list of segments ends. *)
Definition end_of (start : string) (segments : list (string * string)) : string :=
  List.last (map snd segments) start.

Lemma road_end_only_defaults (m m' : RoadMap.t) (loc road : string) :
  only_defaults_added m m' -> road_end m' loc road = road_end m loc road.
Proof.
  intros (_ & Hr & _). unfold road_end.
  rewrite (defaults_appended_get_or _ _ _ _ Hr). reflexivity.
Qed.

Lemma edge_cost_only_defaults (m m' : RoadMap.t) (a b : string) :
  only_defaults_added m m' -> edge_cost m' a b = edge_cost m a b.
Proof.
  intros (Hc & _ & _). unfold edge_cost.
  rewrite (defaults_appended_get_or _ _ _ _ Hc). reflexivity.
Qed.

Lemma walk_only_defaults (m m' : RoadMap.t) (road_list : list string) (loc : string) :
  only_defaults_added m m' -> walk m' loc road_list = walk m loc road_list.
Proof.
  intros Hm. revert loc. induction road_list as [|road rest IH]; intros loc; simpl.
  - reflexivity.
  - rewrite (road_end_only_defaults _ _ _ _ Hm).
    destruct (road_end m loc road) as [next_loc|]; [|reflexivity].
    rewrite (edge_cost_only_defaults _ _ _ _ Hm), IH. reflexivity.
Qed.

(** [path_cost] on every map: 0.0 at the first unresolved road, a
    TypeError at a resolved road that has no cost, the running sum
    otherwise. *)
Lemma path_cost_loop_walk (road_list : list string) :
  forall (total_cost : Q) (loc : string) (m : RoadMap.t),
  exists m', only_defaults_added m m' /\
    RoadMap.path_cost_loop road_list total_cost loc m =
    match walk m loc road_list with
    | Unresolved => Return 0%Q m'
    | MissingCost => Raise TypeError m'
    | Resolved cs => Return (fold_left Qplus cs total_cost) m'
    end.
Proof.
  induction road_list as [|road rest IH]; intros total_cost loc m; simpl.
  - exists m. split; [apply only_defaults_added_refl | reflexivity].
  - unfold bind. rewrite get_result_spec. fold (road_end m loc road).
    set (m1 := RoadMap.mk _ _ _).
    assert (H1 : only_defaults_added m m1).
    { repeat split; simpl; try apply defaults_appended_refl. apply setdefault_appended. }
    destruct (road_end m loc road) as [next_loc|].
    2:{ exists m1. split; [exact H1 | reflexivity]. }
    rewrite get_spec. fold (edge_cost m1 loc next_loc).
    rewrite (edge_cost_only_defaults _ _ _ _ H1).
    set (m2 := RoadMap.mk _ _ _).
    assert (H2 : only_defaults_added m m2).
    { eapply only_defaults_added_trans; [exact H1|].
      repeat split; simpl; try apply defaults_appended_refl. apply setdefault_appended. }
    destruct (edge_cost m loc next_loc) as [c|].
    2:{ exists m2. split; [exact H2 | reflexivity]. }
    destruct (IH (total_cost + c)%Q next_loc m2) as (m' & H3 & ->).
    exists m'. split; [eapply only_defaults_added_trans; eassumption|].
    rewrite (walk_only_defaults _ _ _ _ H2).
    destruct (walk m next_loc rest); reflexivity.
Qed.

Lemma walk_resolve (m : RoadMap.t) (road_list : list string) :
  roads_have_costs m ->
  forall (loc : string) (total : Q),
  match walk m loc road_list, resolve m loc road_list with
  | Unresolved, None => True
  | Resolved cs, Some segments =>
      fold_left Qplus cs total =
      fold_left (fun total e => (total + segment_cost m e)%Q) segments total
  | _, _ => False
  end.
Proof.
  intros Hm. induction road_list as [|road rest IH]; intros loc total; simpl.
  - reflexivity.
  - destruct (road_end m loc road) as [next_loc|] eqn:E; [|exact I].
    specialize (Hm _ _ _ E).
    destruct (edge_cost m loc next_loc) as [c|] eqn:Ec; [|congruence].
    specialize (IH next_loc (total + c)%Q).
    destruct (walk m next_loc rest), (resolve m next_loc rest); simpl; try exact IH.
    rewrite IH.
    replace (segment_cost m (loc, next_loc)) with c; [reflexivity|].
    unfold segment_cost. simpl. rewrite Ec. reflexivity.
Qed.

Lemma last_cons_any_default {A} (l : list A) :
  forall x d d', List.last (x :: l) d = List.last (x :: l) d'.
Proof.
  induction l as [|y l IH]; intros x d d'; [reflexivity|].
  change (List.last (y :: l) d = List.last (y :: l) d'). apply IH.
Qed.

Lemma last_cons_shift {A} (l : list A) (x d : A) :
  List.last (x :: l) d = List.last l x.
Proof.
  destruct l as [|y l]; [reflexivity|].
  change (List.last (y :: l) d = List.last (y :: l) x). apply last_cons_any_default.
Qed.

Lemma resolve_app (m : RoadMap.t) (prefix rest : list string) :
  forall (start : string) (segments : list (string * string)),
  resolve m start prefix = Some segments ->
  resolve m start (prefix ++ rest) =
  option_map (app segments) (resolve m (end_of start segments) rest).
Proof.
  induction prefix as [|road prefix IH]; intros start segments; simpl.
  - intros [= <-]. unfold end_of. simpl. destruct (resolve m start rest); reflexivity.
  - destruct (road_end m start road) as [next_loc|]; [|discriminate].
    destruct (resolve m next_loc prefix) as [segs|] eqn:E; [|discriminate].
    intros [= <-]. rewrite (IH _ _ E).
    replace (end_of start ((start, next_loc) :: segs)) with (end_of next_loc segs).
    + destruct (resolve m (end_of next_loc segs) rest); reflexivity.
    + unfold end_of. simpl map. symmetry. apply last_cons_shift.
Qed.

Lemma path_cost_value (m : RoadMap.t) (start : string) (road_list : list string) :
  roads_have_costs m ->
  value_of (RoadMap.path_cost start road_list m) =
    Some (match resolve m start road_list with
          | None => 0%Q
          | Some segments => sum_costs m segments
          end).
Proof.
  intros Hm. unfold RoadMap.path_cost.
  destruct (path_cost_loop_walk road_list 0%Q start m) as (m' & _ & ->).
  pose proof (walk_resolve m road_list Hm start 0%Q) as Hw.
  destruct (walk m start road_list), (resolve m start road_list);
    try contradiction; simpl; [reflexivity|].
  rewrite Hw. reflexivity.
Qed.

(** C6 (amended). On a map where every named road has a cost, [path_cost] returns
    the sum of the costs of the segments walked when every road of the list
    resolves from the location reached so far, and 0.0 otherwise, with no
    credit for a valid prefix; in particular it returns 0.0 for the empty
    list, for a non-empty list from a start that has no roads, and for a
    list whose prefix resolves and whose next road does not. *)
Theorem path_cost_sentinel_or_sum (m : RoadMap.t) (start : string)
    (road_list : list string) :
  roads_have_costs m ->
  value_of (RoadMap.path_cost start road_list m) =
    Some (match resolve m start road_list with
          | None => 0%Q
          | Some segments => sum_costs m segments
          end) /\
  value_of (RoadMap.path_cost start [] m) = Some 0%Q /\
  (Dict.get (RoadMap.road_dict m) start = None -> road_list <> [] ->
   value_of (RoadMap.path_cost start road_list m) = Some 0%Q) /\
  (forall prefix segments road rest,
      road_list = prefix ++ road :: rest ->
      resolve m start prefix = Some segments ->
      road_end m (end_of start segments) road = None ->
      value_of (RoadMap.path_cost start road_list m) = Some 0%Q).
Proof.
  intros Hm. split; [|split; [|split]].
  - apply path_cost_value, Hm.
  - reflexivity.
  - intros Hs Hne. rewrite (path_cost_value _ _ _ Hm).
    destruct road_list as [|road rest]; [congruence|].
    simpl. unfold road_end, get_or. rewrite Hs. reflexivity.
  - intros prefix segments road rest -> Hp Hr.
    rewrite (path_cost_value _ _ _ Hm), (resolve_app _ _ _ _ _ Hp).
    simpl. rewrite Hr. reflexivity.
Qed.

(** A map handed to the constructor with a named road and no cost for it. *)
Definition bare_map : RoadMap.t :=
  RoadMap.init None (Some [("a", [("r", "b")])]) None.

(** C6 as stated fails: on [bare_map] the road "r" resolves from "a", so
    the list ["r"] has no unresolved step and is not empty, yet [path_cost]
    returns neither 0.0 nor a sum: adding the missing cost, [None], to the
    total is a type error. *)
Lemma path_cost_raises_without_cost :
  resolve bare_map "a" ["r"] = Some [("a", "b")] /\
  value_of (RoadMap.path_cost "a" ["r"] bare_map) = None /\
  exists m', RoadMap.path_cost "a" ["r"] bare_map = Raise TypeError m'.
Proof.
  split; [reflexivity|]. split; [reflexivity|]. eexists. reflexivity.
Qed.

(** A checker for [roads_have_costs]. *)
Definition roads_have_costs_b (m : RoadMap.t) : bool :=
  forallb (fun entry =>
             forallb (fun rb => match edge_cost m (fst entry) (snd rb) with
                                | Some _ => true
                                | None => false
                                end)
               (snd entry))
    (RoadMap.road_dict m).

Lemma Dict_get_In {V} (d : Dict.t V) (k : string) (v : V) :
  Dict.get d k = Some v -> In (k, v) d.
Proof.
  induction d as [|[k' v'] d IH]; simpl; [discriminate|].
  destruct (String.eqb_spec k' k) as [->|_].
  - intros [= ->]. left. reflexivity.
  - intros Hg. right. exact (IH Hg).
Qed.

Lemma roads_have_costs_b_sound (m : RoadMap.t) :
  roads_have_costs_b m = true -> roads_have_costs m.
Proof.
  unfold roads_have_costs_b, roads_have_costs, road_end, get_or.
  intros Hb a r b Hr.
  destruct (Dict.get (RoadMap.road_dict m) a) as [inner|] eqn:Ea; [|discriminate].
  apply Dict_get_In in Ea. apply Dict_get_In in Hr.
  rewrite List.forallb_forall in Hb. specialize (Hb _ Ea). simpl in Hb.
  rewrite List.forallb_forall in Hb. specialize (Hb _ Hr). simpl in Hb.
  destruct (edge_cost m a b); [discriminate | discriminate Hb].
Qed.

(** A small map: s -> a (5), s -> b (1), b -> a (1), a -> g (1), g -> s (1),
    a -> s (1), and an island i <-> j that no road from s reaches. *)
Definition example_map : RoadMap.t :=
  build [
    RoadMap.add_location "s" 1 1; RoadMap.add_location "a" 2 2;
    RoadMap.add_location "b" 3 1; RoadMap.add_location "g" 5 5;
    RoadMap.add_location "i" 8 8; RoadMap.add_location "j" 9 7;
    RoadMap.add_road "s" "a" (Some "sa") 5; RoadMap.add_road "s" "b" (Some "sb") 1;
    RoadMap.add_road "a" "g" (Some "ag") 1; RoadMap.add_road "b" "a" (Some "ba") 1;
    RoadMap.add_road "g" "s" (Some "gs") 1; RoadMap.add_road "a" "s" (Some "as") 1;
    RoadMap.add_road "i" "j" (Some "ij") 2; RoadMap.add_road "j" "i" (Some "ji") 2 ].

Lemma path_cost_sentinel_or_sum_witness :
  value_of (RoadMap.path_cost "s" ["sb"; "ba"; "ag"] example_map) = Some 3%Q /\
  value_of (RoadMap.path_cost "s" ["sb"; "nowhere"; "ag"] example_map) = Some 0%Q.
Proof.
  split.
  - exact (proj1 (path_cost_sentinel_or_sum example_map "s" ["sb"; "ba"; "ag"]
                    (roads_have_costs_b_sound example_map eq_refl))).
  - exact (proj1 (path_cost_sentinel_or_sum example_map "s" ["sb"; "nowhere"; "ag"]
                    (roads_have_costs_b_sound example_map eq_refl))).
Defined.

(** ** heapq: the heap holds the same items *)

Section heapq_perm.
Context {A : Type} (lt : A -> A -> bool).

Lemma cons_insert_swap (l : list A) :
  forall (i : nat) (x y : A),
  i < length l -> Permutation (x :: <[i := y]> l) (y :: <[i := x]> l).
Proof.
  induction l as [|a l IH]; intros [|i] x y Hi; simpl in *; try lia.
  - apply perm_swap.
  - etransitivity; [apply perm_swap|].
    etransitivity; [|apply perm_swap].
    apply perm_skip, IH. lia.
Qed.

(** Moving the item at [j] into the hole at [i] moves the hole to [j]. *)
Lemma insert_swap_perm (l : list A) :
  forall (i j : nat) (x y : A),
  i <> j -> l !! j = Some y -> i < length l ->
  Permutation (<[j := x]> (<[i := y]> l)) (<[i := x]> l).
Proof.
  induction l as [|a l IH]; intros [|i] [|j] x y Hne Hj Hi; simpl in *;
    try lia; try discriminate.
  - rewrite cons_insert_swap by (eapply lookup_lt_Some; exact Hj).
    rewrite (list_insert_id l j y Hj). reflexivity.
  - injection Hj as ->. apply cons_insert_swap. lia.
  - apply perm_skip, IH; [lia | exact Hj | lia].
Qed.

Lemma _siftdown_loop_perm (fuel : nat) :
  forall (heap : list A) (newitem : A) (startpos pos : nat) heap' pos',
  pos < length heap ->
  heapq._siftdown_loop lt fuel heap newitem startpos pos = (heap', pos') ->
  pos' < length heap' /\
  Permutation (<[pos' := newitem]> heap') (<[pos := newitem]> heap).
Proof.
  induction fuel as [|fuel IH]; intros heap newitem startpos pos heap' pos' Hpos;
    cbn [heapq._siftdown_loop].
  - intros [= <- <-]. split; [exact Hpos | reflexivity].
  - destruct (startpos <? pos)%nat eqn:Hs.
    2:{ intros [= <- <-]. split; [exact Hpos | reflexivity]. }
    apply Nat.ltb_lt in Hs.
    destruct (heap !! ((pos - 1) / 2)) as [parent|] eqn:Hp.
    2:{ intros [= <- <-]. split; [exact Hpos | reflexivity]. }
    destruct (lt newitem parent).
    2:{ intros [= <- <-]. split; [exact Hpos | reflexivity]. }
    intros Hloop. apply IH in Hloop.
    + destruct Hloop as [Hlen Hperm]. split; [exact Hlen|].
      rewrite Hperm. apply insert_swap_perm; [|exact Hp | exact Hpos].
      pose proof (Nat.Div0.div_le_upper_bound (pos - 1) 2 (pos - 1)). lia.
    + rewrite length_insert. eapply lookup_lt_Some. exact Hp.
Qed.

Lemma _siftdown_perm (heap : list A) (startpos pos : nat) :
  Permutation (heapq._siftdown lt heap startpos pos) heap.
Proof.
  unfold heapq._siftdown. destruct (heap !! pos) as [newitem|] eqn:Hn; [|reflexivity].
  destruct (heapq._siftdown_loop lt pos heap newitem startpos pos) as [heap' pos'] eqn:E.
  apply _siftdown_loop_perm in E; [|eapply lookup_lt_Some; exact Hn].
  destruct E as [_ ->]. rewrite (list_insert_id _ _ _ Hn). reflexivity.
Qed.

Lemma _siftdown_length (heap : list A) (startpos pos : nat) :
  length (heapq._siftdown lt heap startpos pos) = length heap.
Proof. apply Permutation_length, _siftdown_perm. Qed.

Lemma _siftup_loop_perm (fuel : nat) (newitem : A) :
  forall (heap : list A) (endpos pos childpos : nat) heap' pos',
  pos < length heap -> pos < childpos ->
  heapq._siftup_loop lt fuel heap endpos pos childpos = (heap', pos') ->
  pos' < length heap' /\
  Permutation (<[pos' := newitem]> heap') (<[pos := newitem]> heap).
Proof.
  induction fuel as [|fuel IH]; intros heap endpos pos childpos heap' pos' Hpos Hc;
    cbn [heapq._siftup_loop].
  - intros [= <- <-]. split; [exact Hpos | reflexivity].
  - destruct (childpos <? endpos)%nat.
    2:{ intros [= <- <-]. split; [exact Hpos | reflexivity]. }
    set (c := match heap !! childpos, heap !! (childpos + 1) with
              | Some c, Some r =>
                  if (childpos + 1 <? endpos)%nat && negb (lt c r)
                  then childpos + 1 else childpos
              | _, _ => childpos
              end).
    assert (Hcc : pos < c).
    { subst c. destruct (heap !! childpos), (heap !! (childpos + 1));
        try destruct (_ && _); lia. }
    clearbody c.
    destruct (heap !! c) as [x|] eqn:Hx.
    2:{ intros [= <- <-]. split; [exact Hpos | reflexivity]. }
    intros Hloop. apply IH in Hloop.
    + destruct Hloop as [Hlen Hperm]. split; [exact Hlen|].
      rewrite Hperm. apply insert_swap_perm; [lia | exact Hx | exact Hpos].
    + rewrite length_insert. eapply lookup_lt_Some. exact Hx.
    + lia.
Qed.

Lemma _siftup_perm (heap : list A) (pos : nat) :
  Permutation (heapq._siftup lt heap pos) heap.
Proof.
  unfold heapq._siftup. destruct (heap !! pos) as [newitem|] eqn:Hn; [|reflexivity].
  destruct (heapq._siftup_loop lt (length heap) heap (length heap) pos (2 * pos + 1))
    as [heap' pos'] eqn:E.
  apply (_siftup_loop_perm _ newitem) in E;
    [|eapply lookup_lt_Some; exact Hn | lia].
  destruct E as [_ E]. rewrite _siftdown_perm, E, (list_insert_id _ _ _ Hn). reflexivity.
Qed.

Lemma heappush_perm (heap : list A) (item : A) :
  Permutation (heapq.heappush lt heap item) (item :: heap).
Proof.
  unfold heapq.heappush. rewrite _siftdown_perm.
  symmetry. apply Permutation_cons_append.
Qed.

Lemma heappop_None (heap : list A) : heapq.heappop lt heap = None <-> heap = [].
Proof.
  unfold heapq.heappop. split.
  - destruct (last heap) eqn:E.
    + destruct (removelast heap); discriminate.
    + intros _. apply last_None in E. exact E.
  - intros ->. reflexivity.
Qed.

Lemma heappop_perm (heap : list A) (e : A) (rest : list A) :
  heapq.heappop lt heap = Some (e, rest) -> Permutation (e :: rest) heap.
Proof.
  unfold heapq.heappop. destruct (last heap) as [lastelt|] eqn:E; [|discriminate].
  apply last_Some in E. destruct E as [l' ->].
  rewrite removelast_last. destruct l' as [|returnitem t].
  - intros [= <- <-]. reflexivity.
  - intros [= <- <-]. rewrite _siftup_perm. simpl.
    apply perm_skip, Permutation_cons_append.
Qed.

Lemma heapify_perm (x : list A) : Permutation (heapq.heapify lt x) x.
Proof.
  unfold heapq.heapify. generalize (rev (seq 0 (length x / 2))). intros ps.
  revert x. induction ps as [|p ps IH]; intros x; simpl; [reflexivity|].
  rewrite IH. apply _siftup_perm.
Qed.

End heapq_perm.

(** ** heapq: the heap invariant

    [lt a b = false] reads "b <= a".  The items are assumed to be totally
    pre-ordered by [lt]: it is asymmetric, and its negation is transitive. *)

Ltac parent_facts i :=
  pose proof (Nat.div_mod_eq (i - 1) 2);
  pose proof (Nat.mod_upper_bound (i - 1) 2 ltac:(lia)).

(** Rewrites lookups in updated lists, closing index side conditions. *)
Ltac lookup_insert :=
  repeat first
    [ rewrite list_lookup_insert_eq by (rewrite ?length_insert; lia)
    | rewrite list_lookup_insert_ne by lia ].

Ltac lookup_insert_in H :=
  repeat first
    [ rewrite list_lookup_insert_eq in H by (rewrite ?length_insert; lia)
    | rewrite list_lookup_insert_ne in H by lia ].

Section heapq_order.
Context {A : Type} (lt : A -> A -> bool).
Hypothesis lt_asym : forall a b, lt a b = true -> lt b a = false.
Hypothesis le_trans : forall a b c, lt b a = false -> lt c b = false -> lt c a = false.

Lemma lt_irrefl (a : A) : lt a a = false.
Proof using lt_asym.
  destruct (lt a a) eqn:E; [|reflexivity].
  pose proof (lt_asym _ _ E). congruence.
Qed.

(** [pos] is [lo] or lies below it in the tree. *)
Inductive descends (lo : nat) : nat -> Prop :=
| descends_self : descends lo lo
| descends_child (i : nat) : 0 < i -> descends lo ((i - 1) / 2) -> descends lo i.

Lemma descends_le (lo pos : nat) : descends lo pos -> lo <= pos.
Proof. induction 1 as [|i Hi _ IH]; [lia|]. parent_facts i. lia. Qed.

Lemma descends_parent (lo pos : nat) :
  descends lo pos -> lo < pos -> descends lo ((pos - 1) / 2).
Proof. inversion 1; subst; [lia | auto]. Qed.

Lemma descends_root (pos : nat) : descends 0 pos.
Proof.
  induction pos as [pos IH] using lt_wf_ind.
  destruct (Nat.eq_dec pos 0) as [->|Hne]; [constructor|].
  apply descends_child; [lia|]. apply IH. parent_facts pos. lia.
Qed.

(** No item whose parent is at [lo] or after is smaller than its parent:
    the subtrees rooted at [lo] and after are heaps. *)
Definition ordered_from (lo : nat) (h : list A) : Prop :=
  forall i c p, 0 < i -> lo <= (i - 1) / 2 -> h !! i = Some c ->
                h !! ((i - 1) / 2) = Some p -> lt c p = false.

(** No item is smaller than its parent. *)
Definition heap_ordered (h : list A) : Prop :=
  forall i c p, 0 < i -> h !! i = Some c -> h !! ((i - 1) / 2) = Some p ->
                lt c p = false.

Lemma ordered_from_root (h : list A) : ordered_from 0 h <-> heap_ordered h.
Proof.
  split.
  - intros Hh i c p Hi. apply Hh; [exact Hi | lia].
  - intros Hh i c p Hi _. apply Hh. exact Hi.
Qed.

(** Ordered from [lo] but for the item at [pos], which may be smaller
    than its parent; its children are not smaller than its parent. *)
Definition ordered_but_up (lo : nat) (h : list A) (pos : nat) : Prop :=
  (forall i c p, 0 < i -> lo <= (i - 1) / 2 -> i <> pos -> h !! i = Some c ->
                 h !! ((i - 1) / 2) = Some p -> lt c p = false) /\
  (forall i c g, 0 < pos -> lo <= (pos - 1) / 2 -> 0 < i -> (i - 1) / 2 = pos ->
                 h !! i = Some c -> h !! ((pos - 1) / 2) = Some g -> lt c g = false).

(** Ordered from [lo] but for the children of [pos], which may be smaller
    than the item at [pos]; they are not smaller than its parent. *)
Definition ordered_but_down (lo : nat) (h : list A) (pos : nat) : Prop :=
  (forall i c p, 0 < i -> lo <= (i - 1) / 2 -> (i - 1) / 2 <> pos -> h !! i = Some c ->
                 h !! ((i - 1) / 2) = Some p -> lt c p = false) /\
  (forall i c g, 0 < pos -> lo <= (pos - 1) / 2 -> 0 < i -> (i - 1) / 2 = pos ->
                 h !! i = Some c -> h !! ((pos - 1) / 2) = Some g -> lt c g = false).

Lemma _siftdown_loop_ordered (fuel : nat) :
  forall (heap : list A) (newitem : A) (lo pos : nat) heap' pos',
  pos <= fuel -> pos < length heap -> descends lo pos ->
  ordered_but_up lo (<[pos := newitem]> heap) pos ->
  heapq._siftdown_loop lt fuel heap newitem lo pos = (heap', pos') ->
  ordered_from lo (<[pos' := newitem]> heap').
Proof using lt_asym le_trans.
  induction fuel as [|fuel IH];
    intros heap newitem lo pos heap' pos' Hfuel Hpos Hdesc [Ha Hb];
    cbn [heapq._siftdown_loop]; pose proof (descends_le _ _ Hdesc) as Hlo.
  - intros [= <- <-]. intros i c p Hi Hl. parent_facts i. apply Ha; lia.
  - destruct (lo <? pos)%nat eqn:Hs.
    2:{ apply Nat.ltb_ge in Hs. intros [= <- <-]. intros i c p Hi Hl.
        parent_facts i. apply Ha; lia. }
    apply Nat.ltb_lt in Hs. parent_facts pos.
    pose proof (descends_parent _ _ Hdesc Hs) as Hdp.
    pose proof (descends_le _ _ Hdp) as Hlp.
    destruct (heap !! ((pos - 1) / 2)) as [parent|] eqn:Hp.
    2:{ apply lookup_ge_None in Hp. lia. }
    destruct (lt newitem parent) eqn:Hlt.
    2:{ intros [= <- <-]. intros i c p Hi Hl Hc Hpp.
        destruct (Nat.eq_dec i pos) as [->|Hne]; [|eapply Ha; eauto].
        lookup_insert_in Hc. lookup_insert_in Hpp. congruence. }
    apply IH; [lia | rewrite length_insert; lia | exact Hdp |].
    pose proof (lt_asym _ _ Hlt) as Hle.
    assert (Hpar : forall i c, 0 < i -> i <> pos -> (i - 1) / 2 = (pos - 1) / 2 ->
                               heap !! i = Some c -> lt c parent = false).
    { intros i c Hi Hne Hpi Hc. apply (Ha i c parent Hi); [lia | exact Hne | |].
      - lookup_insert. exact Hc.
      - rewrite Hpi. lookup_insert. exact Hp. }
    split.
    + intros i c p Hi Hl Hne Hc Hpp. parent_facts i.
      destruct (Nat.eq_dec i pos) as [->|Hip].
      * lookup_insert_in Hc. lookup_insert_in Hpp. congruence.
      * lookup_insert_in Hc.
        destruct (Nat.eq_dec ((i - 1) / 2) ((pos - 1) / 2)) as [E|E].
        -- rewrite E in Hpp. lookup_insert_in Hpp. injection Hpp as <-.
           eapply le_trans; [exact Hle|]. eapply Hpar; eauto.
        -- destruct (Nat.eq_dec ((i - 1) / 2) pos) as [E'|E'].
           ++ rewrite E' in Hpp. lookup_insert_in Hpp. injection Hpp as <-.
              apply (Hb i c parent); try lia; lookup_insert; assumption.
           ++ lookup_insert_in Hpp.
              apply (Ha i c p Hi Hl Hip); lookup_insert; assumption.
    + intros i c g Hpp Hl Hi Hpi Hc Hg. parent_facts i. parent_facts ((pos - 1) / 2).
      lookup_insert_in Hg.
      assert (Hgp : lt parent g = false).
      { apply (Ha ((pos - 1) / 2) parent g Hpp); [exact Hl | lia | |];
          lookup_insert; assumption. }
      destruct (Nat.eq_dec i pos) as [->|Hip].
      * lookup_insert_in Hc. congruence.
      * lookup_insert_in Hc. eapply le_trans; [exact Hgp|]. eapply Hpar; eauto.
Qed.

Lemma _siftdown_ordered_from (heap : list A) (lo pos : nat) :
  descends lo pos -> ordered_but_up lo heap pos ->
  ordered_from lo (heapq._siftdown lt heap lo pos).
Proof using lt_asym le_trans.
  intros Hdesc Hw. unfold heapq._siftdown.
  destruct (heap !! pos) as [newitem|] eqn:Hn.
  - destruct (heapq._siftdown_loop lt pos heap newitem lo pos) as [heap' pos'] eqn:E.
    eapply _siftdown_loop_ordered; [| | | |exact E].
    + lia.
    + eapply lookup_lt_Some. exact Hn.
    + exact Hdesc.
    + rewrite (list_insert_id _ _ _ Hn). exact Hw.
  - apply lookup_ge_None in Hn. destruct Hw as [Ha _].
    intros i c p Hi Hl Hc. apply Ha; [exact Hi | exact Hl | | exact Hc].
    apply lookup_lt_Some in Hc. lia.
Qed.

Lemma _siftdown_ordered (heap : list A) (pos : nat) :
  ordered_but_up 0 heap pos -> heap_ordered (heapq._siftdown lt heap 0 pos).
Proof using lt_asym le_trans.
  intros Hw. apply ordered_from_root, _siftdown_ordered_from; [|exact Hw].
  apply descends_root.
Qed.

Lemma heappush_ordered (heap : list A) (item : A) :
  heap_ordered heap -> heap_ordered (heapq.heappush lt heap item).
Proof using lt_asym le_trans.
  intros Hh. apply _siftdown_ordered. split.
  - intros i c p Hi _ Hne Hc Hp.
    assert (i < length heap).
    { apply lookup_lt_Some in Hc. rewrite length_app in Hc. simpl in Hc. lia. }
    parent_facts i.
    rewrite lookup_app_l in Hc by lia. rewrite lookup_app_l in Hp by lia.
    exact (Hh i c p Hi Hc Hp).
  - intros i c g _ _ Hi Hpi Hc _. apply lookup_lt_Some in Hc.
    rewrite length_app in Hc. simpl in Hc. parent_facts i. lia.
Qed.

Lemma _siftup_loop_ordered (fuel : nat) :
  forall (heap : list A) (lo pos : nat) heap' pos',
  length heap <= fuel + (2 * pos + 1) -> pos < length heap -> descends lo pos ->
  ordered_but_down lo heap pos ->
  heapq._siftup_loop lt fuel heap (length heap) pos (2 * pos + 1) = (heap', pos') ->
  ordered_but_down lo heap' pos' /\ length heap' <= 2 * pos' + 1 /\
  pos' < length heap' /\ descends lo pos'.
Proof using lt_asym.
  induction fuel as [|fuel IH];
    intros heap lo pos heap' pos' Hfuel Hpos Hdesc [Ha Hb];
    cbn [heapq._siftup_loop]; pose proof (descends_le _ _ Hdesc) as Hlo.
  - intros [= <- <-]. split; [split; assumption|]. split; [lia|]. split; assumption.
  - destruct (2 * pos + 1 <? length heap)%nat eqn:Hs.
    2:{ apply Nat.ltb_ge in Hs. intros [= <- <-].
        split; [split; assumption|]. split; [lia|]. split; assumption. }
    apply Nat.ltb_lt in Hs.
    destruct (heap !! (2 * pos + 1)) as [cl|] eqn:Hcl.
    2:{ apply lookup_ge_None in Hcl. lia. }
    set (c := match heap !! (2 * pos + 1 + 1) with
              | Some r =>
                  if (2 * pos + 1 + 1 <? length heap)%nat && negb (lt cl r)
                  then 2 * pos + 1 + 1 else 2 * pos + 1
              | None => 2 * pos + 1
              end).
    assert (Hsib : forall s y x, heap !! c = Some x -> heap !! s = Some y ->
                     s = 2 * pos + 1 \/ s = 2 * pos + 2 -> lt y x = false).
    { intros s y x Hx Hy Hs'. subst c.
      destruct (heap !! (2 * pos + 1 + 1)) as [r|] eqn:Hr.
      - assert (Hrl : (2 * pos + 1 + 1 <? length heap)%nat = true).
        { apply Nat.ltb_lt. eapply lookup_lt_Some. exact Hr. }
        rewrite Hrl in Hx. cbn [andb] in Hx.
        replace (2 * pos + 2) with (2 * pos + 1 + 1) in Hs' by lia.
        destruct (lt cl r) eqn:Hlr; cbn [negb] in Hx.
        + assert (x = cl) by congruence. subst x.
          destruct Hs' as [-> | ->].
          * assert (y = cl) by congruence. subst y. apply lt_irrefl.
          * assert (y = r) by congruence. subst y. apply lt_asym. exact Hlr.
        + assert (x = r) by congruence. subst x.
          destruct Hs' as [-> | ->].
          * assert (y = cl) by congruence. subst y. exact Hlr.
          * assert (y = r) by congruence. subst y. apply lt_irrefl.
      - assert (x = cl) by congruence. subst x.
        destruct Hs' as [-> | ->].
        + assert (y = cl) by congruence. subst y. apply lt_irrefl.
        + replace (2 * pos + 2) with (2 * pos + 1 + 1) in Hy by lia. congruence. }
    assert (Hc : (c = 2 * pos + 1 \/ c = 2 * pos + 2) /\ c < length heap).
    { subst c. destruct (heap !! (2 * pos + 1 + 1)) as [r|] eqn:Hr.
      - apply lookup_lt_Some in Hr. destruct (_ && _); lia.
      - lia. }
    clearbody c. destruct Hc as [Hc Hcl'].
    destruct (heap !! c) as [x|] eqn:Hx.
    2:{ apply lookup_ge_None in Hx. lia. }
    intros Hloop.
    replace (length heap) with (length (<[pos := x]> heap)) in Hloop
      by apply length_insert.
    assert (Hdc : descends lo c).
    { parent_facts c. apply descends_child; [lia|].
      replace ((c - 1) / 2) with pos by lia. exact Hdesc. }
    apply (IH _ lo) in Hloop; [exact Hloop | rewrite length_insert; lia
                              | rewrite length_insert; lia | exact Hdc |].
    split.
    + intros i y p Hi Hl Hpi Hy Hp. parent_facts i.
      destruct (Nat.eq_dec ((i - 1) / 2) pos) as [E|E].
      * rewrite E in Hp. lookup_insert_in Hp. injection Hp as <-.
        lookup_insert_in Hy. apply (Hsib i y x eq_refl Hy). lia.
      * lookup_insert_in Hp.
        destruct (Nat.eq_dec i pos) as [->|Hip].
        -- lookup_insert_in Hy. injection Hy as <-.
           parent_facts c.
           apply (Hb c x p); [lia | exact Hl | lia | lia | exact Hx | exact Hp].
        -- lookup_insert_in Hy. exact (Ha i y p Hi Hl E Hy Hp).
    + intros i y g Hcp Hl Hi Hpi Hy Hg. parent_facts i. parent_facts c.
      replace ((c - 1) / 2) with pos in Hg by lia.
      lookup_insert_in Hg. injection Hg as <-.
      lookup_insert_in Hy.
      apply (Ha i y x Hi); [lia | lia | exact Hy | rewrite Hpi; exact Hx].
Qed.

(** [_siftup] at [pos] makes the subtree at [pos] a heap, when the
    subtrees after [pos] are heaps. *)
Lemma _siftup_ordered_from (heap : list A) (pos : nat) :
  ordered_from (pos + 1) heap -> ordered_from pos (heapq._siftup lt heap pos).
Proof using lt_asym le_trans.
  intros Hd. unfold heapq._siftup.
  destruct (heap !! pos) as [newitem|] eqn:Hn.
  2:{ apply lookup_ge_None in Hn. intros i c p Hi Hl Hc Hp.
      apply lookup_lt_Some in Hp. parent_facts i.
      apply (Hd i c p Hi); [lia | exact Hc |].
      destruct (heap !! ((i - 1) / 2)) eqn:E; [|apply lookup_ge_None in E; lia].
      exfalso. lia. }
  destruct (heapq._siftup_loop lt (length heap) heap (length heap) pos (2 * pos + 1))
    as [heap' pos'] eqn:E.
  apply (_siftup_loop_ordered _ heap pos pos) in E;
    [| lia | eapply lookup_lt_Some; exact Hn | constructor |].
  2:{ split.
      - intros i c p Hi Hl Hne. apply (Hd i c p Hi). lia.
      - intros i c g Hpos Hl. parent_facts pos. lia. }
  destruct E as ([Ha Hb] & Hleaf & Hpos' & Hdesc).
  apply _siftdown_ordered_from; [exact Hdesc|]. split.
  - intros i c p Hi Hl Hne Hc Hp. parent_facts i.
    assert (i < length heap').
    { apply lookup_lt_Some in Hc. rewrite length_insert in Hc. exact Hc. }
    lookup_insert_in Hc. lookup_insert_in Hp.
    apply (Ha i c p Hi Hl); [lia | exact Hc | exact Hp].
  - intros i c g _ _ Hi Hpi Hc _. parent_facts i.
    apply lookup_lt_Some in Hc. rewrite length_insert in Hc. lia.
Qed.

Lemma _siftup_ordered (heap : list A) :
  ordered_from 1 heap -> heap_ordered (heapq._siftup lt heap 0).
Proof using lt_asym le_trans.
  intros Hd. apply ordered_from_root, _siftup_ordered_from. exact Hd.
Qed.

(** [heapify] makes a heap of any list. *)
Lemma heapify_ordered (x : list A) : heap_ordered (heapq.heapify lt x).
Proof using lt_asym le_trans.
  unfold heapq.heapify.
  assert (Hgen : forall k h, length h = length x -> ordered_from k h ->
                   ordered_from 0 (fold_left (heapq._siftup lt) (rev (seq 0 k)) h)).
  { induction k as [|k IH]; intros h Hlen Hh; [exact Hh|].
    rewrite seq_S, rev_app_distr. cbn [rev app fold_left Nat.add].
    apply IH.
    - rewrite <- Hlen. apply Permutation_length, _siftup_perm.
    - apply _siftup_ordered_from. replace (k + 1) with (S k) by lia. exact Hh. }
  apply ordered_from_root, Hgen; [reflexivity|].
  intros i c p Hi Hl Hc _. apply lookup_lt_Some in Hc. parent_facts i.
  pose proof (Nat.div_mod_eq (length x) 2).
  pose proof (Nat.mod_upper_bound (length x) 2 ltac:(lia)). lia.
Qed.

Lemma heap_ordered_snoc (heap : list A) (x : A) :
  heap_ordered (heap ++ [x]) -> heap_ordered heap.
Proof.
  intros Hh i c p Hi Hc Hp. apply (Hh i c p Hi).
  - rewrite lookup_app_l; [exact Hc | eapply lookup_lt_Some; exact Hc].
  - rewrite lookup_app_l; [exact Hp | eapply lookup_lt_Some; exact Hp].
Qed.

(** The root of an ordered heap is a least item. *)
Lemma root_minimal (heap : list A) (r : A) :
  heap_ordered heap -> heap !! 0 = Some r ->
  forall i x, heap !! i = Some x -> lt x r = false.
Proof using lt_asym le_trans.
  intros Hh Hr i. induction i as [i IH] using lt_wf_ind. intros x Hx.
  destruct (Nat.eq_dec i 0) as [->|Hi].
  - assert (x = r) by congruence. subst x. apply lt_irrefl.
  - parent_facts i.
    destruct (heap !! ((i - 1) / 2)) as [p|] eqn:Hp.
    2:{ apply lookup_ge_None in Hp. apply lookup_lt_Some in Hx. lia. }
    apply (le_trans r p x).
    + apply (IH ((i - 1) / 2)); [lia | exact Hp].
    + apply (Hh i x p); [lia | exact Hx | exact Hp].
Qed.

Lemma heappop_ordered (heap : list A) (e : A) (rest : list A) :
  heap_ordered heap -> heapq.heappop lt heap = Some (e, rest) ->
  heap_ordered rest /\ Forall (fun x => lt x e = false) rest.
Proof using lt_asym le_trans.
  intros Hh Hpop.
  assert (Hmin : Forall (fun x => lt x e = false) rest).
  { assert (He : heap !! 0 = Some e).
    { revert Hpop. unfold heapq.heappop.
      destruct (last heap) as [lastelt|] eqn:E; [|discriminate].
      apply last_Some in E. destruct E as [l' ->]. rewrite removelast_last.
      destruct l' as [|returnitem t]; intros [= <- _]; reflexivity. }
    pose proof (heappop_perm lt heap e rest Hpop) as Hperm.
    assert (Hall : Forall (fun x => lt x e = false) heap).
    { apply Forall_lookup. intros i x Hx. exact (root_minimal heap e Hh He i x Hx). }
    rewrite <- Hperm in Hall. inversion Hall. assumption. }
  split; [|exact Hmin].
  revert Hpop. unfold heapq.heappop.
  destruct (last heap) as [lastelt|] eqn:E; [|discriminate].
  apply last_Some in E. destruct E as [l' ->]. rewrite removelast_last.
  apply heap_ordered_snoc in Hh.
  destruct l' as [|returnitem t]; intros [= _ <-].
  - intros i c p _ Hc. discriminate.
  - apply _siftup_ordered.
    intros i c p Hi Hl Hc Hp. apply (Hh i c p Hi).
    + destruct i; [lia | exact Hc].
    + destruct ((i - 1) / 2); [lia | exact Hp].
Qed.

(** Popping [n] times. *)
Fixpoint pop_n (n : nat) (heap : list A) : list A :=
  match n with
  | O => []
  | S n =>
      match heapq.heappop lt heap with
      | Some (e, rest) => e :: pop_n n rest
      | None => []
      end
  end.

(** Successive pops empty an ordered heap in non-decreasing order. *)
Lemma pop_n_sorted (n : nat) :
  forall heap, heap_ordered heap -> length heap = n ->
  Permutation (pop_n n heap) heap /\
  StronglySorted (fun a b => lt b a = false) (pop_n n heap).
Proof using lt_asym le_trans.
  induction n as [|n IH]; intros heap Hh Hlen; cbn [pop_n].
  - destruct heap; [|discriminate]. split; [reflexivity | constructor].
  - destruct (heapq.heappop lt heap) as [[e rest]|] eqn:E.
    2:{ apply heappop_None in E. subst heap. discriminate. }
    pose proof (heappop_perm lt heap e rest E) as Hperm.
    destruct (heappop_ordered heap e rest Hh E) as [Hrest Hmin].
    assert (Hl : length rest = n).
    { apply Permutation_length in Hperm. simpl in Hperm. lia. }
    destruct (IH rest Hrest Hl) as [Hp Hs].
    split.
    + rewrite <- Hperm. apply perm_skip. exact Hp.
    + constructor; [exact Hs|]. rewrite Hp. exact Hmin.
Qed.

End heapq_order.

(** ** The order of the fringe entries *)

Lemma Ascii_compare_refl (a : ascii) : Ascii.compare a a = Eq.
Proof. unfold Ascii.compare. apply N.compare_refl. Qed.

Lemma Ascii_compare_lt_trans (a b c : ascii) :
  Ascii.compare a b = Lt -> Ascii.compare b c = Lt -> Ascii.compare a c = Lt.
Proof.
  unfold Ascii.compare. rewrite !N.compare_lt_iff. apply N.lt_trans.
Qed.

Lemma String_compare_refl (s : string) : String.compare s s = Eq.
Proof.
  induction s as [|x s IH]; simpl; [reflexivity|].
  rewrite Ascii_compare_refl. exact IH.
Qed.

Lemma String_compare_lt_trans (a : string) :
  forall b c, String.compare a b = Lt -> String.compare b c = Lt ->
              String.compare a c = Lt.
Proof.
  induction a as [|x a IH]; intros [|y b] [|z c]; simpl; try congruence.
  destruct (Ascii.compare x y) eqn:Exy, (Ascii.compare y z) eqn:Eyz;
    intros H1 H2; try discriminate.
  - apply Ascii.compare_eq_iff in Exy, Eyz. subst.
    rewrite Ascii_compare_refl. eapply IH; eassumption.
  - apply Ascii.compare_eq_iff in Exy. subst. rewrite Eyz. reflexivity.
  - apply Ascii.compare_eq_iff in Eyz. subst. rewrite Exy. reflexivity.
  - rewrite (Ascii_compare_lt_trans _ _ _ Exy Eyz). reflexivity.
Qed.

Lemma String_leb_trans (a b c : string) :
  String.leb a b = true -> String.leb b c = true -> String.leb a c = true.
Proof.
  unfold String.leb.
  destruct (String.compare a b) eqn:Eab; try discriminate;
    destruct (String.compare b c) eqn:Ebc; try discriminate; intros _ _.
  - apply String.compare_eq_iff in Eab, Ebc. subst. rewrite String_compare_refl.
    reflexivity.
  - apply String.compare_eq_iff in Eab. subst. rewrite Ebc. reflexivity.
  - apply String.compare_eq_iff in Ebc. subst. rewrite Eab. reflexivity.
  - rewrite (String_compare_lt_trans _ _ _ Eab Ebc). reflexivity.
Qed.

(** [a] may stand before [b]: its key is smaller, or the keys are equal
    and its location is not greater. *)
Definition entry_le (a b : Q * Node.t) : Prop :=
  (fst a < fst b)%Q \/
  ((fst a == fst b)%Q /\ String.leb (Node.loc (snd a)) (Node.loc (snd b)) = true).

Lemma entry_lt_false_iff (a b : Q * Node.t) :
  Frontier.entry_lt b a = false <-> entry_le a b.
Proof.
  unfold Frontier.entry_lt, entry_le, Node.eq, Node.lt, String.ltb, String.leb.
  destruct a as [ka na], b as [kb nb]. simpl.
  destruct (Qeq_bool kb ka) eqn:Ek.
  - apply Qeq_bool_iff in Ek.
    rewrite (String.compare_antisym (Node.loc na) (Node.loc nb)).
    destruct (String.eqb_spec (Node.loc nb) (Node.loc na)) as [El|El].
    + rewrite El, String_compare_refl. simpl. split; [|reflexivity].
      intros _. right. split; [symmetry; exact Ek | reflexivity].
    + destruct (String.compare (Node.loc nb) (Node.loc na)) eqn:Ec; simpl.
      * apply String.compare_eq_iff in Ec. contradiction.
      * split; [discriminate|]. intros [Hlt | [_ Hle]]; [|discriminate].
        rewrite Ek in Hlt. exfalso. exact (Qlt_irrefl _ Hlt).
      * split; [|reflexivity]. intros _. right.
        split; [symmetry; exact Ek | reflexivity].
  - apply Qeq_bool_neq in Ek. split.
    + intros Hlt. left.
      destruct (Qlt_le_dec ka kb) as [H|H]; [exact H|].
      apply Qle_lteq in H. destruct H as [H|H]; [|contradiction].
      apply Qlt_bool_iff in H. congruence.
    + intros [Hlt | [Heq _]].
      * destruct (Qlt_bool kb ka) eqn:E; [|reflexivity].
        apply Qlt_bool_iff in E. exfalso.
        exact (Qlt_irrefl _ (Qlt_trans _ _ _ Hlt E)).
      * exfalso. apply Ek. symmetry. exact Heq.
Qed.

Lemma entry_le_trans (a b c : Q * Node.t) :
  entry_le a b -> entry_le b c -> entry_le a c.
Proof.
  unfold entry_le. intros [H1 | [E1 L1]] [H2 | [E2 L2]].
  - left. eapply Qlt_trans; eassumption.
  - left. rewrite <- E2. exact H1.
  - left. rewrite E1. exact H2.
  - right. split; [rewrite E1; exact E2 | eapply String_leb_trans; eassumption].
Qed.

Lemma entry_le_total (a b : Q * Node.t) : entry_le a b \/ entry_le b a.
Proof.
  unfold entry_le.
  destruct (Q_dec (fst a) (fst b)) as [[H|H]|H].
  - left. left. exact H.
  - right. left. exact H.
  - destruct (String.leb_total (Node.loc (snd a)) (Node.loc (snd b))) as [L|L].
    + left. right. split; assumption.
    + right. right. split; [symmetry; exact H | exact L].
Qed.

Lemma entry_lt_asym (a b : Q * Node.t) :
  Frontier.entry_lt a b = true -> Frontier.entry_lt b a = false.
Proof.
  intros Hlt. apply entry_lt_false_iff.
  destruct (entry_le_total a b) as [H|H]; [exact H|].
  apply entry_lt_false_iff in H. congruence.
Qed.

Lemma entry_lt_le_trans (a b c : Q * Node.t) :
  Frontier.entry_lt b a = false -> Frontier.entry_lt c b = false ->
  Frontier.entry_lt c a = false.
Proof.
  rewrite !entry_lt_false_iff. apply entry_le_trans.
Qed.

(** ** The pop order of a frontier *)

(** The invariant of the class: the fringe is an ordered heap, and every
    entry is keyed by the value of its node in the frontier's metric. *)
Definition Frontier_wf (F : Frontier.t) : Prop :=
  heap_ordered Frontier.entry_lt (Frontier.fringe F) /\
  Forall (fun e => fst e = Node.value (snd e) (Frontier.sort_by F)) (Frontier.fringe F).

(** [frontier.add(n)] for each node of a list, in order *)
Definition push_each (nodes : list Node.t) : M Frontier.t unit :=
  for_each nodes (fun _ n => Frontier.add (One n)) tt.

(** [while not frontier.is_empty(): popped.append(frontier.pop())] *)
Fixpoint pop_all_loop (fuel : nat) : M Frontier.t (list Node.t) :=
  match fuel with
  | O => ret []
  | S fuel =>
      fun self =>
        if Frontier.is_empty self then Return [] self
        else (n <- Frontier.pop ;; ns <- pop_all_loop fuel ;; ret (n :: ns)) self
  end.

Definition pop_all : M Frontier.t (list Node.t) :=
  fun self => pop_all_loop (Frontier.len self) self.

(** [n1] may be popped before [n2]: its key is smaller, or the keys are
    equal and its location is not greater. *)
Definition pops_before (sort_by : sort_key) (n1 n2 : Node.t) : Prop :=
  (Node.value n1 sort_by < Node.value n2 sort_by)%Q \/
  ((Node.value n1 sort_by == Node.value n2 sort_by)%Q /\
   String.leb (Node.loc n1) (Node.loc n2) = true).

Lemma Frontier_init_wf (root_node : Node.t) (sort_by : sort_key) :
  Frontier_wf (Frontier.init root_node sort_by).
Proof.
  split; simpl.
  - intros i c p Hi Hc. destruct i; [lia | discriminate].
  - repeat constructor.
Qed.

Lemma Frontier_add_One (n : Node.t) (F : Frontier.t) :
  exists F', Frontier.add (One n) F = Return tt F' /\
    Frontier.sort_by F' = Frontier.sort_by F /\
    Permutation (Frontier.fringe F')
      ((Node.value n (Frontier.sort_by F), n) :: Frontier.fringe F) /\
    (Frontier_wf F -> Frontier_wf F').
Proof.
  eexists. split; [reflexivity|]. simpl. split; [reflexivity|]. split.
  - apply heappush_perm.
  - intros [Hh Hk]. split; simpl.
    + apply heappush_ordered;
        [exact entry_lt_asym | exact entry_lt_le_trans | exact Hh].
    + rewrite heappush_perm. constructor; [reflexivity | exact Hk].
Qed.

Lemma push_each_spec (nodes : list Node.t) :
  forall F, exists F', push_each nodes F = Return tt F' /\
    Frontier.sort_by F' = Frontier.sort_by F /\
    Permutation (map snd (Frontier.fringe F')) (map snd (Frontier.fringe F) ++ nodes) /\
    (Frontier_wf F -> Frontier_wf F').
Proof.
  unfold push_each.
  induction nodes as [|n nodes IH]; intros F; simpl.
  - exists F. rewrite app_nil_r.
    split; [reflexivity|]. split; [reflexivity|]. split; [reflexivity | tauto].
  - destruct (Frontier_add_One n F) as (F1 & E1 & S1 & P1 & W1).
    unfold bind. rewrite E1.
    destruct (IH F1) as (F' & E' & S' & P' & W').
    exists F'. split; [exact E'|]. split; [congruence|]. split; [|tauto].
    rewrite P', P1. simpl. apply Permutation_middle.
Qed.

Lemma Frontier_add_Many (nodes : list Node.t) (F : Frontier.t) :
  Frontier.add (Many nodes) F = push_each nodes F.
Proof.
  unfold push_each. revert F.
  induction nodes as [|n nodes IH]; intros [sb fr]; simpl; [reflexivity|].
  unfold bind. simpl. rewrite <- IH. reflexivity.
Qed.

Lemma Frontier_pop_spec (F : Frontier.t) :
  Frontier.fringe F <> [] ->
  exists e rest,
    Frontier.pop F = Return (snd e) (Frontier.mk (Frontier.sort_by F) rest) /\
    heapq.heappop Frontier.entry_lt (Frontier.fringe F) = Some (e, rest) /\
    Permutation (e :: rest) (Frontier.fringe F).
Proof.
  intros Hne. unfold Frontier.pop.
  destruct (heapq.heappop Frontier.entry_lt (Frontier.fringe F)) as [[e rest]|] eqn:E.
  - exists e, rest. split; [reflexivity|]. split; [reflexivity|].
    eapply heappop_perm. exact E.
  - apply heappop_None in E. contradiction.
Qed.

Lemma Frontier_pop_wf (F : Frontier.t) (n : Node.t) (F' : Frontier.t) :
  Frontier_wf F -> Frontier.pop F = Return n F' -> Frontier_wf F'.
Proof.
  intros [Hh Hk]. unfold Frontier.pop.
  destruct (heapq.heappop Frontier.entry_lt (Frontier.fringe F)) as [[e rest]|] eqn:E;
    [|discriminate].
  intros [= _ <-]. split; simpl.
  - eapply heappop_ordered;
      [exact entry_lt_asym | exact entry_lt_le_trans | exact Hh | exact E].
  - apply heappop_perm in E. rewrite <- E in Hk. inversion Hk. assumption.
Qed.

Lemma Frontier_delitem_wf (F : Frontier.t) (query : Node.t) (F' : Frontier.t) :
  Frontier_wf F -> Frontier.delitem query F = Return tt F' -> Frontier_wf F'.
Proof.
  intros [_ Hk]. unfold Frontier.delitem.
  destruct (Frontier.index_of query (Frontier.fringe F)) as [i|]; [|discriminate].
  intros [= <-]. split; simpl.
  - apply heapify_ordered; [exact entry_lt_asym | exact entry_lt_le_trans].
  - rewrite heapify_perm. apply Forall_delete. exact Hk.
Qed.

Lemma pop_all_loop_pop_n (fuel : nat) :
  forall F, length (Frontier.fringe F) = fuel ->
  pop_all_loop fuel F =
  Return (map snd (pop_n Frontier.entry_lt fuel (Frontier.fringe F)))
         (Frontier.mk (Frontier.sort_by F) []).
Proof.
  induction fuel as [|fuel IH]; intros [sb fr] Hlen; simpl in *.
  - destruct fr; [reflexivity | discriminate].
  - unfold Frontier.is_empty. simpl. rewrite Hlen. simpl.
    unfold bind, Frontier.pop. simpl.
    destruct (heapq.heappop Frontier.entry_lt fr) as [[e rest]|] eqn:E.
    2:{ apply heappop_None in E. subst fr. discriminate. }
    assert (Hl : length rest = fuel).
    { apply heappop_perm, Permutation_length in E. simpl in E. lia. }
    rewrite (IH (Frontier.mk sb rest) Hl). reflexivity.
Qed.

Lemma sorted_entries_nodes (sort_by : sort_key) (entries : list (Q * Node.t)) :
  Forall (fun e => fst e = Node.value (snd e) sort_by) entries ->
  StronglySorted (fun a b => Frontier.entry_lt b a = false) entries ->
  StronglySorted (pops_before sort_by) (map snd entries).
Proof.
  intros Hk Hs. induction Hs as [|a l Hs IH Ha]; simpl; [constructor|].
  inversion Hk as [|? ? Hka Hkl]; subst.
  constructor; [apply IH; exact Hkl|].
  apply Forall_map. rewrite Forall_forall in Ha, Hkl |- *.
  intros b Hb. specialize (Ha b Hb). apply entry_lt_false_iff in Ha.
  unfold entry_le in Ha. rewrite Hka, (Hkl b Hb) in Ha. exact Ha.
Qed.

(** C7. For every frontier (the fringe an ordered heap keyed by the
    frontier's metric, as [__init__], [add], [pop] and [del] keep it) and every
    sequence of pushes followed by pops until the frontier is empty: the
    pops succeed, return exactly the nodes that were in the frontier or
    pushed, and every node is popped before all nodes with a larger key
    and, among nodes with an equal key, before all nodes with a greater
    location: keys are non-decreasing and ties go to the smallest
    location. *)
Theorem frontier_pop_order (F : Frontier.t) (nodes : list Node.t) :
  Frontier_wf F ->
  exists popped F',
    (_ <- push_each nodes ;; pop_all) F = Return popped F' /\
    Frontier.is_empty F' = true /\
    Permutation popped (map snd (Frontier.fringe F) ++ nodes) /\
    StronglySorted (pops_before (Frontier.sort_by F)) popped.
Proof.
  intros Hwf.
  destruct (push_each_spec nodes F) as (F1 & E1 & S1 & P1 & W1).
  destruct (W1 Hwf) as [Hh Hk].
  unfold bind. rewrite E1. unfold pop_all, Frontier.len.
  rewrite (pop_all_loop_pop_n _ F1 eq_refl).
  destruct (pop_n_sorted Frontier.entry_lt entry_lt_asym entry_lt_le_trans
              _ (Frontier.fringe F1) Hh eq_refl) as [Hp Hs].
  eexists _, _. split; [reflexivity|]. split; [reflexivity|]. split.
  - rewrite Hp. exact P1.
  - rewrite <- S1. apply sorted_entries_nodes; [|exact Hs].
    rewrite Hp. exact Hk.
Qed.

Lemma frontier_pop_order_witness :
  exists popped F',
    (_ <- push_each [node_b 5; node_a 5; node_a 2] ;; pop_all)
      (Frontier.init node_s (Metric "g")) = Return popped F' /\
    Frontier.is_empty F' = true /\
    Permutation popped
      (map snd (Frontier.fringe (Frontier.init node_s (Metric "g")))
       ++ [node_b 5; node_a 5; node_a 2]) /\
    StronglySorted (pops_before (Metric "g")) popped.
Proof.
  exact (frontier_pop_order (Frontier.init node_s (Metric "g"))
           [node_b 5; node_a 5; node_a 2]
           (Frontier_init_wf node_s (Metric "g"))).
Defined.

(** ** Constructing a HeuristicFunction *)

Lemma for_each_raises_at {S A B} (body : B -> A -> M S B) (s : S) (x : A) :
  (forall acc y a s', body acc y s = Return a s' -> s' = s) ->
  (forall acc y, body acc y s <> OutOfFuel) ->
  (forall acc, raises (body acc x s)) ->
  forall xs acc, In x xs -> raises (for_each xs body acc s).
Proof.
  intros Hsame Hfin Hx xs. induction xs as [|y xs IH]; intros acc Hin; simpl in *.
  - contradiction.
  - unfold bind. destruct (body acc y s) as [a s'|e s'|] eqn:E.
    + destruct Hin as [->|Hin].
      * destruct (Hx acc) as (e & s1 & He). congruence.
      * rewrite (Hsame _ _ _ _ E). apply IH. exact Hin.
    + exists e, s'. reflexivity.
    + exfalso. exact (Hfin _ _ E).
Qed.

(** A location has usable coordinates: it is on the map and neither
    coordinate is zero. *)
Definition coords_ok (m : RoadMap.t) (loc : string) : Prop :=
  exists x y, Dict.get (RoadMap.loc_dict m) loc = Some (x, y) /\
              truthy x = true /\ truthy y = true.

(** The coordinates stored for a location ((0, 0) when there are none). *)
Definition coords (m : RoadMap.t) (loc : string) : Q * Q :=
  get_or (RoadMap.loc_dict m) loc (0, 0)%Q.

(** The distance [euclidean_distance] computes from the stored coordinates. *)
Definition distance `{builtins} (m : RoadMap.t) (loc0 loc1 : string) : Q :=
  let '(x0, y0) := coords m loc0 in
  let '(x1, y1) := coords m loc1 in
  math_sqrt (((x0 - x1) * (x0 - x1)) + ((y0 - y1) * (y0 - y1)))%Q.

Lemma location_coordinates_ok (m : RoadMap.t) (loc : string) :
  coords_ok m loc ->
  RoadMap.location_coordinates loc m = Return (coords m loc) m.
Proof.
  intros (x & y & Hg & Hx & Hy). rewrite location_coordinates_spec.
  unfold coords, get_or. cbv zeta. rewrite Hg. simpl. rewrite Hx, Hy. simpl.
  rewrite setdefault_present by congruence. destruct m; reflexivity.
Qed.

Lemma location_coordinates_returns (m m' : RoadMap.t) (loc : string) (p : Q * Q) :
  RoadMap.location_coordinates loc m = Return p m' -> coords_ok m loc /\ m' = m.
Proof.
  rewrite location_coordinates_spec. cbv zeta. unfold get_or.
  destruct (Dict.get (RoadMap.loc_dict m) loc) as [[x y]|] eqn:Hg; simpl.
  - destruct (truthy x) eqn:Hx, (truthy y) eqn:Hy; simpl; try discriminate.
    intros [= _ <-]. split; [exists x, y; auto|].
    rewrite setdefault_present by congruence. destruct m; reflexivity.
  - discriminate.
Qed.

Lemma location_coordinates_not_ok (m : RoadMap.t) (loc : string) :
  ~ coords_ok m loc -> raises (RoadMap.location_coordinates loc m).
Proof.
  intros Hn. destruct (RoadMap.location_coordinates loc m) as [p m'|e m'|] eqn:E.
  - apply location_coordinates_returns in E. tauto.
  - exists e, m'. reflexivity.
  - rewrite location_coordinates_spec in E. cbv zeta in E.
    destruct (_ && _); discriminate.
Qed.

Section heuristic_facts.
Context `{builtins}.

Lemma euclidean_distance_ok (m : RoadMap.t) (loc0 loc1 : string) :
  coords_ok m loc0 -> coords_ok m loc1 ->
  RoadMap.euclidean_distance loc0 loc1 m = Return (distance m loc0 loc1) m.
Proof.
  intros H0 H1. unfold RoadMap.euclidean_distance, bind.
  rewrite (location_coordinates_ok _ _ H0), (location_coordinates_ok _ _ H1).
  unfold distance. destruct (coords m loc0), (coords m loc1). reflexivity.
Qed.

Lemma euclidean_distance_returns (m m' : RoadMap.t) (loc0 loc1 : string) (d : Q) :
  RoadMap.euclidean_distance loc0 loc1 m = Return d m' ->
  coords_ok m loc0 /\ coords_ok m loc1 /\ m' = m /\ d = distance m loc0 loc1.
Proof.
  intros Hr.
  assert (Hok : coords_ok m loc0 /\ coords_ok m loc1).
  { revert Hr. unfold RoadMap.euclidean_distance, bind.
    destruct (RoadMap.location_coordinates loc0 m) as [p0 m0|e m0|] eqn:E0;
      try discriminate.
    apply location_coordinates_returns in E0 as [H0 ->].
    destruct (RoadMap.location_coordinates loc1 m) as [p1 m1|e m1|] eqn:E1;
      try discriminate.
    apply location_coordinates_returns in E1 as [H1 ->]. auto. }
  destruct Hok as [H0 H1].
  rewrite (euclidean_distance_ok _ _ _ H0 H1) in Hr. injection Hr as <- <-. auto.
Qed.

Lemma euclidean_distance_finishes (m : RoadMap.t) (loc0 loc1 : string) :
  RoadMap.euclidean_distance loc0 loc1 m <> OutOfFuel.
Proof.
  unfold RoadMap.euclidean_distance, bind.
  rewrite (location_coordinates_spec loc0). cbv zeta.
  destruct (_ && _); [|discriminate].
  rewrite (location_coordinates_spec loc1). cbv zeta.
  destruct (_ && _); [|discriminate].
  destruct (get_or _ loc0 _), (get_or _ loc1 _). discriminate.
Qed.

End heuristic_facts.

(** [max] returns a greatest element of the list. *)
Lemma py_max_fold (rest : list Q) :
  forall x, let m := fold_left (fun m y => if Qlt_bool m y then y else m) rest x in
            In m (x :: rest) /\ (x <= m)%Q /\ Forall (fun y => (y <= m)%Q) rest.
Proof.
  induction rest as [|y rest IH]; intros x; simpl.
  - split; [left; reflexivity|]. split; [apply Qle_refl | constructor].
  - destruct (IH (if Qlt_bool x y then y else x)) as (Hin & Hle & Hall).
    assert (Hxy : (x <= (if Qlt_bool x y then y else x))%Q /\
                  (y <= (if Qlt_bool x y then y else x))%Q).
    { destruct (Qlt_bool x y) eqn:E.
      - apply Qlt_bool_iff in E. split; [apply Qlt_le_weak; exact E | apply Qle_refl].
      - split; [apply Qle_refl|]. unfold Qlt_bool in E.
        apply negb_false_iff, Qle_bool_iff in E. exact E. }
    split; [|split].
    + destruct Hin as [Hin|Hin]; [|right; right; exact Hin].
      destruct (Qlt_bool x y); [right; left | left]; exact Hin.
    + eapply Qle_trans; [apply Hxy | exact Hle].
    + constructor; [eapply Qle_trans; [apply Hxy | exact Hle] | exact Hall].
Qed.

Lemma py_max_spec (xs : list Q) (m : Q) :
  HeuristicFunction.py_max xs = Some m ->
  In m xs /\ Forall (fun y => (y <= m)%Q) xs.
Proof.
  destruct xs as [|x rest]; simpl; [discriminate|]. intros [= <-].
  destruct (py_max_fold rest x) as (Hin & Hle & Hall).
  split; [exact Hin | constructor; assumption].
Qed.

(** [if gas not in gasConsumption: gasConsumption.append(gas)] *)
Definition gas_step (gasConsumption : list Q) (gas : Q) : list Q :=
  if negb (existsb (Qeq_bool gas) gasConsumption)
  then gasConsumption ++ [gas] else gasConsumption.

Lemma gas_steps_spec (gs : list Q) :
  forall acc,
  (forall x, In x (fold_left gas_step gs acc) -> In x acc \/ In x gs) /\
  (forall x, In x acc \/ In x gs ->
             exists y, In y (fold_left gas_step gs acc) /\ (y == x)%Q).
Proof.
  induction gs as [|g gs IH]; intros acc; simpl.
  - split; [auto|]. intros x [Hx | [] ]. exists x. split; [exact Hx | reflexivity].
  - destruct (IH (gas_step acc g)) as [H1 H2].
    assert (Hstep : (forall x, In x (gas_step acc g) -> In x acc \/ x = g) /\
                    (forall x, In x acc -> In x (gas_step acc g)) /\
                    exists y, In y (gas_step acc g) /\ (y == g)%Q).
    { unfold gas_step. destruct (existsb (Qeq_bool g) acc) eqn:E; simpl.
      - split; [auto|]. split; [auto|].
        apply List.existsb_exists in E. destruct E as (y & Hy & E).
        apply Qeq_bool_iff in E. exists y. split; [exact Hy | symmetry; exact E].
      - split; [|split].
        + intros x Hx. apply in_app_or in Hx. destruct Hx as [Hx | [Hx | [] ] ]; auto.
        + intros x Hx. apply in_or_app. auto.
        + exists g. split; [apply in_or_app; right; left; reflexivity | reflexivity]. }
    destruct Hstep as (S1 & S2 & y0 & Hy0 & Ey0).
    split.
    + intros x Hx. destruct (H1 x Hx) as [Hx'|Hx']; [|auto].
      destruct (S1 x Hx') as [? | ->]; auto.
    + intros x [Hx | [<- | Hx] ].
      * apply H2. left. apply S2. exact Hx.
      * destruct (H2 y0 (or_introl Hy0)) as (y & Hy & Ey).
        exists y. split; [exact Hy | rewrite Ey; exact Ey0].
      * apply H2. right. exact Hx.
Qed.

Lemma Dict_keys_get {V} (d : Dict.t V) (k : string) :
  In k (Dict.keys d) -> exists v, Dict.get d k = Some v.
Proof.
  induction d as [|[k' v'] d IH]; simpl; [contradiction|].
  intros [->|Hin].
  - rewrite String.eqb_refl. eauto.
  - destruct (String.eqb k' k); [eauto | exact (IH Hin)].
Qed.

Section heuristic_init.
Context `{builtins}.

(** The edges [__init__] scans, in scan order, and the ratio it computes
    for each. *)
Definition scanned_edges (m : RoadMap.t) : list (string * string) :=
  flat_map (fun location =>
              map (pair location)
                (Dict.keys (get_or (RoadMap.connection_dict m) location [])))
    (Dict.keys (RoadMap.loc_dict m)).

Definition ratio (m : RoadMap.t) (e : string * string) : Q :=
  (distance m (fst e) (snd e) / segment_cost m e)%Q.

(** An edge [__init__] can scan: both ends have usable coordinates and the
    cost is not zero. *)
Definition edge_ok (m : RoadMap.t) (e : string * string) : Prop :=
  coords_ok m (fst e) /\ coords_ok m (snd e) /\
  exists c, edge_cost m (fst e) (snd e) = Some c /\ Qeq_bool c 0 = false.

Lemma get_present (m : RoadMap.t) (location : string) (end_ : option string) :
  Dict.get (RoadMap.connection_dict m) location <> None ->
  RoadMap.get location end_ m =
  Return (match end_ with
          | None => Successors (get_or (RoadMap.connection_dict m) location [])
          | Some e => Entry (Dict.get (get_or (RoadMap.connection_dict m) location []) e)
          end) m.
Proof.
  intros Hp. rewrite get_spec, setdefault_present by exact Hp.
  destruct m; reflexivity.
Qed.

Lemma scan_connection_ok (m : RoadMap.t) (location connection : string) (acc : list Q) :
  Dict.get (RoadMap.connection_dict m) location <> None ->
  edge_ok m (location, connection) ->
  HeuristicFunction.scan_connection location acc connection m =
  Return (gas_step acc (ratio m (location, connection))) m.
Proof.
  intros Hp (H0 & H1 & c & Hc & Hz). simpl in *.
  unfold HeuristicFunction.scan_connection, bind.
  rewrite (euclidean_distance_ok _ _ _ H0 H1), (get_present _ _ _ Hp).
  unfold edge_cost in Hc. rewrite Hc.
  unfold HeuristicFunction.py_div. rewrite Hz. unfold ret.
  unfold ratio, segment_cost, edge_cost. simpl. rewrite Hc.
  unfold gas_step. destruct (negb _); reflexivity.
Qed.

Lemma scan_connection_same (m m' : RoadMap.t) (location connection : string)
    (acc acc' : list Q) :
  Dict.get (RoadMap.connection_dict m) location <> None ->
  HeuristicFunction.scan_connection location acc connection m = Return acc' m' ->
  m' = m /\ edge_ok m (location, connection).
Proof.
  intros Hp. unfold HeuristicFunction.scan_connection, bind.
  destruct (RoadMap.euclidean_distance location connection m) as [d m1|e m1|] eqn:E;
    try discriminate.
  apply euclidean_distance_returns in E as (H0 & H1 & -> & ->).
  rewrite (get_present _ _ _ Hp).
  destruct (Dict.get _ connection) as [c|] eqn:Hc; [|discriminate].
  unfold HeuristicFunction.py_div.
  destruct (Qeq_bool c 0) eqn:Hz; [discriminate|]. unfold ret.
  intros Hr. split.
  - destruct (negb _); congruence.
  - split; [exact H0|]. split; [exact H1|]. exists c. split; [exact Hc | exact Hz].
Qed.

Lemma scan_connection_finishes (m : RoadMap.t) (location connection : string)
    (acc : list Q) :
  HeuristicFunction.scan_connection location acc connection m <> OutOfFuel.
Proof.
  unfold HeuristicFunction.scan_connection, bind.
  pose proof (euclidean_distance_finishes m location connection) as Hf.
  destruct (RoadMap.euclidean_distance location connection m) as [d m1|e m1|];
    [|discriminate|contradiction].
  rewrite get_spec. destruct (Dict.get _ connection) as [c|]; [|discriminate].
  unfold HeuristicFunction.py_div. destruct (Qeq_bool c 0); [discriminate|].
  unfold ret. destruct (negb _); discriminate.
Qed.

Lemma scan_connection_not_ok (m : RoadMap.t) (location connection : string)
    (acc : list Q) :
  Dict.get (RoadMap.connection_dict m) location <> None ->
  ~ edge_ok m (location, connection) ->
  raises (HeuristicFunction.scan_connection location acc connection m).
Proof.
  intros Hp Hn.
  destruct (HeuristicFunction.scan_connection location acc connection m)
    as [a m'|e m'|] eqn:E.
  - apply scan_connection_same in E; [tauto | exact Hp].
  - exists e, m'. reflexivity.
  - exfalso. exact (scan_connection_finishes _ _ _ _ E).
Qed.

End heuristic_init.

Lemma for_each_fold {S A B} (body : B -> A -> M S B) (f : B -> A -> B) (s : S)
    (xs : list A) :
  (forall x, In x xs -> forall acc, body acc x s = Return (f acc x) s) ->
  forall acc, for_each xs body acc s = Return (fold_left f xs acc) s.
Proof.
  induction xs as [|x xs IH]; intros Hb acc; simpl; [reflexivity|].
  unfold bind. rewrite (Hb x (or_introl eq_refl)).
  apply IH. intros y Hy. apply Hb. right. exact Hy.
Qed.

Lemma for_each_same {S A B} (body : B -> A -> M S B) (P : A -> Prop) (s : S)
    (xs : list A) :
  (forall acc y a s', body acc y s = Return a s' -> s' = s /\ P y) ->
  forall acc a s', for_each xs body acc s = Return a s' -> s' = s /\ Forall P xs.
Proof.
  intros Hb. induction xs as [|x xs IH]; intros acc a s'; simpl.
  - intros [= _ <-]. split; [reflexivity | constructor].
  - unfold bind. destruct (body acc x s) as [a1 s1|e s1|] eqn:E; try discriminate.
    apply Hb in E as [-> Hx]. intros Hr. apply IH in Hr as [-> Hxs].
    split; [reflexivity | constructor; assumption].
Qed.

Lemma for_each_finishes {S A B} (body : B -> A -> M S B) (xs : list A) :
  (forall acc y s, body acc y s <> OutOfFuel) ->
  forall acc s, for_each xs body acc s <> OutOfFuel.
Proof.
  intros Hb. induction xs as [|x xs IH]; intros acc s; simpl; [discriminate|].
  unfold bind. pose proof (Hb acc x s).
  destruct (body acc x s); [apply IH | discriminate | contradiction].
Qed.

Lemma fold_left_map_fuse {A B C} (f : A -> B -> A) (g : C -> B) (l : list C) :
  forall a, fold_left f (map g l) a = fold_left (fun a x => f a (g x)) l a.
Proof. induction l as [|x l IH]; intros a; simpl; [reflexivity | apply IH]. Qed.

Section heuristic_scan.
Context `{builtins}.

Lemma scan_location_ok (m : RoadMap.t) (location : string) (acc : list Q) :
  Dict.get (RoadMap.connection_dict m) location <> None ->
  Forall (edge_ok m)
    (map (pair location) (Dict.keys (get_or (RoadMap.connection_dict m) location []))) ->
  HeuristicFunction.scan_location acc location m =
  Return (fold_left gas_step
            (map (ratio m)
               (map (pair location)
                  (Dict.keys (get_or (RoadMap.connection_dict m) location []))))
            acc) m.
Proof.
  intros Hp Hok. unfold HeuristicFunction.scan_location, get_or in *.
  destruct (Dict.get (RoadMap.connection_dict m) location) as [inner|] eqn:E;
    [|congruence].
  rewrite map_map, fold_left_map_fuse.
  apply (for_each_fold _ (fun acc c => gas_step acc (ratio m (location, c)))).
  intros c Hc acc'. apply scan_connection_ok; [congruence|].
  rewrite Forall_map, List.Forall_forall in Hok. apply Hok. exact Hc.
Qed.

Lemma scan_location_same (m m' : RoadMap.t) (location : string) (acc acc' : list Q) :
  HeuristicFunction.scan_location acc location m = Return acc' m' ->
  m' = m /\
  (Dict.get (RoadMap.connection_dict m) location <> None /\
   Forall (edge_ok m)
     (map (pair location) (Dict.keys (get_or (RoadMap.connection_dict m) location [])))).
Proof.
  unfold HeuristicFunction.scan_location, get_or.
  destruct (Dict.get (RoadMap.connection_dict m) location) as [inner|] eqn:E;
    [|discriminate].
  intros Hr.
  apply (for_each_same _ (fun c => edge_ok m (location, c))) in Hr.
  - destruct Hr as [-> Hall]. split; [reflexivity|]. split; [congruence|].
    apply Forall_map. exact Hall.
  - intros a y a' s'. apply scan_connection_same. congruence.
Qed.

Lemma scan_location_finishes (acc : list Q) (location : string) (m : RoadMap.t) :
  HeuristicFunction.scan_location acc location m <> OutOfFuel.
Proof.
  unfold HeuristicFunction.scan_location.
  destruct (Dict.get _ location); [|discriminate].
  apply for_each_finishes. intros a y s. apply scan_connection_finishes.
Qed.

Lemma init_finishes (problem : option RouteProblem.t) (m : RoadMap.t) :
  HeuristicFunction.init problem m <> OutOfFuel.
Proof.
  destruct problem as [problem|]; simpl; [|discriminate].
  unfold bind.
  pose proof (for_each_finishes HeuristicFunction.scan_location
                (Dict.keys (RoadMap.loc_dict m)) scan_location_finishes [] m).
  destruct (for_each _ _ _ m); [|discriminate|contradiction].
  destruct (HeuristicFunction.py_max a); discriminate.
Qed.

(** What a successful construction implies. *)
Lemma init_returns (problem : RouteProblem.t) (m m' : RoadMap.t)
    (h : HeuristicFunction.t) :
  HeuristicFunction.init (Some problem) m = Return h m' ->
  m' = m /\
  Forall (fun location => Dict.get (RoadMap.connection_dict m) location <> None)
    (Dict.keys (RoadMap.loc_dict m)) /\
  Forall (edge_ok m) (scanned_edges m).
Proof.
  simpl. unfold bind.
  destruct (for_each _ _ _ m) as [gs m1|e m1|] eqn:E; try discriminate.
  apply (for_each_same _
           (fun location =>
              Dict.get (RoadMap.connection_dict m) location <> None /\
              Forall (edge_ok m)
                (map (pair location)
                   (Dict.keys (get_or (RoadMap.connection_dict m) location [])))))
    in E.
  2:{ intros a y a' s'. apply scan_location_same. }
  destruct E as [-> Hall].
  destruct (HeuristicFunction.py_max gs); [|discriminate].
  intros [= _ <-]. split; [reflexivity|]. split.
  - eapply Forall_impl; [exact Hall|]. simpl. tauto.
  - unfold scanned_edges. rewrite Forall_flat_map.
    eapply Forall_impl; [exact Hall|]. simpl. tauto.
Qed.

(** What a successful construction computes. *)
Lemma init_ok (problem : RouteProblem.t) (m : RoadMap.t) :
  Forall (fun location => Dict.get (RoadMap.connection_dict m) location <> None)
    (Dict.keys (RoadMap.loc_dict m)) ->
  Forall (edge_ok m) (scanned_edges m) ->
  scanned_edges m <> [] ->
  exists h, HeuristicFunction.init (Some problem) m = Return h m /\
    HeuristicFunction.goal h = RouteProblem.goal problem /\
    In (HeuristicFunction.efficientGas h) (map (ratio m) (scanned_edges m)) /\
    Forall (fun r => (r <= HeuristicFunction.efficientGas h)%Q)
      (map (ratio m) (scanned_edges m)).
Proof.
  intros Hconn Hok Hne. simpl. unfold bind.
  assert (Hscan : forall locs acc,
    Forall (fun location => Dict.get (RoadMap.connection_dict m) location <> None) locs ->
    Forall (edge_ok m)
      (flat_map (fun location =>
                   map (pair location)
                     (Dict.keys (get_or (RoadMap.connection_dict m) location []))) locs) ->
    for_each locs HeuristicFunction.scan_location acc m =
    Return (fold_left gas_step
              (map (ratio m)
                 (flat_map (fun location =>
                    map (pair location)
                      (Dict.keys (get_or (RoadMap.connection_dict m) location [])))
                    locs)) acc) m).
  { induction locs as [|location locs IH]; intros acc Hc Ho; simpl; [reflexivity|].
    inversion Hc; subst. simpl in Ho. apply Forall_app in Ho as [Ho1 Ho2].
    unfold bind. rewrite scan_location_ok by assumption.
    rewrite IH by assumption. rewrite map_app, fold_left_app. reflexivity. }
  rewrite (Hscan _ [] Hconn Hok). fold (scanned_edges m).
  set (gs := fold_left gas_step (map (ratio m) (scanned_edges m)) []).
  destruct (gas_steps_spec (map (ratio m) (scanned_edges m)) []) as [G1 G2].
  fold gs in G1, G2.
  destruct (HeuristicFunction.py_max gs) as [mx|] eqn:Emax.
  - apply py_max_spec in Emax as [Hin Hall].
    eexists. split; [reflexivity|]. simpl. split; [reflexivity|]. split.
    + destruct (G1 mx Hin) as [[]|Hr]. exact Hr.
    + apply List.Forall_forall. intros r Hr.
      destruct (G2 r (or_intror Hr)) as (y & Hy & Ey).
      rewrite List.Forall_forall in Hall. rewrite <- Ey. apply Hall. exact Hy.
  - exfalso. destruct gs as [|g gs'] eqn:Egs; [|discriminate].
    destruct (scanned_edges m) as [|e es]; [congruence|].
    destruct (G2 (ratio m e) (or_intror (or_introl eq_refl))) as (y & [] & _).
Qed.

End heuristic_scan.

(** C10 (amended). Constructing a HeuristicFunction raises whenever some
    location of [loc_dict] has no entry in [connection_dict], or some
    scanned edge has cost zero.  It succeeds, leaving the map as it is and
    setting [efficientGas] to the greatest ratio of euclidean distance to
    cost over the scanned edges, when [loc_dict] is not empty, every
    location of [loc_dict] has at least one outgoing edge, every scanned
    edge has a positive cost, and both ends of every scanned edge are on
    the map with no zero coordinate. *)
Theorem HeuristicFunction_init_outcome `{builtins} (problem : RouteProblem.t)
    (m : RoadMap.t) :
  ((exists location, In location (Dict.keys (RoadMap.loc_dict m)) /\
      Dict.get (RoadMap.connection_dict m) location = None) ->
   raises (HeuristicFunction.init (Some problem) m)) /\
  ((exists e c, In e (scanned_edges m) /\
      edge_cost m (fst e) (snd e) = Some c /\ (c == 0)%Q) ->
   raises (HeuristicFunction.init (Some problem) m)) /\
  (RoadMap.loc_dict m <> [] ->
   Forall (fun location =>
             exists inner, Dict.get (RoadMap.connection_dict m) location = Some inner /\
                           inner <> [])
     (Dict.keys (RoadMap.loc_dict m)) ->
   Forall (fun e => (0 < segment_cost m e)%Q /\ coords_ok m (fst e) /\ coords_ok m (snd e))
     (scanned_edges m) ->
   exists h, HeuristicFunction.init (Some problem) m = Return h m /\
     HeuristicFunction.goal h = RouteProblem.goal problem /\
     In (HeuristicFunction.efficientGas h) (map (ratio m) (scanned_edges m)) /\
     Forall (fun r => (r <= HeuristicFunction.efficientGas h)%Q)
       (map (ratio m) (scanned_edges m))).
Proof.
  split; [|split].
  - intros (location & Hin & Hnone).
    destruct (HeuristicFunction.init (Some problem) m) as [h m'|e m'|] eqn:E.
    + apply init_returns in E as (_ & Hconn & _).
      rewrite List.Forall_forall in Hconn. exfalso. exact (Hconn _ Hin Hnone).
    + exists e, m'. reflexivity.
    + exfalso. exact (init_finishes _ _ E).
  - intros (e & c & Hin & Hc & Hz).
    destruct (HeuristicFunction.init (Some problem) m) as [h m'|e' m'|] eqn:E.
    + apply init_returns in E as (_ & _ & Hok).
      rewrite List.Forall_forall in Hok.
      destruct (Hok _ Hin) as (_ & _ & c' & Hc' & Hz').
      assert (c' = c) by congruence. subst c'.
      apply Qeq_bool_iff in Hz. congruence.
    + exists e', m'. reflexivity.
    + exfalso. exact (init_finishes _ _ E).
  - intros Hne Hout Hedges.
    apply init_ok.
    + eapply Forall_impl; [exact Hout|]. simpl. intros location (inner & -> & _).
      discriminate.
    + apply List.Forall_forall. intros e He.
      rewrite List.Forall_forall in Hedges.
      destruct (Hedges e He) as (Hpos & H0 & H1).
      split; [exact H0|]. split; [exact H1|].
      unfold segment_cost in Hpos.
      destruct (edge_cost m (fst e) (snd e)) as [c|].
      * exists c. split; [reflexivity|].
        destruct (Qeq_bool c 0) eqn:Ez; [|reflexivity].
        apply Qeq_bool_iff in Ez. rewrite Ez in Hpos.
        exfalso. exact (Qlt_irrefl _ Hpos).
      * exfalso. exact (Qlt_irrefl _ Hpos).
    + unfold scanned_edges.
      destruct (RoadMap.loc_dict m) as [|[k v] d] eqn:Eld; [congruence|].
      simpl in *. inversion Hout as [|? ? (inner & Hk & Hin) _]; subst.
      unfold get_or. rewrite Hk. destruct inner as [|[c q] inner]; [congruence|].
      simpl. discriminate.
Qed.

(** Two locations joined both ways at cost 1, one of them at the origin. *)
Definition origin_map : RoadMap.t :=
  build [
    RoadMap.add_location "a" 0 0; RoadMap.add_location "b" 1 1;
    RoadMap.add_road "a" "b" (Some "ab") 1; RoadMap.add_road "b" "a" (Some "ba") 1 ].

(** C10 as stated fails: every location of [origin_map] has an outgoing
    edge and every cost is positive, yet the construction raises, because
    the location at (0, 0) counts as unknown. *)
Lemma init_raises_at_origin :
  Forall (fun location =>
            exists inner,
              Dict.get (RoadMap.connection_dict origin_map) location = Some inner /\
              inner <> [])
    (Dict.keys (RoadMap.loc_dict origin_map)) /\
  Forall (fun e => (0 < segment_cost origin_map e)%Q) (scanned_edges origin_map) /\
  @HeuristicFunction.init example_builtins (Some (RouteProblem.mk "a" (Some "b")))
    origin_map
  = Raise (UnknownLocation "a") origin_map.
Proof.
  split; [|split].
  - repeat constructor; eexists; (split; [reflexivity | discriminate]).
  - repeat constructor.
  - reflexivity.
Qed.

Lemma example_map_edges_ok :
  Forall (fun e => (0 < segment_cost example_map e)%Q /\
                   coords_ok example_map (fst e) /\ coords_ok example_map (snd e))
    (scanned_edges example_map).
Proof.
  repeat constructor; eexists _, _; (split; [reflexivity | split; reflexivity]).
Qed.

Lemma HeuristicFunction_init_outcome_witness :
  exists h,
    @HeuristicFunction.init example_builtins (Some (RouteProblem.mk "s" (Some "g")))
      example_map = Return h example_map /\
    HeuristicFunction.goal h = Some "g" /\
    In (HeuristicFunction.efficientGas h)
       (map (@ratio example_builtins example_map) (scanned_edges example_map)) /\
    Forall (fun r => (r <= HeuristicFunction.efficientGas h)%Q)
      (map (@ratio example_builtins example_map) (scanned_edges example_map)).
Proof.
  apply (proj2 (proj2 (@HeuristicFunction_init_outcome example_builtins
                         (RouteProblem.mk "s" (Some "g")) example_map))).
  - discriminate.
  - repeat constructor; eexists; (split; [reflexivity | discriminate]).
  - exact example_map_edges_ok.
Defined.

(** ** Expanding a node

    A search starts on a map [m0]; the lookups of the search may add
    default entries to it, and see the same roads and costs throughout. *)

(** The locations the roads lead to from [start]. *)
Inductive reachable (m : RoadMap.t) (start : string) : string -> Prop :=
| reach_start : reachable m start start
| reach_step (a r b : string) :
    reachable m start a -> road_end m a r = Some b -> reachable m start b.

(** The road names of a location, in the order [actions] lists them. *)
Definition roads_of (m : RoadMap.t) (loc : string) : list string :=
  Dict.keys (get_or (RoadMap.road_dict m) loc []).

(** [h_cost] can evaluate at [loc]: the heuristic has a goal, the goal and
    [loc] have usable coordinates, and [efficientGas] is not zero. *)
Definition h_defined_at (m : RoadMap.t) (h : HeuristicFunction.t) (loc : string) : Prop :=
  (exists g, HeuristicFunction.goal h = Some g /\ coords_ok m g) /\
  coords_ok m loc /\
  Qeq_bool (HeuristicFunction.efficientGas h) 0 = false.

Lemma coords_ok_only_defaults (m m' : RoadMap.t) (loc : string) :
  only_defaults_added m m' -> coords_ok m loc -> coords_ok m' loc.
Proof.
  intros (_ & _ & Hl) (x & y & Hg & Hx & Hy). exists x, y.
  split; [eapply defaults_appended_get_some; eassumption | auto].
Qed.

Lemma get_result_inv (m0 m : RoadMap.t) (start : string) (road : option string) :
  only_defaults_added m0 m ->
  exists m', RoadMap.get_result start road m =
             Return (match road with
                     | None => Successors (get_or (RoadMap.road_dict m0) start [])
                     | Some r => Entry (road_end m0 start r)
                     end) m' /\
             only_defaults_added m0 m'.
Proof.
  intros Hm. rewrite get_result_spec. eexists. split.
  - destruct Hm as (_ & Hr & _). unfold road_end.
    rewrite (defaults_appended_get_or _ _ _ _ Hr). reflexivity.
  - eapply only_defaults_added_trans; [exact Hm|].
    repeat split; simpl; try apply defaults_appended_refl. apply setdefault_appended.
Qed.

Lemma get_inv (m0 m : RoadMap.t) (start : string) (end_ : option string) :
  only_defaults_added m0 m ->
  exists m', RoadMap.get start end_ m =
             Return (match end_ with
                     | None => Successors (get_or (RoadMap.connection_dict m0) start [])
                     | Some e => Entry (edge_cost m0 start e)
                     end) m' /\
             only_defaults_added m0 m'.
Proof.
  intros Hm. rewrite get_spec. eexists. split.
  - destruct Hm as (Hc & _ & _). unfold edge_cost.
    rewrite (defaults_appended_get_or _ _ _ _ Hc). reflexivity.
  - eapply only_defaults_added_trans; [exact Hm|].
    repeat split; simpl; try apply defaults_appended_refl. apply setdefault_appended.
Qed.

Lemma on_map_Return {A} (c : M RoadMap.t A) (w : World) (a : A) (m' : RoadMap.t) :
  c (the_map w) = Return a m' ->
  on_map c w = Return a (mkWorld m' (node_expansion_count w)).
Proof. unfold on_map. intros ->. reflexivity. Qed.

Section expand_facts.
Context `{builtins}.
Variable m0 : RoadMap.t.
Hypothesis m0_costs : roads_have_costs m0.

Lemma h_cost_inv (m : RoadMap.t) (h : HeuristicFunction.t) (loc : string) :
  only_defaults_added m0 m -> h_defined_at m0 h loc ->
  exists v, HeuristicFunction.h_cost h (Some loc) m = Return v m.
Proof.
  intros Hm ((g & Hg & Hcg) & Hcl & Hz). unfold HeuristicFunction.h_cost.
  rewrite Hg. unfold bind.
  rewrite (euclidean_distance_ok m loc g)
    by (eapply coords_ok_only_defaults; eassumption).
  unfold HeuristicFunction.py_div. rewrite Hz. eexists. reflexivity.
Qed.

(** The children an expansion builds for [n]. *)
Definition child_of (n c : Node.t) : Prop :=
  Node.depth c = Node.depth n + 1 /\ Node.h_fun c = Node.h_fun n /\
  exists r, road_end m0 (Node.loc n) r = Some (Node.loc c).

(** The heuristic of [n] evaluates wherever a road from [n] leads. *)
Definition h_fun_ok (n : Node.t) : Prop :=
  match Node.h_fun n with
  | None => True
  | Some h => forall r b, road_end m0 (Node.loc n) r = Some b -> h_defined_at m0 h b
  end.

Lemma child_node_spec (n : Node.t) (problem : RouteProblem.t) (road : string)
    (w : World) :
  only_defaults_added m0 (the_map w) -> h_fun_ok n ->
  In road (roads_of m0 (Node.loc n)) ->
  exists c w', Node.child_node n problem road None w = Return c w' /\
    only_defaults_added m0 (the_map w') /\ child_of n c.
Proof using m0_costs.
  intros Hw Hh Hroad.
  apply Dict_keys_get in Hroad. destruct Hroad as [child_loc Hr].
  fold (road_end m0 (Node.loc n) road) in Hr.
  unfold Node.child_node, RouteProblem.result, RouteProblem.action_cost, bind.
  destruct (get_result_inv m0 _ (Node.loc n) (Some road) Hw) as (m1 & E1 & H1).
  rewrite (on_map_Return _ _ _ _ E1). rewrite Hr. cbn [ret the_map].
  destruct (get_inv m0 m1 (Node.loc n) (Some child_loc) H1) as (m2 & E2 & H2).
  rewrite (on_map_Return _ (mkWorld m1 _) _ _ E2).
  destruct (edge_cost m0 (Node.loc n) child_loc) as [c|] eqn:Ec.
  2:{ exfalso. exact (m0_costs _ _ _ Hr Ec). }
  unfold h_fun_ok in Hh.
  destruct (Node.h_fun n) as [h|] eqn:Ehf.
  - destruct (h_cost_inv m2 h child_loc H2 (Hh _ _ Hr)) as (v & Ev).
    rewrite (on_map_Return _ (mkWorld m2 _) _ _ Ev). cbn [ret].
    eexists _, _. split; [reflexivity|]. split; [exact H2|].
    split; [reflexivity|]. split; [simpl; congruence|].
    exists road. exact Hr.
  - cbn [ret]. eexists _, _. split; [reflexivity|]. split; [exact H2|].
    split; [reflexivity|]. split; [simpl; congruence|].
    exists road. exact Hr.
Qed.

Lemma expand_spec (n : Node.t) (problem : RouteProblem.t) (w : World) :
  only_defaults_added m0 (the_map w) -> h_fun_ok n ->
  exists children w', Node.expand n problem w = Return children w' /\
    only_defaults_added m0 (the_map w') /\
    Forall (child_of n) children /\
    length children <= length (roads_of m0 (Node.loc n)) /\
    (depth_limit <= Node.depth n -> children = []).
Proof using m0_costs.
  intros Hw Hh. unfold Node.expand.
  destruct (depth_limit <=? Node.depth n)%nat eqn:Hd.
  - eexists _, _. split; [reflexivity|]. split; [exact Hw|].
    split; [constructor|]. split; [simpl; lia | reflexivity].
  - apply Nat.leb_gt in Hd.
    unfold RouteProblem.actions, bind.
    destruct (get_result_inv m0 _ (Node.loc n) None Hw) as (m1 & E1 & H1).
    rewrite (on_map_Return _ (mkWorld (the_map w) _) _ _ E1). cbn [ret].
    fold (roads_of m0 (Node.loc n)).
    assert (Hloop : forall roads acc w1,
      only_defaults_added m0 (the_map w1) ->
      (forall road, In road roads -> In road (roads_of m0 (Node.loc n))) ->
      Forall (child_of n) acc ->
      exists children w', 
        for_each roads
          (fun children road =>
             bind (Node.child_node n problem road None)
               (fun child => ret (children ++ [child]))) acc w1
        = Return children w' /\
        only_defaults_added m0 (the_map w') /\
        Forall (child_of n) children /\
        length children = length acc + length roads).
    { induction roads as [|road roads IH]; intros acc w1 Hw1 Hin Hacc; simpl.
      - eexists _, _. split; [reflexivity|]. split; [exact Hw1|].
        split; [exact Hacc | lia].
      - destruct (child_node_spec n problem road w1 Hw1 Hh (Hin road (or_introl eq_refl)))
          as (c & w2 & Ec & Hw2 & Hc).
        unfold bind at 1. unfold bind at 1. rewrite Ec. cbn [ret].
        destruct (IH (acc ++ [c]) w2 Hw2) as (children & w' & E & Hw' & Hch & Hlen).
        + intros r Hr. apply Hin. right. exact Hr.
        + apply Forall_app. split; [exact Hacc | constructor; [exact Hc | constructor]].
        + exists children, w'. split; [exact E|]. split; [exact Hw'|].
          split; [exact Hch|]. rewrite Hlen, length_app. simpl. lia. }
    destruct (Hloop (roads_of m0 (Node.loc n)) [] (mkWorld m1 (node_expansion_count w + 1)))
      as (children & w' & E & Hw' & Hch & Hlen); [exact H1 | auto | constructor |].
    exists children, w'. split; [exact E|]. split; [exact Hw'|].
    split; [exact Hch|]. split; [simpl in Hlen; lia | lia].
Qed.

End expand_facts.

(** ** The search loop *)

Lemma while_loop_ends {S St R} (cond : St -> bool) (body : St -> M S (St + R))
    (Inv : St -> S -> Prop) (Q : R -> S -> Prop) (mu : St -> nat) :
  (forall st s, Inv st s -> cond st = true ->
     exists r s', body st s = Return r s' /\
       match r with
       | inl st' => Inv st' s' /\ mu st' < mu st
       | inr v => Q v s'
       end) ->
  forall fuel st s, Inv st s -> mu st < fuel ->
    exists r s', while_loop fuel cond body st s = Return r s' /\
      match r with
      | inl st' => Inv st' s' /\ cond st' = false
      | inr v => Q v s'
      end.
Proof.
  intros Hbody. induction fuel as [|fuel IH]; intros st s Hinv Hmu; [lia|].
  simpl. destruct (cond st) eqn:Hc.
  - destruct (Hbody st s Hinv Hc) as (r & s' & E & Hr).
    unfold bind. rewrite E. destruct r as [st'|v].
    + destruct Hr as [Hinv' Hdec]. apply IH; [exact Hinv' | lia].
    + exists (inr v), s'. split; [reflexivity | exact Hr].
  - exists (inl st), s. split; [reflexivity | split; assumption].
Qed.

(** The nodes in a frontier. *)
Definition nodes_of (F : Frontier.t) : list Node.t := map snd (Frontier.fringe F).

(** The largest number of roads leaving a location. *)
Definition branching (m : RoadMap.t) : nat :=
  list_max (map (fun e => length (snd e)) (RoadMap.road_dict m)).

(** The size of the complete tree of depth [k] with [b] children per node:
    a bound on the nodes a search generates below a node that is [k] levels
    above the depth limit. *)
Fixpoint subtree_size (b k : nat) : nat :=
  match k with
  | O => 1
  | S k => 1 + b * subtree_size b k
  end.

Definition weight (b : nat) (n : Node.t) : nat :=
  subtree_size b (depth_limit - Node.depth n).

Definition total_weight (b : nat) (ns : list Node.t) : nat :=
  list_sum (map (weight b) ns).

Lemma roads_of_le_branching (m : RoadMap.t) (loc : string) :
  length (roads_of m loc) <= branching m.
Proof.
  unfold roads_of, branching, Dict.keys, get_or. rewrite length_map.
  destruct (Dict.get (RoadMap.road_dict m) loc) as [inner|] eqn:E; [|simpl; lia].
  apply Dict_get_In in E.
  assert (Hall : Forall (fun k => k <= list_max (map (fun e => length (snd e))
                                                   (RoadMap.road_dict m)))
                   (map (fun e => length (snd e)) (RoadMap.road_dict m))).
  { apply list_max_le. lia. }
  rewrite List.Forall_forall in Hall. apply Hall.
  apply in_map_iff. exists (loc, inner). split; [reflexivity | exact E].
Qed.

Lemma total_weight_perm (b : nat) (l1 l2 : list Node.t) :
  Permutation l1 l2 -> total_weight b l1 = total_weight b l2.
Proof.
  intros Hp. unfold total_weight.
  induction Hp; simpl; try lia.
Qed.

Lemma Frontier_is_empty_false (F : Frontier.t) :
  Frontier.is_empty F = false <-> Frontier.fringe F <> [].
Proof.
  unfold Frontier.is_empty. destruct (Frontier.fringe F); simpl; split; congruence.
Qed.

Lemma call_pop (F : Frontier.t) (w : World) :
  Frontier.is_empty F = false ->
  exists n F', call Frontier.pop F w = Return (n, F') w /\
    Frontier.sort_by F' = Frontier.sort_by F /\
    Permutation (n :: nodes_of F') (nodes_of F).
Proof.
  intros Hne. apply Frontier_is_empty_false in Hne.
  destruct (Frontier_pop_spec F Hne) as (e & rest & E & _ & Hp).
  unfold call. rewrite E. eexists _, _. split; [reflexivity|].
  split; [reflexivity|]. unfold nodes_of. simpl.
  change (snd e :: map snd rest) with (map snd (e :: rest)).
  rewrite Hp. reflexivity.
Qed.

Lemma frontier_add_spec (node : Node.t) (st : search_state) (w : World) :
  exists F', frontier_add node st w = Return (F', snd st) w /\
    Frontier.sort_by F' = Frontier.sort_by (fst st) /\
    Permutation (nodes_of F') (node :: nodes_of (fst st)).
Proof.
  destruct (Frontier_add_One node (fst st)) as (F' & E & Hs & Hp & _).
  unfold frontier_add, bind, call. rewrite E. cbn [ret snd].
  exists F'. split; [reflexivity|]. split; [exact Hs|].
  unfold nodes_of. rewrite Hp. reflexivity.
Qed.

(** What the body of a driver's [for] loop may do with a child: leave the
    frontier as it is, or add the child to it; the world is not touched. *)
Definition child_step_ok (f : search_state -> Node.t -> M World search_state) : Prop :=
  forall st child w,
  exists st', f st child w = Return st' w /\
    (Permutation (nodes_of (fst st')) (nodes_of (fst st)) \/
     Permutation (nodes_of (fst st')) (child :: nodes_of (fst st))).

Lemma frontier_add_step (node : Node.t) (F : Frontier.t) (v v' : list Node.t) (w : World) :
  exists F', frontier_add node (F, v) w = Return (F', v) w /\
             Permutation (nodes_of F') (node :: nodes_of F).
Proof.
  destruct (frontier_add_spec node (F, v) w) as (F' & E & _ & Hp).
  exists F'. split; [exact E | exact Hp].
Qed.

Lemma BFS_child_ok (repeat_check : bool) : child_step_ok (BFS_child repeat_check).
Proof.
  intros [F v] child w. unfold BFS_child. cbn [fst snd].
  destruct repeat_check; [destruct (negb (Node.elem child v))|].
  - destruct (frontier_add_step child F (v ++ [child]) v w) as (F' & E & Hp).
    eexists. split; [exact E | right; exact Hp].
  - eexists. split; [reflexivity | left; reflexivity].
  - destruct (frontier_add_step child F v v w) as (F' & E & Hp).
    eexists. split; [exact E | right; exact Hp].
Qed.

Lemma DFS_child_ok (repeat_check : bool) : child_step_ok (DFS_child repeat_check).
Proof. exact (BFS_child_ok repeat_check). Qed.

Lemma greedy_child_ok (repeat_check : bool) : child_step_ok (greedy_child repeat_check).
Proof.
  intros [F v] child w. unfold greedy_child. cbn [fst snd].
  destruct repeat_check; [destruct (negb (Node.elem child v))|].
  - destruct (frontier_add_step child F v v w) as (F' & E & Hp).
    unfold bind. rewrite E. eexists. split; [reflexivity | right; exact Hp].
  - eexists. split; [reflexivity | left; reflexivity].
  - destruct (frontier_add_step child F v v w) as (F' & E & Hp).
    eexists. split; [exact E | right; exact Hp].
Qed.

Lemma uniform_cost_search_child_ok (repeat_check : bool) :
  child_step_ok (uniform_cost_search_child repeat_check).
Proof.
  intros [F v] child w. unfold uniform_cost_search_child. cbn [fst snd].
  destruct repeat_check; [destruct (Node.elem child v)|].
  - unfold bind. rewrite replace_test_false.
    eexists. split; [reflexivity | left; reflexivity].
  - destruct (frontier_add_step child F v v w) as (F' & E & Hp).
    unfold bind. rewrite E. eexists. split; [reflexivity | right; exact Hp].
  - destruct (frontier_add_step child F v v w) as (F' & E & Hp).
    eexists. split; [exact E | right; exact Hp].
Qed.

Lemma a_star_search_child_ok (repeat_check : bool) :
  child_step_ok (a_star_search_child repeat_check).
Proof. exact (uniform_cost_search_child_ok repeat_check). Qed.

Lemma for_each_children (f : search_state -> Node.t -> M World search_state)
    (b : nat) (P : Node.t -> Prop) :
  child_step_ok f ->
  forall children st w,
  Forall P (nodes_of (fst st)) -> Forall P children ->
  exists st', for_each children f st w = Return st' w /\
    Forall P (nodes_of (fst st')) /\
    total_weight b (nodes_of (fst st'))
      <= total_weight b (nodes_of (fst st)) + total_weight b children.
Proof.
  intros Hf. induction children as [|c children IH]; intros st w Hst Hch; simpl.
  - exists st. split; [reflexivity|]. split; [exact Hst | lia].
  - inversion Hch as [|? ? Hc Hch']; subst.
    destruct (Hf st c w) as (st1 & E1 & Hp).
    unfold bind. rewrite E1.
    assert (H1 : Forall P (nodes_of (fst st1)) /\
                 total_weight b (nodes_of (fst st1))
                   <= total_weight b (nodes_of (fst st)) + weight b c).
    { destruct Hp as [Hp|Hp]; rewrite (total_weight_perm _ _ _ Hp); split.
      - eapply Permutation_Forall; [symmetry; exact Hp | exact Hst].
      - lia.
      - eapply Permutation_Forall; [symmetry; exact Hp | constructor; assumption].
      - unfold total_weight. simpl. lia. }
    destruct H1 as [HP1 Hw1].
    destruct (IH st1 w HP1 Hch') as (st' & E & HP & Hw).
    exists st'. split; [exact E|]. split; [exact HP|].
    unfold total_weight in *. simpl. lia.
Qed.

(** The shape the [while] bodies of the five drivers share: pop, test the
    goal, expand, and hand each child to the driver's [for] body. *)
Definition search_body `{builtins}
    (child : search_state -> Node.t -> M World search_state)
    (problem : RouteProblem.t) (st : search_state) : M World (search_state + Node.t) :=
  r <- call Frontier.pop (fst st) ;;
  let node := fst r in
  let st := (snd r, snd st) in
  if RouteProblem.is_goal problem (Node.loc node) then ret (inr node)
  else
    children <- Node.expand node problem ;;
    st <- for_each children child st ;;
    ret (inl st).

Lemma subtree_size_pos (b k : nat) : 0 < subtree_size b k.
Proof. destruct k; simpl; lia. Qed.

Lemma subtree_size_mono (b k j : nat) :
  k <= j -> subtree_size b k <= subtree_size b j.
Proof.
  induction 1 as [|j Hkj IH]; [lia|]. cbn [subtree_size].
  destruct b as [|b].
  - destruct k; simpl; lia.
  - rewrite Nat.mul_succ_l. lia.
Qed.

Section search_facts.
Context `{builtins}.
Variable m0 : RoadMap.t.
Variable problem : RouteProblem.t.
Variable hf : option HeuristicFunction.t.
Hypothesis m0_costs : roads_have_costs m0.
Hypothesis hf_ok :
  match hf with
  | Some h => forall loc, reachable m0 (RouteProblem.start problem) loc ->
                          h_defined_at m0 h loc
  | None => True
  end.

(** The nodes a search holds: on a location the roads reach from the
    start, with the heuristic the root was given. *)
Definition node_ok (n : Node.t) : Prop :=
  reachable m0 (RouteProblem.start problem) (Node.loc n) /\ Node.h_fun n = hf.

Definition search_inv (st : search_state) (w : World) : Prop :=
  only_defaults_added m0 (the_map w) /\ Forall node_ok (nodes_of (fst st)).

Lemma node_ok_h_fun_ok (n : Node.t) : node_ok n -> h_fun_ok m0 n.
Proof using hf_ok.
  intros [Hr Hh]. unfold h_fun_ok. rewrite Hh. destruct hf as [h|]; [|exact I].
  intros r b Hb. apply hf_ok. eapply reach_step; eassumption.
Qed.

Lemma child_of_node_ok (n c : Node.t) : node_ok n -> child_of m0 n c -> node_ok c.
Proof.
  intros [Hr Hh] (_ & Hhc & r & Hroad). split; [|congruence].
  eapply reach_step; eassumption.
Qed.

Lemma children_weight (n : Node.t) (children : list Node.t) :
  Forall (child_of m0 n) children ->
  length children <= branching m0 ->
  (depth_limit <= Node.depth n -> children = []) ->
  total_weight (branching m0) children < weight (branching m0) n.
Proof.
  intros Hch Hlen Hlim. unfold weight.
  destruct (le_lt_dec depth_limit (Node.depth n)) as [Hd|Hd].
  - rewrite (Hlim Hd). unfold total_weight. simpl. apply subtree_size_pos.
  - replace (depth_limit - Node.depth n) with (S (depth_limit - (Node.depth n + 1)))
      by lia.
    cbn [subtree_size].
    assert (Hsum : total_weight (branching m0) children =
                   length children * subtree_size (branching m0)
                                       (depth_limit - (Node.depth n + 1))).
    { clear Hlen Hlim. unfold total_weight.
      induction Hch as [|c cs (Hdc & _) _ IH]; simpl; [reflexivity|].
      rewrite IH. unfold weight. rewrite Hdc. reflexivity. }
    rewrite Hsum.
    pose proof (Nat.mul_le_mono_r _ _
                  (subtree_size (branching m0) (depth_limit - (Node.depth n + 1))) Hlen).
    lia.
Qed.

Lemma search_body_spec (child : search_state -> Node.t -> M World search_state) :
  child_step_ok child ->
  forall st w, search_inv st w -> negb (Frontier.is_empty (fst st)) = true ->
  exists r w', search_body child problem st w = Return r w' /\
    match r with
    | inl st' =>
        search_inv st' w' /\
        total_weight (branching m0) (nodes_of (fst st'))
          < total_weight (branching m0) (nodes_of (fst st))
    | inr v => node_ok v /\ RouteProblem.is_goal problem (Node.loc v) = true
    end.
Proof using m0_costs hf_ok.
  intros Hchild st w [Hw Hnodes] Hne. apply negb_true_iff in Hne.
  destruct (call_pop (fst st) w Hne) as (n & F' & Epop & _ & Hperm).
  unfold search_body, bind. rewrite Epop. cbn [fst snd].
  assert (Hall : Forall node_ok (n :: nodes_of F')).
  { eapply Permutation_Forall; [symmetry; exact Hperm | exact Hnodes]. }
  inversion Hall as [|? ? Hn HF']; subst.
  destruct (RouteProblem.is_goal problem (Node.loc n)) eqn:Hgoal.
  - exists (inr n), w. split; [reflexivity | split; [exact Hn | exact Hgoal]].
  - destruct (expand_spec m0 m0_costs n problem w Hw (node_ok_h_fun_ok n Hn))
      as (children & w' & Eexp & Hw' & Hch & Hlen & Hlim).
    rewrite Eexp.
    assert (Hchok : Forall node_ok children).
    { eapply Forall_impl; [exact Hch|]. intros c. apply child_of_node_ok. exact Hn. }
    destruct (for_each_children child (branching m0) node_ok Hchild children
                (F', snd st) w' HF' Hchok) as (st' & Efor & Hst' & Hwt).
    rewrite Efor. exists (inl st'), w'. split; [reflexivity|].
    split; [split; assumption|].
    rewrite <- (total_weight_perm _ _ _ Hperm).
    pose proof (children_weight n children Hch
                  (Nat.le_trans _ _ _ Hlen (roads_of_le_branching m0 (Node.loc n))) Hlim).
    cbn [fst] in Hwt. unfold total_weight in *. simpl. lia.
Qed.

(** The loop of a driver, from the frontier that holds the root alone:
    with fuel above the weight of the root it ends, either with the
    frontier empty or with a goal node. *)
Lemma search_loop_ends (child : search_state -> Node.t -> M World search_state)
    (root : Node.t) (sort_by : sort_key) (visited : list Node.t) (w : World) (fuel : nat) :
  child_step_ok child -> node_ok root -> only_defaults_added m0 (the_map w) ->
  subtree_size (branching m0) depth_limit < fuel ->
  exists r w',
    while_loop fuel (fun st => negb (Frontier.is_empty (fst st)))
      (search_body child problem) (Frontier.init root sort_by, visited) w
    = Return r w' /\
    only_defaults_added m0 (the_map w') /\
    match r with
    | inl _ => True
    | inr v => node_ok v /\ RouteProblem.is_goal problem (Node.loc v) = true
    end.
Proof using m0_costs hf_ok.
  intros Hchild Hroot Hw Hfuel.
  destruct (while_loop_ends (fun st => negb (Frontier.is_empty (fst st)))
              (search_body child problem) search_inv
              (fun v w' => only_defaults_added m0 (the_map w') /\ node_ok v /\
                           RouteProblem.is_goal problem (Node.loc v) = true)
              (fun st => total_weight (branching m0) (nodes_of (fst st))))
    with (fuel := fuel) (st := (Frontier.init root sort_by, visited)) (s := w)
    as (r & w' & E & Hr).
  - intros st s Hinv Hc.
    destruct (search_body_spec child Hchild st s Hinv Hc) as (r & s' & E & Hr).
    exists r, s'. split; [exact E|]. destruct r as [st'|v]; [exact Hr|].
    split; [|exact Hr].
    (* the world a returning body leaves: the pop does not touch it *)
    revert E. unfold search_body, bind.
    destruct (call Frontier.pop (fst st) s) as [[n F'] s1|e s1|] eqn:Ep; try discriminate.
    assert (s1 = s).
    { revert Ep. unfold call. destruct (Frontier.pop (fst st)); congruence. }
    subst s1. cbn [fst snd].
    destruct (RouteProblem.is_goal problem (Node.loc n)).
    + intros [= _ <-]. exact (proj1 Hinv).
    + destruct (Node.expand n problem s) as [ch s2|e s2|]; try discriminate.
      destruct (for_each ch child (F', snd st) s2); discriminate.
  - split; [exact Hw|]. repeat constructor; apply Hroot.
  - unfold nodes_of, total_weight, weight. simpl.
    pose proof (subtree_size_mono (branching m0) (depth_limit - Node.depth root)
                  depth_limit ltac:(lia)). lia.
  - exists r, w'. split; [exact E|]. destruct r as [st'|v].
    + split; [exact (proj1 (proj1 Hr)) | exact I].
    + split; [exact (proj1 Hr) | exact (proj2 Hr)].
Qed.

End search_facts.

(** ** The drivers on a problem whose goal cannot be reached *)

Section unreachable_goal.
Context `{builtins}.
Variable m0 : RoadMap.t.
Variable problem : RouteProblem.t.
Hypothesis m0_costs : roads_have_costs m0.
Hypothesis unreachable :
  forall g, RouteProblem.goal problem = Some g ->
            ~ reachable m0 (RouteProblem.start problem) g.

Lemma is_goal_unreachable (loc : string) :
  reachable m0 (RouteProblem.start problem) loc ->
  RouteProblem.is_goal problem loc = false.
Proof using unreachable.
  intros Hr. unfold RouteProblem.is_goal, eq_goal, EqGoal_str.
  destruct (RouteProblem.goal problem) as [g|] eqn:Eg; [|reflexivity].
  destruct (String.eqb_spec loc g) as [->|]; [|reflexivity].
  exfalso. exact (unreachable g eq_refl Hr).
Qed.

(** The tail every driver shares: run the loop on the root, return the
    node the loop returned, or None when the frontier ran empty. *)
Lemma search_returns_None (hf : option HeuristicFunction.t)
    (child : search_state -> Node.t -> M World search_state)
    (sort_by : sort_key) (count fuel : nat) :
  match hf with
  | Some h => forall loc, reachable m0 (RouteProblem.start problem) loc ->
                          h_defined_at m0 h loc
  | None => True
  end ->
  child_step_ok child ->
  subtree_size (branching m0) depth_limit < fuel ->
  let root := Node.init (RouteProblem.start problem) None None 0 0 hf in
  exists w',
    (r <- while_loop fuel (fun st => negb (Frontier.is_empty (fst st)))
            (search_body child problem) (Frontier.init root sort_by, [root]) ;;
     match r with
     | inr node => ret (Some node)
     | inl _ => ret None
     end) (mkWorld m0 count) = Return None w'.
Proof using m0_costs unreachable.
  intros Hhf Hchild Hfuel root.
  destruct (search_loop_ends m0 problem hf m0_costs Hhf child root sort_by [root]
              (mkWorld m0 count) fuel Hchild)
    as (r & w' & E & _ & Hr).
  - split; [apply reach_start | reflexivity].
  - apply only_defaults_added_refl.
  - exact Hfuel.
  - unfold bind. rewrite E. destruct r as [st|v].
    + exists w'. reflexivity.
    + destruct Hr as [[Hreach _] Hgoal].
      rewrite (is_goal_unreachable _ Hreach) in Hgoal. discriminate.
Qed.

Lemma BFS_unreachable (repeat_check : bool) (count fuel : nat) :
  subtree_size (branching m0) depth_limit < fuel ->
  exists w', BFS fuel problem repeat_check (mkWorld m0 count) = Return None w'.
Proof using m0_costs unreachable.
  intros Hfuel. unfold BFS. cbn [RouteProblem.is_goal eq_goal EqGoal_Node].
  exact (search_returns_None None (BFS_child repeat_check) (Metric "g") count fuel
           I (BFS_child_ok repeat_check) Hfuel).
Qed.

Lemma DFS_unreachable (repeat_check : bool) (count fuel : nat) :
  subtree_size (branching m0) depth_limit < fuel ->
  exists w', DFS fuel problem repeat_check (mkWorld m0 count) = Return None w'.
Proof using m0_costs unreachable.
  intros Hfuel. unfold DFS. cbn [RouteProblem.is_goal eq_goal EqGoal_Node].
  exact (search_returns_None None (DFS_child repeat_check) (Flag true) count fuel
           I (DFS_child_ok repeat_check) Hfuel).
Qed.

Lemma uniform_cost_search_unreachable (repeat_check : bool) (count fuel : nat) :
  subtree_size (branching m0) depth_limit < fuel ->
  exists w', uniform_cost_search fuel problem repeat_check (mkWorld m0 count)
             = Return None w'.
Proof using m0_costs unreachable.
  intros Hfuel. unfold uniform_cost_search.
  change (Node.loc (Node.init (RouteProblem.start problem) None None 0 0 None))
    with (RouteProblem.start problem).
  rewrite (is_goal_unreachable _ (reach_start m0 _)).
  exact (search_returns_None None (uniform_cost_search_child repeat_check) (Metric "g")
           count fuel I (uniform_cost_search_child_ok repeat_check) Hfuel).
Qed.

Lemma greedy_search_unreachable (h : HeuristicFunction.t) (repeat_check : bool)
    (count fuel : nat) :
  (forall loc, reachable m0 (RouteProblem.start problem) loc -> h_defined_at m0 h loc) ->
  subtree_size (branching m0) depth_limit < fuel ->
  exists w', greedy_search fuel problem h repeat_check (mkWorld m0 count)
             = Return None w'.
Proof using m0_costs unreachable.
  intros Hh Hfuel. unfold greedy_search.
  change (Node.loc (Node.init (RouteProblem.start problem) None None 0 0 (Some h)))
    with (RouteProblem.start problem).
  rewrite (is_goal_unreachable _ (reach_start m0 _)).
  exact (search_returns_None (Some h) (greedy_child repeat_check) (Metric "h")
           count fuel Hh (greedy_child_ok repeat_check) Hfuel).
Qed.

Lemma a_star_search_unreachable (h : HeuristicFunction.t) (repeat_check : bool)
    (count fuel : nat) :
  (forall loc, reachable m0 (RouteProblem.start problem) loc -> h_defined_at m0 h loc) ->
  subtree_size (branching m0) depth_limit < fuel ->
  exists w', a_star_search fuel problem h repeat_check (mkWorld m0 count)
             = Return None w'.
Proof using m0_costs unreachable.
  intros Hh Hfuel. unfold a_star_search.
  change (Node.loc (Node.init (RouteProblem.start problem) None None 0 0 (Some h)))
    with (RouteProblem.start problem).
  rewrite (is_goal_unreachable _ (reach_start m0 _)).
  exact (search_returns_None (Some h) (a_star_search_child repeat_check) (Metric "f")
           count fuel Hh (a_star_search_child_ok repeat_check) Hfuel).
Qed.

End unreachable_goal.

(** C8 (amended). On a map where every named road has a cost, for a
    problem whose goal no sequence of roads reaches from the start: given
    enough fuel for the loop (more than the size of the complete tree of
    depth 20 with the map's largest number of roads per location), BFS,
    DFS and uniform-cost search, with or without repeated-state checking,
    return None and raise nothing; greedy and A* search do the same for
    every heuristic that evaluates on the locations reachable from the
    start (it has a goal, the goal and those locations have usable
    coordinates, and its [efficientGas] is not zero).  The depth limit
    bounds the tree, and each pass of the loop takes a node off it. *)
Theorem search_unreachable_goal `{builtins} (m0 : RoadMap.t) (problem : RouteProblem.t) :
  roads_have_costs m0 ->
  (forall g, RouteProblem.goal problem = Some g ->
             ~ reachable m0 (RouteProblem.start problem) g) ->
  exists N, forall fuel repeat_check count, N <= fuel ->
    (exists w', BFS fuel problem repeat_check (mkWorld m0 count) = Return None w') /\
    (exists w', DFS fuel problem repeat_check (mkWorld m0 count) = Return None w') /\
    (exists w', uniform_cost_search fuel problem repeat_check (mkWorld m0 count)
                = Return None w') /\
    (forall h,
        (forall loc, reachable m0 (RouteProblem.start problem) loc ->
                     h_defined_at m0 h loc) ->
        (exists w', greedy_search fuel problem h repeat_check (mkWorld m0 count)
                    = Return None w') /\
        (exists w', a_star_search fuel problem h repeat_check (mkWorld m0 count)
                    = Return None w')).
Proof.
  intros Hcosts Hgoal.
  exists (S (subtree_size (branching m0) depth_limit)).
  intros fuel repeat_check count Hfuel.
  assert (Hlt : subtree_size (branching m0) depth_limit < fuel) by lia.
  split; [|split; [|split]].
  - apply BFS_unreachable; assumption.
  - apply DFS_unreachable; assumption.
  - apply uniform_cost_search_unreachable; assumption.
  - intros h Hh. split.
    + apply greedy_search_unreachable; assumption.
    + apply a_star_search_unreachable; assumption.
Qed.

(** A checker for sets of locations that no road leaves. *)
Definition closed_under_roads (m : RoadMap.t) (locs : list string) : bool :=
  forallb (fun l =>
             forallb (fun rb => existsb (String.eqb (snd rb)) locs)
               (get_or (RoadMap.road_dict m) l []))
    locs.

Lemma reachable_in_closed (m : RoadMap.t) (start : string) (locs : list string) :
  closed_under_roads m locs = true -> In start locs ->
  forall loc, reachable m start loc -> In loc locs.
Proof.
  intros Hc Hs loc Hr. induction Hr as [|a r b _ IH Hroad]; [exact Hs|].
  unfold closed_under_roads in Hc. rewrite List.forallb_forall in Hc.
  specialize (Hc a IH). rewrite List.forallb_forall in Hc.
  apply Dict_get_In in Hroad. specialize (Hc _ Hroad).
  apply List.existsb_exists in Hc. destruct Hc as (x & Hx & E).
  apply String.eqb_eq in E. simpl in E. subst. exact Hx.
Qed.

(** From "s" the roads of [example_map] reach "s", "a", "b" and "g" only. *)
Lemma example_map_reachable (loc : string) :
  reachable example_map "s" loc -> In loc ["s"; "a"; "b"; "g"].
Proof.
  apply reachable_in_closed; [reflexivity | left; reflexivity].
Qed.

(** C8 as stated fails: "nowhere" is not on [example_map], so no road
    reaches it, and the heuristic is built without error; A* then raises
    on the first child, whose distance to the goal cannot be computed. *)
Lemma a_star_raises_on_unknown_goal :
  ~ reachable example_map "s" "nowhere" /\
  exists h w',
    @HeuristicFunction.init example_builtins
      (Some (RouteProblem.mk "s" (Some "nowhere"))) example_map
    = Return h example_map /\
    @a_star_search example_builtins 100 (RouteProblem.mk "s" (Some "nowhere")) h true
      (mkWorld example_map 0)
    = Raise (UnknownLocation "nowhere") w'.
Proof.
  split.
  - intros Hr. apply example_map_reachable in Hr. simpl in Hr.
    repeat (destruct Hr as [Hr|Hr]; [discriminate|]). exact Hr.
  - eexists _, _. split.
    + vm_compute. reflexivity.
    + vm_compute. reflexivity.
Qed.

(** A problem on [example_map] whose goal is on the island. *)
Definition island_problem : RouteProblem.t := RouteProblem.mk "s" (Some "i").

Definition island_h : HeuristicFunction.t :=
  Eval vm_compute in
    match @HeuristicFunction.init example_builtins (Some island_problem) example_map with
    | Return h _ => h
    | _ => HeuristicFunction.mk None [] 0
    end.

Lemma island_unreachable (g : string) :
  RouteProblem.goal island_problem = Some g ->
  ~ reachable example_map (RouteProblem.start island_problem) g.
Proof.
  intros [= <-] Hr. apply example_map_reachable in Hr. simpl in Hr.
  repeat (destruct Hr as [Hr|Hr]; [discriminate|]). exact Hr.
Qed.

Lemma island_h_defined (loc : string) :
  reachable example_map (RouteProblem.start island_problem) loc ->
  h_defined_at example_map island_h loc.
Proof.
  intros Hr. apply example_map_reachable in Hr.
  split; [|split; [|reflexivity]].
  - exists "i". split; [reflexivity|]. eexists _, _. repeat split; reflexivity.
  - simpl in Hr.
    repeat (destruct Hr as [<-|Hr]; [eexists _, _; repeat split; reflexivity|]).
    contradiction.
Qed.

Lemma search_unreachable_goal_witness :
  exists N, forall fuel repeat_check count, N <= fuel ->
    (exists w', @BFS example_builtins fuel island_problem repeat_check
                  (mkWorld example_map count) = Return None w') /\
    (exists w', @DFS example_builtins fuel island_problem repeat_check
                  (mkWorld example_map count) = Return None w') /\
    (exists w', @uniform_cost_search example_builtins fuel island_problem repeat_check
                  (mkWorld example_map count) = Return None w') /\
    (forall h,
        (forall loc, reachable example_map (RouteProblem.start island_problem) loc ->
                     h_defined_at example_map h loc) ->
        (exists w', @greedy_search example_builtins fuel island_problem h repeat_check
                      (mkWorld example_map count) = Return None w') /\
        (exists w', @a_star_search example_builtins fuel island_problem h repeat_check
                      (mkWorld example_map count) = Return None w')).
Proof.
  exact (@search_unreachable_goal example_builtins example_map island_problem
           (roads_have_costs_b_sound example_map eq_refl) island_unreachable).
Defined.

(** The five drivers on [island_problem], run with fuel 200. *)
Example island_searches_return_None :
  value_of (@BFS example_builtins 200 island_problem true (mkWorld example_map 0))
    = Some None /\
  value_of (@DFS example_builtins 200 island_problem true (mkWorld example_map 0))
    = Some None /\
  value_of (@uniform_cost_search example_builtins 200 island_problem true
              (mkWorld example_map 0)) = Some None /\
  value_of (@greedy_search example_builtins 200 island_problem island_h true
              (mkWorld example_map 0)) = Some None /\
  value_of (@a_star_search example_builtins 200 island_problem island_h true
              (mkWorld example_map 0)) = Some None.
Proof. repeat split; vm_compute; reflexivity. Qed.

(** ** What a search may change in the map *)

Section keeps.
Context {S : Type} (R : S -> S -> Prop).
Hypothesis R_refl : forall s, R s s.
Hypothesis R_trans : forall s1 s2 s3, R s1 s2 -> R s2 s3 -> R s1 s3.

(** However the computation ends, the state it leaves is related to the
    state it started in. *)
Definition keeps {A} (c : M S A) : Prop :=
  forall s, match state_of (c s) with Some s' => R s s' | None => True end.

Lemma keeps_ret {A} (a : A) : keeps (ret a).
Proof using R_refl. intros s. simpl. apply R_refl. Qed.

Lemma keeps_raise {A} (e : exn) : keeps (@raise S A e).
Proof using R_refl. intros s. simpl. apply R_refl. Qed.

Lemma keeps_bind {A B} (c : M S A) (k : A -> M S B) :
  keeps c -> (forall a, keeps (k a)) -> keeps (bind c k).
Proof using R_trans.
  intros Hc Hk s. unfold bind. specialize (Hc s).
  destruct (c s) as [a s1|e s1|]; simpl in *; [|exact Hc | exact I].
  specialize (Hk a s1). destruct (state_of (k a s1)); [|exact I].
  eapply R_trans; eassumption.
Qed.

Lemma keeps_for_each {A B} (body : B -> A -> M S B) (xs : list A) :
  (forall acc x, keeps (body acc x)) -> forall acc, keeps (for_each xs body acc).
Proof using R_refl R_trans.
  intros Hb. induction xs as [|x xs IH]; intros acc; simpl.
  - apply keeps_ret.
  - apply keeps_bind; [apply Hb | exact IH].
Qed.

Lemma keeps_while {St Res} (cond : St -> bool) (body : St -> M S (St + Res))
    (fuel : nat) :
  (forall st, keeps (body st)) -> forall st, keeps (while_loop fuel cond body st).
Proof using R_refl R_trans.
  intros Hb. induction fuel as [|fuel IH]; intros st; simpl.
  - intros s. exact I.
  - destruct (cond st); [|apply keeps_ret].
    apply keeps_bind; [apply Hb|]. intros [st'|v]; [apply IH | apply keeps_ret].
Qed.

End keeps.

(** The relation on worlds: the map has only gained default entries. *)
Definition world_grows (w w' : World) : Prop :=
  only_defaults_added (the_map w) (the_map w').

Lemma world_grows_refl (w : World) : world_grows w w.
Proof. apply only_defaults_added_refl. Qed.

Lemma world_grows_trans (w1 w2 w3 : World) :
  world_grows w1 w2 -> world_grows w2 w3 -> world_grows w1 w3.
Proof. apply only_defaults_added_trans. Qed.

Lemma keeps_on_map {A} (c : M RoadMap.t A) :
  keeps only_defaults_added c -> keeps world_grows (on_map c).
Proof.
  intros Hc w. unfold on_map. specialize (Hc (the_map w)).
  destruct (c (the_map w)); simpl in *; auto.
Qed.

Lemma keeps_call {O A} (m : M O A) (obj : O) : keeps world_grows (call m obj).
Proof.
  intros w. unfold call. destruct (m obj); simpl; try apply world_grows_refl. exact I.
Qed.

Lemma keeps_get (start : string) (end_ : option string) :
  keeps only_defaults_added (RoadMap.get start end_).
Proof.
  intros m. destruct (get_only_defaults start end_ m) as (v & m' & -> & Hm). exact Hm.
Qed.

Lemma keeps_get_result (start : string) (road : option string) :
  keeps only_defaults_added (RoadMap.get_result start road).
Proof.
  intros m. destruct (get_result_only_defaults start road m) as (v & m' & -> & Hm).
  exact Hm.
Qed.

Lemma keeps_location_coordinates (loc : string) :
  keeps only_defaults_added (RoadMap.location_coordinates loc).
Proof.
  intros m. destruct (location_coordinates_only_defaults loc m) as (m' & -> & Hm).
  exact Hm.
Qed.

Lemma keeps_path_cost (start : string) (road_list : list string) :
  keeps only_defaults_added (RoadMap.path_cost start road_list).
Proof.
  intros m. unfold RoadMap.path_cost.
  destruct (path_cost_loop_walk road_list 0%Q start m) as (m' & Hm & ->).
  destruct (walk m start road_list); exact Hm.
Qed.

Lemma keeps_euclidean_distance `{builtins} (loc0 loc1 : string) :
  keeps only_defaults_added (RoadMap.euclidean_distance loc0 loc1).
Proof.
  unfold RoadMap.euclidean_distance.
  apply (keeps_bind _ only_defaults_added_trans);
    [apply keeps_location_coordinates | intros [x0 y0]].
  apply (keeps_bind _ only_defaults_added_trans);
    [apply keeps_location_coordinates | intros [x1 y1]].
  apply (keeps_ret _ only_defaults_added_refl).
Qed.

(** Closes goals [keeps R c] by following the structure of [c]. *)
Ltac keeps_map :=
  repeat first
    [ apply keeps_euclidean_distance
    | apply keeps_get | apply keeps_get_result | apply keeps_location_coordinates
    | apply (keeps_ret _ only_defaults_added_refl)
    | apply (keeps_raise _ only_defaults_added_refl)
    | apply (keeps_bind _ only_defaults_added_trans); [|intros ?] ].

Ltac keeps_world :=
  repeat first
    [ apply keeps_call
    | apply (keeps_ret _ world_grows_refl)
    | apply (keeps_raise _ world_grows_refl)
    | apply (keeps_bind _ world_grows_trans); [|intros ?] ].

Section keeps_search.
Context `{builtins}.

Lemma keeps_h_cost (h : HeuristicFunction.t) (loc : option string) :
  keeps only_defaults_added (HeuristicFunction.h_cost h loc).
Proof.
  unfold HeuristicFunction.h_cost.
  destruct loc; [destruct (HeuristicFunction.goal h)|]; keeps_map.
  unfold HeuristicFunction.py_div. destruct (Qeq_bool _ 0); keeps_map.
Qed.

Lemma keeps_child_node (n : Node.t) (problem : RouteProblem.t) (road : string)
    (h : option HeuristicFunction.t) :
  keeps world_grows (Node.child_node n problem road h).
Proof.
  unfold Node.child_node, RouteProblem.result, RouteProblem.action_cost.
  keeps_world.
  - apply keeps_on_map, keeps_get_result.
  - destruct a; keeps_world.
  - apply keeps_on_map, keeps_get.
  - destruct a0 as [d|[c|]], a as [child_loc|]; keeps_world.
    destruct (match h with Some h0 => Some h0 | None => Node.h_fun n end); keeps_world.
    apply keeps_on_map, keeps_h_cost.
Qed.

Lemma keeps_actions_children (n : Node.t) (problem : RouteProblem.t) :
  keeps world_grows
    (roads <- RouteProblem.actions problem (Node.loc n) ;;
     for_each roads
       (fun children road =>
          child <- Node.child_node n problem road None ;; ret (children ++ [child]))
       []).
Proof.
  apply (keeps_bind _ world_grows_trans).
  - unfold RouteProblem.actions. apply (keeps_bind _ world_grows_trans).
    + apply keeps_on_map, keeps_get_result.
    + intros [d|v]; keeps_world.
  - intros roads. apply (keeps_for_each _ world_grows_refl world_grows_trans).
    intros acc x. apply (keeps_bind _ world_grows_trans).
    + apply keeps_child_node.
    + intros c. apply (keeps_ret _ world_grows_refl).
Qed.

Lemma keeps_expand (n : Node.t) (problem : RouteProblem.t) :
  keeps world_grows (Node.expand n problem).
Proof.
  intros w. unfold Node.expand.
  destruct (depth_limit <=? Node.depth n)%nat.
  - simpl. apply only_defaults_added_refl.
  - exact (keeps_actions_children n problem
             (mkWorld (the_map w) (node_expansion_count w + 1))).
Qed.

Lemma keeps_frontier_add (node : Node.t) (st : search_state) :
  keeps world_grows (frontier_add node st).
Proof. unfold frontier_add. keeps_world. Qed.

Lemma keeps_search_body (child : search_state -> Node.t -> M World search_state)
    (problem : RouteProblem.t) :
  (forall st n, keeps world_grows (child st n)) ->
  forall st, keeps world_grows (search_body child problem st).
Proof.
  intros Hchild st. unfold search_body. keeps_world.
  destruct (RouteProblem.is_goal problem (Node.loc (fst a))); keeps_world.
  - apply keeps_expand.
  - apply (keeps_for_each _ world_grows_refl world_grows_trans). exact Hchild.
Qed.

Lemma keeps_BFS_child (rc : bool) (st : search_state) (n : Node.t) :
  keeps world_grows (BFS_child rc st n).
Proof.
  unfold BFS_child. destruct rc; [destruct (negb _)|]; keeps_world;
    apply keeps_frontier_add.
Qed.

Lemma keeps_greedy_child (rc : bool) (st : search_state) (n : Node.t) :
  keeps world_grows (greedy_child rc st n).
Proof.
  unfold greedy_child. destruct rc; [destruct (negb _)|]; keeps_world;
    apply keeps_frontier_add.
Qed.

Lemma keeps_uniform_cost_search_child (rc : bool) (st : search_state) (n : Node.t) :
  keeps world_grows (uniform_cost_search_child rc st n).
Proof.
  unfold uniform_cost_search_child, replace_test.
  destruct rc; [destruct (Node.elem n (snd st))|]; keeps_world;
    try apply keeps_frontier_add.
  - destruct (Frontier.contains (fst st) n); keeps_world.
  - destruct a; keeps_world; try apply keeps_frontier_add.
Qed.

(** The tail of a driver: the loop, then the result. *)
Lemma keeps_search (child : search_state -> Node.t -> M World search_state)
    (problem : RouteProblem.t) (fuel : nat) (st : search_state) :
  (forall st n, keeps world_grows (child st n)) ->
  keeps world_grows
    (r <- while_loop fuel (fun st => negb (Frontier.is_empty (fst st)))
            (search_body child problem) st ;;
     match r with
     | inr node => ret (Some node)
     | inl _ => ret None
     end).
Proof.
  intros Hchild. keeps_world.
  - apply (keeps_while _ world_grows_refl world_grows_trans).
    apply keeps_search_body. exact Hchild.
  - destruct a; keeps_world.
Qed.

Lemma keeps_BFS (fuel : nat) (problem : RouteProblem.t) (rc : bool) :
  keeps world_grows (BFS fuel problem rc).
Proof.
  unfold BFS. cbn [RouteProblem.is_goal eq_goal EqGoal_Node].
  apply (keeps_search (BFS_child rc)). apply keeps_BFS_child.
Qed.

Lemma keeps_DFS (fuel : nat) (problem : RouteProblem.t) (rc : bool) :
  keeps world_grows (DFS fuel problem rc).
Proof.
  unfold DFS. cbn [RouteProblem.is_goal eq_goal EqGoal_Node].
  apply (keeps_search (DFS_child rc)). apply keeps_BFS_child.
Qed.

Lemma keeps_uniform_cost_search (fuel : nat) (problem : RouteProblem.t) (rc : bool) :
  keeps world_grows (uniform_cost_search fuel problem rc).
Proof.
  unfold uniform_cost_search.
  destruct (RouteProblem.is_goal problem _); [keeps_world|].
  apply (keeps_search (uniform_cost_search_child rc)).
  apply keeps_uniform_cost_search_child.
Qed.

Lemma keeps_greedy_search (fuel : nat) (problem : RouteProblem.t)
    (h : HeuristicFunction.t) (rc : bool) :
  keeps world_grows (greedy_search fuel problem h rc).
Proof.
  unfold greedy_search.
  destruct (RouteProblem.is_goal problem _); [keeps_world|].
  apply (keeps_search (greedy_child rc)). apply keeps_greedy_child.
Qed.

Lemma keeps_a_star_search (fuel : nat) (problem : RouteProblem.t)
    (h : HeuristicFunction.t) (rc : bool) :
  keeps world_grows (a_star_search fuel problem h rc).
Proof.
  unfold a_star_search.
  destruct (RouteProblem.is_goal problem _); [keeps_world|].
  apply (keeps_search (a_star_search_child rc)).
  apply keeps_uniform_cost_search_child.
Qed.

End keeps_search.

(** C4 (amended). A lookup never changes or removes an entry: after [get],
    [get_result], [location_coordinates], [path_cost] or a search, each of
    [connection_dict], [road_dict] and [loc_dict] is the dict it was,
    followed by default entries (an empty dict, or (0.0, 0.0)) for keys that
    were absent.  [get], [get_result] and [location_coordinates] leave the
    map exactly as it was when the queried start or location is present,
    and when it is absent they insert it, after the keys the dict holds,
    with the default value, and change nothing else. *)
Theorem lookups_only_add_defaults `{builtins} :
  (forall m start end_,
      exists v m', RoadMap.get start end_ m = Return v m' /\
        only_defaults_added m m' /\
        (Dict.get (RoadMap.connection_dict m) start <> None -> m' = m) /\
        (Dict.get (RoadMap.connection_dict m) start = None ->
         m' = RoadMap.mk (RoadMap.connection_dict m ++ [(start, [])])
                (RoadMap.road_dict m) (RoadMap.loc_dict m))) /\
  (forall m start road,
      exists v m', RoadMap.get_result start road m = Return v m' /\
        only_defaults_added m m' /\
        (Dict.get (RoadMap.road_dict m) start <> None -> m' = m) /\
        (Dict.get (RoadMap.road_dict m) start = None ->
         m' = RoadMap.mk (RoadMap.connection_dict m)
                (RoadMap.road_dict m ++ [(start, [])]) (RoadMap.loc_dict m))) /\
  (forall m loc,
      exists m', state_of (RoadMap.location_coordinates loc m) = Some m' /\
        only_defaults_added m m' /\
        (Dict.get (RoadMap.loc_dict m) loc <> None -> m' = m) /\
        (Dict.get (RoadMap.loc_dict m) loc = None ->
         m' = RoadMap.mk (RoadMap.connection_dict m) (RoadMap.road_dict m)
                (RoadMap.loc_dict m ++ [(loc, (0, 0)%Q)]))) /\
  (forall m start road_list,
      exists m', state_of (RoadMap.path_cost start road_list m) = Some m' /\
        only_defaults_added m m') /\
  (forall fuel problem repeat_check,
      keeps world_grows (BFS fuel problem repeat_check) /\
      keeps world_grows (DFS fuel problem repeat_check) /\
      keeps world_grows (uniform_cost_search fuel problem repeat_check) /\
      forall h,
        keeps world_grows (greedy_search fuel problem h repeat_check) /\
        keeps world_grows (a_star_search fuel problem h repeat_check)).
Proof.
  split; [|split; [|split; [|split]]].
  - intros m start end_. rewrite get_spec. eexists _, _. split; [reflexivity|].
    split; [|split].
    + repeat split; simpl; try apply defaults_appended_refl. apply setdefault_appended.
    + intros Hp. rewrite setdefault_present by exact Hp. destruct m; reflexivity.
    + intros Ha. rewrite setdefault_absent by exact Ha. reflexivity.
  - intros m start road. rewrite get_result_spec. eexists _, _.
    split; [reflexivity|]. split; [|split].
    + repeat split; simpl; try apply defaults_appended_refl. apply setdefault_appended.
    + intros Hp. rewrite setdefault_present by exact Hp. destruct m; reflexivity.
    + intros Ha. rewrite setdefault_absent by exact Ha. reflexivity.
  - intros m loc. rewrite location_coordinates_spec. cbv zeta.
    exists (RoadMap.mk (RoadMap.connection_dict m) (RoadMap.road_dict m)
              (snd (Dict.setdefault (RoadMap.loc_dict m) loc (0, 0)%Q))).
    split; [destruct (_ && _); reflexivity|]. split; [|split].
    + repeat split; simpl; try apply defaults_appended_refl. apply setdefault_appended.
    + intros Hp. rewrite setdefault_present by exact Hp. destruct m; reflexivity.
    + intros Ha. rewrite setdefault_absent by exact Ha. reflexivity.
  - intros m start road_list. unfold RoadMap.path_cost.
    destruct (path_cost_loop_walk road_list 0%Q start m) as (m' & Hm & ->).
    exists m'. split; [destruct (walk m start road_list); reflexivity | exact Hm].
  - intros fuel problem repeat_check.
    split; [apply keeps_BFS|]. split; [apply keeps_DFS|].
    split; [apply keeps_uniform_cost_search|].
    intros h. split; [apply keeps_greedy_search | apply keeps_a_star_search].
Qed.

(** C4 as stated fails: on the empty map, each lookup for an absent key
    leaves the key behind with a default value. *)
Lemma lookups_insert_absent_keys :
  state_of (RoadMap.get "nowhere" None (RoadMap.init None None None))
    = Some (RoadMap.mk [("nowhere", [])] [] []) /\
  state_of (RoadMap.get_result "nowhere" None (RoadMap.init None None None))
    = Some (RoadMap.mk [] [("nowhere", [])] []) /\
  state_of (RoadMap.location_coordinates "nowhere" (RoadMap.init None None None))
    = Some (RoadMap.mk [] [] [("nowhere", (0, 0)%Q)]) /\
  RoadMap.mk [("nowhere", [])] [] [] <> RoadMap.init None None None /\
  RoadMap.mk [] [("nowhere", [])] [] <> RoadMap.init None None None /\
  RoadMap.mk [] [] [("nowhere", (0, 0)%Q)] <> RoadMap.init None None None.
Proof.
  split; [reflexivity|]. split; [reflexivity|]. split; [reflexivity|].
  split; [discriminate|]. split; discriminate.
Qed.

Lemma lookups_only_add_defaults_witness :
  state_of (RoadMap.get "s" (Some "a") example_map) = Some example_map /\
  state_of (RoadMap.location_coordinates "s" example_map) = Some example_map /\
  state_of (RoadMap.get_result "nowhere" None example_map)
    = Some (RoadMap.mk (RoadMap.connection_dict example_map)
              (RoadMap.road_dict example_map ++ [("nowhere", [])])
              (RoadMap.loc_dict example_map)).
Proof.
  split; [|split].
  - destruct (proj1 (@lookups_only_add_defaults example_builtins)
                example_map "s" (Some "a")) as (v & m' & E & _ & Hsame & _).
    rewrite E. simpl. f_equal. apply Hsame. discriminate.
  - destruct (proj1 (proj2 (proj2 (@lookups_only_add_defaults example_builtins)))
                example_map "s") as (m' & E & _ & Hsame & _).
    rewrite E. f_equal. apply Hsame. discriminate.
  - destruct (proj1 (proj2 (@lookups_only_add_defaults example_builtins))
                example_map "nowhere" None) as (v & m' & E & _ & _ & Hnew).
    rewrite E. simpl. f_equal. apply Hnew. reflexivity.
Defined.

(** ** Maps built by [add_location] and [add_road]

    Every named road of such a map has a cost, and the lookups keep it so. *)

Lemma Dict_get_set {V} (d : Dict.t V) (k k' : string) (v : V) :
  Dict.get (Dict.set d k v) k' = if String.eqb k k' then Some v else Dict.get d k'.
Proof.
  induction d as [|[k0 v0] d IH]; simpl.
  - reflexivity.
  - destruct (String.eqb_spec k0 k) as [->|Hne]; simpl.
    + destruct (String.eqb k k'); reflexivity.
    + rewrite IH. destruct (String.eqb_spec k0 k') as [->|_]; [|reflexivity].
      destruct (String.eqb_spec k k') as [->|_]; [contradiction | reflexivity].
Qed.

Lemma get_or_set_inner {V} (d : Dict.t (Dict.t V)) (start key a : string) (v : V) :
  get_or (RoadMap.set_inner d start key v) a [] =
  if String.eqb start a then Dict.set (get_or d start []) key v else get_or d a [].
Proof.
  unfold RoadMap.set_inner, get_or, Dict.setdefault.
  destruct (Dict.get d start) as [inner|] eqn:E.
  - rewrite Dict_get_set. destruct (String.eqb start a); reflexivity.
  - rewrite Dict_get_set, Dict_get_app. simpl.
    destruct (String.eqb_spec start a) as [->|Hne]; [reflexivity|].
    destruct (Dict.get d a); reflexivity.
Qed.

Lemma add_location_roads_have_costs (loc : string) (x y : Q) (m : RoadMap.t) :
  roads_have_costs m ->
  exists m', RoadMap.add_location loc x y m = Return tt m' /\ roads_have_costs m'.
Proof. intros Hm. eexists. split; [reflexivity | exact Hm]. Qed.

Lemma add_road_roads_have_costs (start end_ : string) (name : option string) (cost : Q)
    (m : RoadMap.t) :
  roads_have_costs m ->
  exists m', RoadMap.add_road start end_ name cost m = Return tt m' /\
             roads_have_costs m'.
Proof.
  intros Hm. eexists. split; [reflexivity|].
  intros a r b. unfold road_end, edge_cost. simpl.
  rewrite get_or_set_inner.
  assert (Hold : Dict.get (get_or (RoadMap.road_dict m) a []) r = Some b ->
                 Dict.get (if String.eqb start a
                           then Dict.set (get_or (RoadMap.connection_dict m) start [])
                                  end_ cost
                           else get_or (RoadMap.connection_dict m) a []) b <> None).
  { intros Hr. specialize (Hm a r b Hr). unfold edge_cost in Hm.
    destruct (String.eqb_spec start a) as [->|_]; [|exact Hm].
    rewrite Dict_get_set. destruct (String.eqb end_ b); [discriminate | exact Hm]. }
  destruct name as [name|]; [|exact Hold].
  rewrite get_or_set_inner.
  destruct (String.eqb_spec start a) as [->|Hne]; [|exact Hold].
  rewrite !Dict_get_set.
  destruct (String.eqb_spec name r) as [->|_].
  - intros [= ->]. rewrite String.eqb_refl. discriminate.
  - intros Hr. specialize (Hold Hr). rewrite Dict_get_set in Hold. exact Hold.
Qed.

Lemma only_defaults_roads_have_costs (m m' : RoadMap.t) :
  only_defaults_added m m' -> roads_have_costs m -> roads_have_costs m'.
Proof.
  intros Hmm Hm a r b.
  rewrite (road_end_only_defaults _ _ _ _ Hmm), (edge_cost_only_defaults _ _ _ _ Hmm).
  apply Hm.
Qed.

(** The calls that build a map. *)
Inductive map_call : M RoadMap.t unit -> Prop :=
| call_add_location loc x y : map_call (RoadMap.add_location loc x y)
| call_add_road start end_ name cost : map_call (RoadMap.add_road start end_ name cost).

Lemma build_roads_have_costs (calls : list (M RoadMap.t unit)) :
  Forall map_call calls -> roads_have_costs (build calls).
Proof.
  unfold build.
  assert (Hgen : forall m, roads_have_costs m -> Forall map_call calls ->
            roads_have_costs
              (fold_left (fun m c => match c m with Return _ m' => m' | _ => m end)
                 calls m)).
  { induction calls as [|c calls IH]; intros m Hm Hc; simpl; [exact Hm|].
    inversion Hc as [|? ? Hcall Hrest]; subst. apply IH; [|exact Hrest].
    destruct Hcall.
    - destruct (add_location_roads_have_costs loc x y m Hm) as (m' & -> & Hm').
      exact Hm'.
    - destruct (add_road_roads_have_costs start end_ name cost m Hm) as (m' & -> & Hm').
      exact Hm'. }
  apply Hgen. intros a r b Hr. discriminate.
Qed.

(** * Further properties of the code *)

(** ** RoadMap: what is added is found *)

Lemma get_value (m : RoadMap.t) (a b : string) :
  value_of (RoadMap.get a (Some b) m) = Some (Entry (edge_cost m a b)).
Proof. rewrite get_spec. reflexivity. Qed.

Lemma get_result_value (m : RoadMap.t) (a r : string) :
  value_of (RoadMap.get_result a (Some r) m) = Some (Entry (road_end m a r)).
Proof. rewrite get_result_spec. reflexivity. Qed.

(** X1. [add_road] followed by the lookups: [get] finds the cost under
    (start, end), [get_result] finds the end under (start, name) when the
    road is named, every other cost and every other named road is found as
    before, and the coordinates are not touched. *)
Theorem add_road_then_lookup (m : RoadMap.t) (start end_ : string)
    (name : option string) (cost : Q) :
  exists m1, RoadMap.add_road start end_ name cost m = Return tt m1 /\
    value_of (RoadMap.get start (Some end_) m1) = Some (Entry (Some cost)) /\
    (forall n, name = Some n ->
       value_of (RoadMap.get_result start (Some n) m1) = Some (Entry (Some end_))) /\
    (forall a b, a <> start \/ b <> end_ ->
       value_of (RoadMap.get a (Some b) m1) = value_of (RoadMap.get a (Some b) m)) /\
    (forall a r, a <> start \/ name <> Some r ->
       value_of (RoadMap.get_result a (Some r) m1)
       = value_of (RoadMap.get_result a (Some r) m)) /\
    RoadMap.loc_dict m1 = RoadMap.loc_dict m.
Proof.
  eexists. split; [reflexivity|].
  rewrite !get_value.
  split; [|split; [|split; [|split]]].
  - unfold edge_cost. simpl. rewrite get_or_set_inner, String.eqb_refl, Dict_get_set,
      String.eqb_refl. reflexivity.
  - intros n ->. rewrite get_result_value. unfold road_end. simpl.
    rewrite get_or_set_inner, String.eqb_refl, Dict_get_set, String.eqb_refl.
    reflexivity.
  - intros a b Hab. rewrite !get_value. unfold edge_cost. simpl.
    rewrite get_or_set_inner.
    destruct (String.eqb_spec start a) as [<-|Hne]; [|reflexivity].
    rewrite Dict_get_set.
    destruct (String.eqb_spec end_ b) as [<-|_]; [|reflexivity].
    destruct Hab; congruence.
  - intros a r Har. rewrite !get_result_value. unfold road_end. simpl.
    destruct name as [n|]; [|reflexivity].
    rewrite get_or_set_inner.
    destruct (String.eqb_spec start a) as [<-|Hne]; [|reflexivity].
    rewrite Dict_get_set.
    destruct (String.eqb_spec n r) as [<-|_]; [|reflexivity].
    destruct Har; congruence.
  - reflexivity.
Qed.

Lemma Dict_set_keys_In {V} (d : Dict.t V) (k : string) (v : V) :
  In k (Dict.keys (Dict.set d k v)).
Proof.
  induction d as [|[k' v'] d IH]; simpl; [left; reflexivity|].
  destruct (String.eqb_spec k' k) as [->|_]; simpl; [left; reflexivity | right; exact IH].
Qed.

Lemma Dict_set_keys_length {V} (d : Dict.t V) (k : string) (v : V) :
  length (Dict.keys (Dict.set d k v)) =
  match Dict.get d k with
  | Some _ => length (Dict.keys d)
  | None => S (length (Dict.keys d))
  end.
Proof.
  induction d as [|[k' v'] d IH]; simpl; [reflexivity|].
  destruct (String.eqb k' k); simpl; [reflexivity|].
  rewrite IH. destruct (Dict.get d k); reflexivity.
Qed.

(** X2. [add_location] followed by the lookups: the location is listed by
    [locations], once more than before only when it is new;
    [location_coordinates] returns the pair just stored and leaves the map
    as it is when neither coordinate is zero, and reports the location as
    unknown when one is; every other location answers as before. *)
Theorem add_location_then_coordinates (m : RoadMap.t) (loc : string) (x y : Q) :
  exists m1, RoadMap.add_location loc x y m = Return tt m1 /\
    (exists locs, RoadMap.locations m1 = Return locs m1 /\ In loc locs /\
       length locs = match Dict.get (RoadMap.loc_dict m) loc with
                     | Some _ => length (Dict.keys (RoadMap.loc_dict m))
                     | None => S (length (Dict.keys (RoadMap.loc_dict m)))
                     end) /\
    RoadMap.location_coordinates loc m1 =
      (if truthy x && truthy y then Return (x, y) m1
       else Raise (UnknownLocation loc) m1) /\
    (forall loc', loc' <> loc ->
       match RoadMap.location_coordinates loc' m1, RoadMap.location_coordinates loc' m with
       | Return p1 _, Return p _ => p1 = p
       | Raise e1 _, Raise e _ => e1 = e
       | _, _ => False
       end).
Proof.
  eexists. split; [reflexivity|]. split; [|split].
  - eexists. split; [reflexivity|]. simpl.
    split; [apply Dict_set_keys_In | apply Dict_set_keys_length].
  - rewrite location_coordinates_spec. cbv zeta. unfold get_or. simpl.
    rewrite Dict_get_set, String.eqb_refl. simpl.
    rewrite setdefault_present by (rewrite Dict_get_set, String.eqb_refl; discriminate).
    reflexivity.
  - intros loc' Hne. rewrite !location_coordinates_spec. cbv zeta. unfold get_or. simpl.
    rewrite Dict_get_set.
    destruct (String.eqb_spec loc loc') as [->|_]; [congruence|].
    destruct (_ && _); reflexivity.
Qed.

(** ** path_cost: joining paths, and what a valid path leaves behind *)

Lemma fold_costs_shift (m : RoadMap.t) (segments : list (string * string)) :
  forall total : Q,
  (fold_left (fun total e => (total + segment_cost m e)%Q) segments total
   == total + sum_costs m segments)%Q.
Proof.
  unfold sum_costs.
  induction segments as [|e segments IH]; intros total; simpl.
  - ring.
  - rewrite (IH (total + segment_cost m e)%Q), (IH (0 + segment_cost m e)%Q). ring.
Qed.

Lemma sum_costs_app (m : RoadMap.t) (s1 s2 : list (string * string)) :
  (sum_costs m (s1 ++ s2) == sum_costs m s1 + sum_costs m s2)%Q.
Proof.
  unfold sum_costs at 1. rewrite fold_left_app.
  fold (sum_costs m s1). apply fold_costs_shift.
Qed.

(** X3. The cost of a joined path, on a map where every named road has a
    cost: when the first part resolves, [path_cost] of the whole list is
    0.0 if the rest does not resolve from where the first part ends, and
    otherwise what the loop reaches by adding the costs of the segments of
    the rest, one after the other in their order, to [path_cost] of the
    first part. *)
Theorem path_cost_app (m : RoadMap.t) (start : string) (prefix rest : list string)
    (segments : list (string * string)) :
  roads_have_costs m ->
  resolve m start prefix = Some segments ->
  exists c1,
    value_of (RoadMap.path_cost start prefix m) = Some c1 /\
    value_of (RoadMap.path_cost start (prefix ++ rest) m) =
      Some (match resolve m (end_of start segments) rest with
            | Some segments_rest =>
                fold_left (fun total e => (total + segment_cost m e)%Q) segments_rest c1
            | None => 0%Q
            end).
Proof.
  intros Hm Hp.
  rewrite !(path_cost_value _ _ _ Hm), Hp, (resolve_app _ _ _ _ _ Hp).
  eexists. split; [reflexivity|].
  destruct (resolve m (end_of start segments) rest) as [segments_rest|]; simpl.
  - unfold sum_costs. rewrite fold_left_app. reflexivity.
  - reflexivity.
Qed.

Lemma path_cost_app_witness :
  exists c1,
    value_of (RoadMap.path_cost "s" ["sb"] example_map) = Some c1 /\
    value_of (RoadMap.path_cost "s" (["sb"] ++ ["ba"; "ag"]) example_map) =
      Some (match resolve example_map (end_of "s" [("s", "b")]) ["ba"; "ag"] with
            | Some segments_rest =>
                fold_left (fun total e => (total + segment_cost example_map e)%Q)
                  segments_rest c1
            | None => 0%Q
            end).
Proof.
  exact (path_cost_app example_map "s" ["sb"] ["ba"; "ag"] [("s", "b")]
           (roads_have_costs_b_sound example_map eq_refl) eq_refl).
Defined.

Lemma road_end_present (m : RoadMap.t) (loc road next_loc : string) :
  road_end m loc road = Some next_loc -> Dict.get (RoadMap.road_dict m) loc <> None.
Proof.
  unfold road_end, get_or. destruct (Dict.get (RoadMap.road_dict m) loc);
    [discriminate | simpl; discriminate].
Qed.

Lemma edge_cost_present (m : RoadMap.t) (a b : string) :
  edge_cost m a b <> None -> Dict.get (RoadMap.connection_dict m) a <> None.
Proof.
  unfold edge_cost, get_or. destruct (Dict.get (RoadMap.connection_dict m) a);
    [discriminate | simpl; congruence].
Qed.

Lemma path_cost_loop_valid (m : RoadMap.t) (road_list : list string) :
  roads_have_costs m ->
  forall (loc : string) (total : Q),
  resolve m loc road_list <> None ->
  state_of (RoadMap.path_cost_loop road_list total loc m) = Some m.
Proof.
  intros Hm. induction road_list as [|road rest IH]; intros loc total Hr; simpl in *.
  - reflexivity.
  - destruct (road_end m loc road) as [next_loc|] eqn:E; [|congruence].
    unfold bind. rewrite get_result_spec.
    rewrite setdefault_present by (eapply road_end_present; exact E).
    fold (road_end m loc road). rewrite E.
    replace (RoadMap.mk (RoadMap.connection_dict m) (RoadMap.road_dict m)
               (RoadMap.loc_dict m)) with m by (destruct m; reflexivity).
    rewrite get_spec.
    rewrite setdefault_present by (apply (edge_cost_present m loc next_loc), (Hm _ _ _ E)).
    fold (edge_cost m loc next_loc).
    replace (RoadMap.mk (RoadMap.connection_dict m) (RoadMap.road_dict m)
               (RoadMap.loc_dict m)) with m by (destruct m; reflexivity).
    destruct (edge_cost m loc next_loc) as [c|] eqn:Ec.
    2:{ exfalso. exact (Hm _ _ _ E Ec). }
    apply IH. destruct (resolve m next_loc rest); [discriminate | exact Hr].
Qed.

(** X4. On a map where every named road has a cost, [path_cost] of a road
    list that resolves leaves the map exactly as it was: no default entry
    is added.  A list that stops at a location without roads leaves that
    location behind in [road_dict]. *)
Theorem path_cost_valid_keeps_map (m : RoadMap.t) (start : string)
    (road_list : list string) :
  roads_have_costs m ->
  (resolve m start road_list <> None ->
   state_of (RoadMap.path_cost start road_list m) = Some m) /\
  (forall road rest, road_list = road :: rest ->
     Dict.get (RoadMap.road_dict m) start = None ->
     RoadMap.path_cost start road_list m =
     Return 0%Q (RoadMap.mk (RoadMap.connection_dict m)
                   (RoadMap.road_dict m ++ [(start, [])]) (RoadMap.loc_dict m))).
Proof.
  intros Hm. split.
  - apply path_cost_loop_valid. exact Hm.
  - intros road rest -> Hnone. unfold RoadMap.path_cost. simpl. unfold bind.
    rewrite get_result_spec. unfold get_or. rewrite Hnone. simpl.
    rewrite setdefault_absent by exact Hnone. reflexivity.
Qed.

Lemma path_cost_valid_keeps_map_witness :
  state_of (RoadMap.path_cost "s" ["sb"; "ba"; "ag"] example_map) = Some example_map.
Proof.
  apply (path_cost_valid_keeps_map example_map "s" ["sb"; "ba"; "ag"]
           (roads_have_costs_b_sound example_map eq_refl)).
  discriminate.
Defined.

(** ** euclidean_distance *)

Lemma square_of_difference_swap (x y : Q) :
  ((x - y) * (x - y))%Q = ((y - x) * (y - x))%Q.
Proof.
  destruct x as [a b], y as [c d].
  unfold Qminus, Qplus, Qmult, Qopp. simpl. f_equal; [ring | lia].
Qed.

(** X5. The distance is symmetric: for two locations with usable
    coordinates, [euclidean_distance] returns the same number in either
    order, and leaves the map as it is. *)
Theorem euclidean_distance_symmetric `{builtins} (m : RoadMap.t) (loc0 loc1 : string) :
  coords_ok m loc0 -> coords_ok m loc1 ->
  exists d,
    RoadMap.euclidean_distance loc0 loc1 m = Return d m /\
    RoadMap.euclidean_distance loc1 loc0 m = Return d m.
Proof.
  intros H0 H1. exists (distance m loc0 loc1).
  rewrite (euclidean_distance_ok m loc0 loc1 H0 H1),
    (euclidean_distance_ok m loc1 loc0 H1 H0).
  split; [reflexivity|]. unfold distance.
  destruct (coords m loc0) as [x0 y0], (coords m loc1) as [x1 y1].
  rewrite (square_of_difference_swap x1 x0), (square_of_difference_swap y1 y0).
  reflexivity.
Qed.

Lemma euclidean_distance_symmetric_witness :
  exists d,
    @RoadMap.euclidean_distance example_builtins "s" "g" example_map
      = Return d example_map /\
    @RoadMap.euclidean_distance example_builtins "g" "s" example_map
      = Return d example_map.
Proof.
  apply (@euclidean_distance_symmetric example_builtins example_map "s" "g").
  - eexists _, _. split; [reflexivity | split; reflexivity].
  - eexists _, _. split; [reflexivity | split; reflexivity].
Defined.

(** ** Frontier: membership, lookup, deletion *)

Lemma existsb_perm {A} (p : A -> bool) (l1 l2 : list A) :
  Permutation l1 l2 -> existsb p l1 = existsb p l2.
Proof.
  induction 1 as [|x l1 l2 _ IH|x y l|l1 l2 l3 _ IH1 _ IH2]; simpl.
  - reflexivity.
  - rewrite IH. reflexivity.
  - destruct (p x), (p y); reflexivity.
  - congruence.
Qed.

Lemma lookup_In {A} (l : list A) (i : nat) (x : A) : l !! i = Some x -> In x l.
Proof.
  revert i. induction l as [|a l IH]; intros [|i]; simpl; try discriminate.
  - intros [= ->]. left. reflexivity.
  - intros Hx. right. exact (IH i Hx).
Qed.

(** The first entry of the fringe that matches the query is at [i]. *)
Definition first_match (query : Node.t) (fringe : list (Q * Node.t)) (i : nat)
    (e : Q * Node.t) : Prop :=
  fringe !! i = Some e /\ Node.loc (snd e) = Node.loc query /\
  forall j e', j < i -> fringe !! j = Some e' -> Node.loc (snd e') <> Node.loc query.

Lemma index_of_first_match (query : Node.t) (fringe : list (Q * Node.t)) :
  match Frontier.index_of query fringe with
  | Some i => exists e, first_match query fringe i e /\
                        find (fun e => Node.eq (snd e) query) fringe = Some e
  | None => existsb (fun e => Node.eq (snd e) query) fringe = false /\
            find (fun e => Node.eq (snd e) query) fringe = None
  end.
Proof.
  induction fringe as [|e fringe IH]; simpl; [split; reflexivity|].
  destruct (Node.eq (snd e) query) eqn:E.
  - exists e. split; [|reflexivity]. split; [reflexivity|]. split.
    + apply Node_eq_iff. exact E.
    + intros j e' Hj. lia.
  - destruct (Frontier.index_of query fringe) as [i|]; simpl.
    + destruct IH as (e0 & (Hi & Hloc & Hfirst) & Hfind).
      exists e0. split; [|exact Hfind]. split; [exact Hi|]. split; [exact Hloc|].
      intros [|j] e' Hj He'; simpl in He'.
      * injection He' as <-. intros Hl. apply Node_eq_iff in Hl. congruence.
      * apply (Hfirst j e'); [lia | exact He'].
    + exact IH.
Qed.

(** X6. Membership and lookup agree.  When no node of the frontier is at
    the query's location, [contains] is False and both [frontier[query]]
    and [del frontier[query]] raise KeyError, leaving the frontier as it
    is.  Otherwise [contains] is True and [frontier[query]] returns the key
    of the first entry of the fringe at that location, leaving the
    frontier as it is. *)
Theorem Frontier_lookup_agrees_with_contains (F : Frontier.t) (query : Node.t) :
  (Frontier.contains F query = false /\
   Forall (fun e => Node.loc (snd e) <> Node.loc query) (Frontier.fringe F) /\
   Frontier.getitem query F = Raise KeyError F /\
   Frontier.delitem query F = Raise KeyError F) \/
  (Frontier.contains F query = true /\
   exists i value n,
     first_match query (Frontier.fringe F) i (value, n) /\
     Frontier.getitem query F = Return value F).
Proof.
  unfold Frontier.contains, Frontier.contains_, Frontier.getitem, Frontier.delitem.
  pose proof (index_of_first_match query (Frontier.fringe F)) as H.
  destruct (Frontier.index_of query (Frontier.fringe F)) as [i|].
  - right. destruct H as ([value n] & Hfirst & Hfind). rewrite Hfind. split.
    + apply List.existsb_exists. exists (value, n). split.
      * destruct Hfirst as (Hi & _). exact (lookup_In _ _ _ Hi).
      * apply Node_eq_iff. apply Hfirst.
    + exists i, value, n. split; [exact Hfirst | reflexivity].
  - left. destruct H as (Hex & Hfind). rewrite Hfind.
    split; [exact Hex|]. split; [|split; reflexivity].
    apply List.Forall_forall. intros e He Hloc.
    assert (Ht : existsb (fun e => Node.eq (snd e) query) (Frontier.fringe F) = true).
    { apply List.existsb_exists. exists e. split; [exact He|].
      apply Node_eq_iff. exact Hloc. }
    congruence.
Qed.

Lemma delete_perm {A} (l : list A) (i : nat) (x : A) :
  l !! i = Some x -> Permutation l (x :: delete i l).
Proof.
  revert i. induction l as [|a l IH]; intros [|i]; simpl; try discriminate.
  - intros [= ->]. reflexivity.
  - intros Hx. rewrite (IH i Hx) at 1. apply perm_swap.
Qed.

(** X7. [del frontier[query]], when some node of the frontier is at the
    query's location: the first entry of the fringe at that location is
    removed and every other entry is kept, so the frontier is one shorter;
    the fringe is left an ordered heap, and the entries keep their keys. *)
Theorem Frontier_delitem_removes_first_match (F : Frontier.t) (query : Node.t) :
  Frontier.contains F query = true ->
  exists i e F',
    first_match query (Frontier.fringe F) i e /\
    Frontier.delitem query F = Return tt F' /\
    Frontier.sort_by F' = Frontier.sort_by F /\
    Permutation (Frontier.fringe F') (delete i (Frontier.fringe F)) /\
    Permutation (e :: Frontier.fringe F') (Frontier.fringe F) /\
    Frontier.len F' + 1 = Frontier.len F /\
    heap_ordered Frontier.entry_lt (Frontier.fringe F') /\
    (Frontier_wf F -> Frontier_wf F').
Proof.
  intros Hc. unfold Frontier.contains, Frontier.contains_ in Hc.
  pose proof (index_of_first_match query (Frontier.fringe F)) as H.
  destruct (Frontier.index_of query (Frontier.fringe F)) as [i|] eqn:Ei.
  2:{ destruct H as [H _]. congruence. }
  destruct H as (e & Hfirst & _).
  assert (Hdel : Frontier.delitem query F =
                 Return tt (Frontier.mk (Frontier.sort_by F)
                              (heapq.heapify Frontier.entry_lt
                                 (delete i (Frontier.fringe F))))).
  { unfold Frontier.delitem. rewrite Ei. reflexivity. }
  eexists i, e, _. split; [exact Hfirst|]. split; [exact Hdel|]. simpl.
  assert (Hp : Permutation (e :: heapq.heapify Frontier.entry_lt
                                   (delete i (Frontier.fringe F)))
                 (Frontier.fringe F)).
  { rewrite heapify_perm. symmetry. apply delete_perm. apply Hfirst. }
  split; [reflexivity|]. split; [apply heapify_perm|]. split; [exact Hp|]. split.
  - unfold Frontier.len. simpl. apply Permutation_length in Hp. simpl in Hp. lia.
  - split.
    + apply heapify_ordered; [exact entry_lt_asym | exact entry_lt_le_trans].
    + intros Hwf. exact (Frontier_delitem_wf F query _ Hwf Hdel).
Qed.

Lemma Frontier_delitem_removes_first_match_witness :
  exists i e F',
    first_match (node_a 7) (Frontier.fringe (Frontier.init (node_a 5) (Metric "g"))) i e /\
    Frontier.delitem (node_a 7) (Frontier.init (node_a 5) (Metric "g")) = Return tt F' /\
    Frontier.sort_by F' = Frontier.sort_by (Frontier.init (node_a 5) (Metric "g")) /\
    Permutation (Frontier.fringe F')
      (delete i (Frontier.fringe (Frontier.init (node_a 5) (Metric "g")))) /\
    Permutation (e :: Frontier.fringe F')
      (Frontier.fringe (Frontier.init (node_a 5) (Metric "g"))) /\
    Frontier.len F' + 1 = Frontier.len (Frontier.init (node_a 5) (Metric "g")) /\
    heap_ordered Frontier.entry_lt (Frontier.fringe F') /\
    (Frontier_wf (Frontier.init (node_a 5) (Metric "g")) -> Frontier_wf F').
Proof.
  apply (Frontier_delitem_removes_first_match
           (Frontier.init (node_a 5) (Metric "g")) (node_a 7)).
  reflexivity.
Defined.

(** ** Frontier: add and pop *)

Lemma contains_nodes_of (F : Frontier.t) (query : Node.t) :
  Frontier.contains F query = existsb (fun n => Node.eq n query) (nodes_of F).
Proof.
  unfold Frontier.contains, Frontier.contains_, nodes_of.
  induction (Frontier.fringe F) as [|e l IH]; simpl; [reflexivity|].
  rewrite IH. reflexivity.
Qed.

(** The nodes an [add] is given. *)
Definition nodes_given (nodes : node_or_list) : list Node.t :=
  match nodes with One n => [n] | Many ns => ns end.

(** X8. [add] of a node or of a list of nodes: the frontier grows by the
    number of nodes given, holds the nodes it held and the nodes given,
    [contains] answers True for exactly the locations it answered True for
    before and the locations of the nodes given, and the fringe stays an
    ordered heap with every node under the key of the frontier's metric. *)
Theorem Frontier_add_grows (F : Frontier.t) (nodes : node_or_list) :
  exists F', Frontier.add nodes F = Return tt F' /\
    Frontier.sort_by F' = Frontier.sort_by F /\
    Frontier.len F' = Frontier.len F + length (nodes_given nodes) /\
    Permutation (nodes_of F') (nodes_of F ++ nodes_given nodes) /\
    (forall query, Frontier.contains F' query =
                   Frontier.contains F query || Node.elem query (nodes_given nodes)) /\
    (Frontier_wf F -> Frontier_wf F').
Proof.
  assert (Hgen : exists F', Frontier.add nodes F = Return tt F' /\
            Frontier.sort_by F' = Frontier.sort_by F /\
            Permutation (nodes_of F') (nodes_of F ++ nodes_given nodes) /\
            (Frontier_wf F -> Frontier_wf F')).
  { destruct nodes as [n|ns]; cbn [nodes_given].
    - destruct (Frontier_add_One n F) as (F' & E & Hs & Hp & Hw).
      exists F'. split; [exact E|]. split; [exact Hs|]. split; [|exact Hw].
      unfold nodes_of. rewrite Hp. simpl. apply Permutation_cons_append.
    - rewrite Frontier_add_Many.
      destruct (push_each_spec ns F) as (F' & E & Hs & Hp & Hw).
      exists F'. split; [exact E|]. split; [exact Hs|]. split; [exact Hp | exact Hw]. }
  destruct Hgen as (F' & E & Hs & Hp & Hw).
  exists F'. split; [exact E|]. split; [exact Hs|]. split; [|split; [exact Hp|split]].
  - apply Permutation_length in Hp. unfold nodes_of in Hp.
    rewrite length_app, !length_map in Hp. exact Hp.
  - intros query. rewrite !contains_nodes_of. unfold Node.elem.
    rewrite (existsb_perm _ _ _ Hp), existsb_app. reflexivity.
  - exact Hw.
Qed.

Lemma pops_before_of_entry_le (sort_by : sort_key) (a b : Q * Node.t) :
  fst a = Node.value (snd a) sort_by -> fst b = Node.value (snd b) sort_by ->
  entry_le a b -> pops_before sort_by (snd a) (snd b).
Proof. unfold entry_le, pops_before. intros <- <-. auto. Qed.

(** The node [pop] returns stands before every node it leaves. *)
Lemma Frontier_pop_least (F : Frontier.t) (n : Node.t) (F' : Frontier.t) :
  Frontier_wf F -> Frontier.pop F = Return n F' ->
  Forall (pops_before (Frontier.sort_by F) n) (nodes_of F').
Proof.
  intros [Hh Hk]. unfold Frontier.pop.
  destruct (heapq.heappop Frontier.entry_lt (Frontier.fringe F)) as [[e rest]|] eqn:Hpop;
    [|discriminate].
  intros [= <- <-].
  pose proof (heappop_perm _ _ _ _ Hpop) as Hp.
  destruct (heappop_ordered Frontier.entry_lt entry_lt_asym entry_lt_le_trans
              _ _ _ Hh Hpop) as [_ Hmin].
  rewrite <- Hp in Hk. inversion Hk as [|? ? Hke Hkrest]; subst.
  unfold nodes_of. simpl. apply Forall_map.
  rewrite Forall_forall in Hmin, Hkrest |- *. intros x Hx.
  apply (pops_before_of_entry_le _ e x Hke (Hkrest x Hx)).
  apply entry_lt_false_iff. apply Hmin. exact Hx.
Qed.

(** X9. [pop]: on an empty frontier it raises and leaves the frontier
    empty; otherwise it returns a node of the frontier and keeps all the
    others, so the frontier is one shorter.  When the fringe is an ordered
    heap keyed by the frontier's metric it stays one, and the node
    returned has the least key, and the least location among the nodes
    with that key. *)
Theorem Frontier_pop_outcome (F : Frontier.t) :
  (Frontier.is_empty F = true -> Frontier.pop F = Raise EmptyFrontier F) /\
  (Frontier.is_empty F = false ->
   exists n F', Frontier.pop F = Return n F' /\
     Frontier.sort_by F' = Frontier.sort_by F /\
     Frontier.len F' + 1 = Frontier.len F /\
     Permutation (n :: nodes_of F') (nodes_of F) /\
     (Frontier_wf F ->
      Frontier_wf F' /\
      Forall (pops_before (Frontier.sort_by F) n) (nodes_of F'))).
Proof.
  split.
  - unfold Frontier.is_empty, Frontier.pop.
    destruct (Frontier.fringe F); [reflexivity | discriminate].
  - intros Hne. apply Frontier_is_empty_false in Hne.
    destruct (Frontier_pop_spec F Hne) as (e & rest & E & Hpop & Hp).
    eexists _, _. split; [exact E|]. simpl. split; [reflexivity|]. split; [|split].
    + unfold Frontier.len. simpl. apply Permutation_length in Hp. simpl in Hp. lia.
    + unfold nodes_of. simpl. rewrite <- Hp. reflexivity.
    + intros Hwf. split; [exact (Frontier_pop_wf F _ _ Hwf E)|].
      exact (Frontier_pop_least F _ _ Hwf E).
Qed.

(** ** Node: paths and solutions *)

Lemma backwards_path_eq (n : Node.t) :
  Node.backwards_path n =
  n :: match Node.parent n with Some p => Node.backwards_path p | None => [] end.
Proof. destruct n; reflexivity. Qed.

Lemma path_nonempty (n : Node.t) : exists first rest, Node.path n = first :: rest.
Proof.
  unfold Node.path. rewrite backwards_path_eq. simpl.
  destruct (rev _) as [|a l]; simpl; eauto.
Qed.

Lemma solution_of_child (n : Node.t) (loc : string) (road : option string)
    (path_cost h_eval : Q) (h_fun : option HeuristicFunction.t) :
  Node.solution (Node.init loc (Some n) road path_cost h_eval h_fun)
  = Node.solution n ++ [road].
Proof.
  unfold Node.solution, Node.path.
  rewrite (backwards_path_eq (Node.init loc (Some n) road path_cost h_eval h_fun)).
  cbn [Node.parent Node.init rev].
  fold (Node.path n). destruct (path_nonempty n) as (first & rest & ->). simpl.
  rewrite map_app. reflexivity.
Qed.

(** X10. The two views of the way to a node agree, for every node: [path]
    ends with the node itself and is one longer than [solution];
    [solution_with_roads] lists, for each node of the path, its road and its
    location, so that dropping the root's pair and keeping the roads gives
    [solution].  A node created with a parent extends the parent's path,
    solution and depth by one; a node without a parent is its own path and
    has the empty solution. *)
Theorem Node_path_and_solution (n : Node.t) :
  List.last (Node.path n) n = n /\
  length (Node.path n) = S (length (Node.solution n)) /\
  Node.solution_with_roads n = map (fun x => (Node.road x, Node.loc x)) (Node.path n) /\
  map fst (tail (Node.solution_with_roads n)) = Node.solution n /\
  (forall loc road path_cost h_eval h_fun,
     let c := Node.init loc (Some n) road path_cost h_eval h_fun in
     Node.path c = Node.path n ++ [c] /\
     Node.solution c = Node.solution n ++ [road] /\
     Node.solution_with_roads c = Node.solution_with_roads n ++ [(road, loc)] /\
     Node.depth c = Node.depth n + 1) /\
  (forall loc road path_cost h_eval h_fun,
     let r := Node.init loc None road path_cost h_eval h_fun in
     Node.path r = [r] /\ Node.solution r = [] /\ Node.depth r = 0).
Proof.
  assert (Hsw : Node.solution_with_roads n =
                map (fun x => (Node.road x, Node.loc x)) (Node.path n)).
  { unfold Node.solution_with_roads, Node.path. rewrite map_rev. reflexivity. }
  split; [|split; [|split; [exact Hsw | split; [|split]]]].
  - unfold Node.path. rewrite backwards_path_eq. simpl. apply last_last.
  - unfold Node.solution. rewrite length_map.
    destruct (path_nonempty n) as (first & rest & ->). reflexivity.
  - rewrite Hsw. unfold Node.solution.
    destruct (path_nonempty n) as (first & rest & ->). simpl.
    rewrite map_map. reflexivity.
  - intros loc road path_cost h_eval h_fun c.
    assert (Hp : Node.path c = Node.path n ++ [c]).
    { unfold Node.path. rewrite (backwards_path_eq c). reflexivity. }
    split; [exact Hp|]. split; [|split; [|reflexivity]].
    + apply solution_of_child.
    + unfold Node.solution_with_roads. rewrite (backwards_path_eq c). reflexivity.
  - intros loc road path_cost h_eval h_fun r. repeat split; reflexivity.
Qed.

(** ** Node.expand: the children of a node *)

Section children_of_a_node.
Context `{builtins}.
Variable m0 : RoadMap.t.
Hypothesis m0_costs : roads_have_costs m0.

Lemma coords_only_defaults (m : RoadMap.t) (loc : string) :
  only_defaults_added m0 m -> coords m loc = coords m0 loc.
Proof.
  intros (_ & _ & Hl). unfold coords. apply defaults_appended_get_or. exact Hl.
Qed.

Lemma distance_only_defaults (m : RoadMap.t) (a b : string) :
  only_defaults_added m0 m -> distance m a b = distance m0 a b.
Proof.
  intros Hm. unfold distance. rewrite !(coords_only_defaults m _ Hm). reflexivity.
Qed.

(** What [h_cost] computes at [loc] on the map the search started on. *)
Definition h_value (h : HeuristicFunction.t) (loc : string) : Q :=
  match HeuristicFunction.goal h with
  | Some g => (distance m0 loc g / HeuristicFunction.efficientGas h)%Q
  | None => 0%Q
  end.

Lemma h_cost_value (m : RoadMap.t) (h : HeuristicFunction.t) (loc : string) :
  only_defaults_added m0 m -> h_defined_at m0 h loc ->
  HeuristicFunction.h_cost h (Some loc) m = Return (h_value h loc) m.
Proof.
  intros Hm ((g & Hg & Hcg) & Hcl & Hz).
  unfold HeuristicFunction.h_cost, h_value. rewrite Hg. unfold bind.
  rewrite (euclidean_distance_ok m loc g)
    by (eapply coords_ok_only_defaults; eassumption).
  unfold HeuristicFunction.py_div. rewrite Hz.
  rewrite (distance_only_defaults m _ _ Hm). reflexivity.
Qed.

(** [c] is the node [child_node] builds from [n] for the road [road]. *)
Definition child_via (n : Node.t) (road : string) (c : Node.t) : Prop :=
  exists child_loc cost,
    road_end m0 (Node.loc n) road = Some child_loc /\
    edge_cost m0 (Node.loc n) child_loc = Some cost /\
    c = Node.init child_loc (Some n) (Some road) (Node.path_cost n + cost)%Q
          (match Node.h_fun n with Some h => h_value h child_loc | None => 0%Q end)
          (Node.h_fun n).

Lemma child_via_child_of (n : Node.t) (road : string) (c : Node.t) :
  child_via n road c -> child_of m0 n c.
Proof.
  intros (child_loc & cost & Hr & _ & ->).
  split; [reflexivity|]. split; [reflexivity|]. exists road. exact Hr.
Qed.

Lemma child_node_via (n : Node.t) (problem : RouteProblem.t) (road : string)
    (w : World) :
  only_defaults_added m0 (the_map w) -> h_fun_ok m0 n ->
  In road (roads_of m0 (Node.loc n)) ->
  exists c m',
    Node.child_node n problem road None w
      = Return c (mkWorld m' (node_expansion_count w)) /\
    only_defaults_added m0 m' /\ child_via n road c.
Proof using m0_costs.
  intros Hw Hh Hroad.
  apply Dict_keys_get in Hroad. destruct Hroad as [child_loc Hr].
  fold (road_end m0 (Node.loc n) road) in Hr.
  unfold Node.child_node, RouteProblem.result, RouteProblem.action_cost, bind.
  destruct (get_result_inv m0 _ (Node.loc n) (Some road) Hw) as (m1 & E1 & H1).
  rewrite (on_map_Return _ _ _ _ E1). rewrite Hr. cbn [ret the_map].
  destruct (get_inv m0 m1 (Node.loc n) (Some child_loc) H1) as (m2 & E2 & H2).
  rewrite (on_map_Return _ (mkWorld m1 _) _ _ E2).
  destruct (edge_cost m0 (Node.loc n) child_loc) as [c|] eqn:Ec.
  2:{ exfalso. exact (m0_costs _ _ _ Hr Ec). }
  unfold h_fun_ok in Hh. unfold child_via.
  destruct (Node.h_fun n) as [h|] eqn:Ehf.
  - rewrite (on_map_Return _ (mkWorld m2 _) _ _
               (h_cost_value m2 h child_loc H2 (Hh _ _ Hr))).
    cbn [ret node_expansion_count].
    eexists _, m2. split; [reflexivity|]. split; [exact H2|].
    exists child_loc, c. split; [exact Hr|]. split; [exact Ec | reflexivity].
  - cbn [ret node_expansion_count].
    eexists _, m2. split; [reflexivity|]. split; [exact H2|].
    exists child_loc, c. split; [exact Hr|]. split; [exact Ec | reflexivity].
Qed.

Lemma expand_children_below (n : Node.t) (problem : RouteProblem.t) (w : World) :
  only_defaults_added m0 (the_map w) -> h_fun_ok m0 n ->
  Node.depth n < depth_limit ->
  exists children m',
    Node.expand n problem w
      = Return children (mkWorld m' (node_expansion_count w + 1)) /\
    only_defaults_added m0 m' /\
    Forall2 (child_via n) (roads_of m0 (Node.loc n)) children.
Proof using m0_costs.
  intros Hw Hh Hd. unfold Node.expand.
  apply Nat.leb_gt in Hd. rewrite Hd.
  unfold RouteProblem.actions, bind.
  destruct (get_result_inv m0 _ (Node.loc n) None Hw) as (m1 & E1 & H1).
  rewrite (on_map_Return _ (mkWorld (the_map w) _) _ _ E1). cbn [ret].
  fold (roads_of m0 (Node.loc n)). cbn [node_expansion_count].
  assert (Hloop : forall roads done acc m,
    only_defaults_added m0 m ->
    (forall road, In road roads -> In road (roads_of m0 (Node.loc n))) ->
    Forall2 (child_via n) done acc ->
    exists children m',
      for_each roads
        (fun children road =>
           bind (Node.child_node n problem road None)
             (fun child => ret (children ++ [child]))) acc
        (mkWorld m (node_expansion_count w + 1))
      = Return children (mkWorld m' (node_expansion_count w + 1)) /\
      only_defaults_added m0 m' /\
      Forall2 (child_via n) (done ++ roads) children).
  { induction roads as [|road roads IH]; intros done acc m Hm Hin Hacc; simpl.
    - eexists _, _. split; [reflexivity|]. split; [exact Hm|].
      rewrite app_nil_r. exact Hacc.
    - destruct (child_node_via n problem road (mkWorld m (node_expansion_count w + 1))
                  Hm Hh (Hin road (or_introl eq_refl)))
        as (c & m2 & Ec & Hm2 & Hc).
      unfold bind at 1. unfold bind at 1. rewrite Ec. cbn [ret node_expansion_count].
      destruct (IH (done ++ [road]) (acc ++ [c]) m2 Hm2) as (children & m' & E & Hm' & Hch).
      + intros r Hr. apply Hin. right. exact Hr.
      + apply Forall2_app; [exact Hacc | constructor; [exact Hc | constructor]].
      + exists children, m'. split; [exact E|]. split; [exact Hm'|].
        rewrite <- app_assoc in Hch. exact Hch. }
  destruct (Hloop (roads_of m0 (Node.loc n)) [] [] m1 H1) as (children & m' & E & Hm' & Hch);
    [auto | constructor |].
  exists children, m'. split; [exact E|]. split; [exact Hm' | exact Hch].
Qed.

Lemma expand_at_limit (n : Node.t) (problem : RouteProblem.t) (w : World) :
  depth_limit <= Node.depth n ->
  Node.expand n problem w = Return [] (mkWorld (the_map w) (node_expansion_count w + 1)).
Proof.
  intros Hd. unfold Node.expand. rewrite (proj2 (Nat.leb_le _ _) Hd). reflexivity.
Qed.

(** What the loop of a search needs to know of an expansion. *)
Lemma expand_for_search (n : Node.t) (problem : RouteProblem.t) (w : World) :
  only_defaults_added m0 (the_map w) -> h_fun_ok m0 n ->
  exists children m',
    Node.expand n problem w
      = Return children (mkWorld m' (node_expansion_count w + 1)) /\
    only_defaults_added m0 m' /\
    Forall (fun c => Node.depth n < depth_limit /\ exists road, child_via n road c)
      children /\
    (forall road, Node.depth n < depth_limit -> In road (roads_of m0 (Node.loc n)) ->
       exists c, In c children /\ child_via n road c) /\
    Forall (child_of m0 n) children /\
    length children <= length (roads_of m0 (Node.loc n)) /\
    (depth_limit <= Node.depth n -> children = []).
Proof using m0_costs.
  intros Hw Hh.
  destruct (le_lt_dec depth_limit (Node.depth n)) as [Hd|Hd].
  - exists [], (the_map w). rewrite (expand_at_limit n problem w Hd).
    split; [reflexivity|]. split; [exact Hw|]. split; [constructor|].
    split; [intros; lia|]. split; [constructor|]. split; [simpl; lia | reflexivity].
  - destruct (expand_children_below n problem w Hw Hh Hd)
      as (children & m' & E & Hm' & Hch).
    exists children, m'. split; [exact E|]. split; [exact Hm'|].
    split; [|split; [|split; [|split; [|lia]]]].
    + clear -Hch Hd. induction Hch as [|road c rs cs Hc _ IH]; constructor; eauto.
    + intros road _ Hin. clear -Hch Hin.
      induction Hch as [|r c rs cs Hc _ IH]; [contradiction|].
      destruct Hin as [->|Hin].
      * exists c. split; [left; reflexivity | exact Hc].
      * destruct (IH Hin) as (c' & Hin' & Hc'). exists c'. split; [right|]; assumption.
    + clear -Hch. induction Hch as [|road c rs cs Hc _ IH]; constructor.
      * eapply child_via_child_of. exact Hc.
      * exact IH.
    + apply Forall2_length in Hch. lia.
Qed.

End children_of_a_node.

(** X11. [expand] counts one expansion in every case.  At the depth limit
    it returns no children and leaves the map as it is.  Below the limit,
    on a map where every named road has a cost and for a node whose
    heuristic (if it has one) evaluates where its roads lead, it returns
    one child for each road out of the node's location, in the order the
    roads were added: the child is at the end of the road, has the node as
    parent, the road as road, the node's path cost plus the cost of the
    segment, the node's heuristic and its value at the child's location,
    and a depth one greater. *)
Theorem expand_children `{builtins} (m0 : RoadMap.t) (n : Node.t)
    (problem : RouteProblem.t) (w : World) :
  roads_have_costs m0 -> only_defaults_added m0 (the_map w) -> h_fun_ok m0 n ->
  exists children m',
    Node.expand n problem w
      = Return children (mkWorld m' (node_expansion_count w + 1)) /\
    only_defaults_added m0 m' /\
    (depth_limit <= Node.depth n -> children = [] /\ m' = the_map w) /\
    (Node.depth n < depth_limit ->
     Forall2 (child_via m0 n) (roads_of m0 (Node.loc n)) children).
Proof.
  intros Hm Hw Hh.
  destruct (le_lt_dec depth_limit (Node.depth n)) as [Hd|Hd].
  - exists [], (the_map w). rewrite (expand_at_limit n problem w Hd).
    split; [reflexivity|]. split; [exact Hw|]. split; [auto | lia].
  - destruct (expand_children_below m0 Hm n problem w Hw Hh Hd)
      as (children & m' & E & Hm' & Hch).
    exists children, m'. split; [exact E|]. split; [exact Hm'|].
    split; [lia | intros _; exact Hch].
Qed.

Definition node_sb : Node.t := Node.init "b" (Some node_s) (Some "sb") 1 0 None.

Lemma expand_children_witness :
  exists children m',
    @Node.expand example_builtins node_sb (RouteProblem.mk "s" (Some "g"))
      (mkWorld example_map 0)
      = Return children (mkWorld m' (0 + 1)) /\
    only_defaults_added example_map m' /\
    (depth_limit <= Node.depth node_sb -> children = [] /\ m' = example_map) /\
    (Node.depth node_sb < depth_limit ->
     Forall2 (@child_via example_builtins example_map node_sb)
       (roads_of example_map (Node.loc node_sb)) children).
Proof.
  apply (@expand_children example_builtins example_map node_sb
           (RouteProblem.mk "s" (Some "g")) (mkWorld example_map 0)).
  - exact (roads_have_costs_b_sound example_map eq_refl).
  - apply only_defaults_added_refl.
  - exact I.
Defined.

(** ** What a search returns

    Every node a search holds was built, road by road, from the root. *)

Section routes.
Context `{builtins}.
Variable m0 : RoadMap.t.
Variable problem : RouteProblem.t.
Variable hf : option HeuristicFunction.t.
Hypothesis m0_costs : roads_have_costs m0.
Hypothesis hf_ok :
  match hf with
  | Some h => forall loc, reachable m0 (RouteProblem.start problem) loc ->
                          h_defined_at m0 h loc
  | None => True
  end.

(** [n] is the node the search builds for the road list [roads] taken
    from the start. *)
Inductive route_node : Node.t -> list string -> Prop :=
| route_root :
    route_node (Node.init (RouteProblem.start problem) None None 0 0 hf) []
| route_child (n : Node.t) (roads : list string) (road : string) (c : Node.t) :
    route_node n roads -> Node.depth n < depth_limit -> child_via m0 n road c ->
    route_node c (roads ++ [road]).

Lemma walk_snoc (road : string) (roads : list string) :
  forall (start : string) (cs : list Q) (segments : list (string * string))
         (next_loc : string) (c : Q),
  walk m0 start roads = Resolved cs ->
  resolve m0 start roads = Some segments ->
  road_end m0 (end_of start segments) road = Some next_loc ->
  edge_cost m0 (end_of start segments) next_loc = Some c ->
  walk m0 start (roads ++ [road]) = Resolved (cs ++ [c]) /\
  resolve m0 start (roads ++ [road])
    = Some (segments ++ [(end_of start segments, next_loc)]).
Proof.
  induction roads as [|r roads IH]; intros start cs segments next_loc c; simpl.
  - intros [= <-] [= <-]. unfold end_of. simpl. intros -> ->. split; reflexivity.
  - destruct (road_end m0 start r) as [b|]; [|discriminate].
    destruct (edge_cost m0 start b) as [cb|]; [|discriminate].
    destruct (walk m0 b roads) as [| |cs'] eqn:Ew; try discriminate.
    destruct (resolve m0 b roads) as [segs'|] eqn:Er; [|discriminate].
    intros [= <-] [= <-].
    replace (end_of start ((start, b) :: segs')) with (end_of b segs')
      by (unfold end_of; simpl map; symmetry; apply last_cons_shift).
    intros Hroad Hcost.
    destruct (IH b cs' segs' next_loc c Ew Er Hroad Hcost) as [-> ->].
    split; reflexivity.
Qed.

(** The node of a route: where it is, how deep, what it cost. *)
Lemma route_node_facts (n : Node.t) (roads : list string) :
  route_node n roads ->
  Node.h_fun n = hf /\
  Node.depth n = length roads /\ length roads <= depth_limit /\
  Node.solution n = map Some roads /\
  exists cs segments,
    walk m0 (RouteProblem.start problem) roads = Resolved cs /\
    resolve m0 (RouteProblem.start problem) roads = Some segments /\
    end_of (RouteProblem.start problem) segments = Node.loc n /\
    fold_left Qplus cs 0%Q = Node.path_cost n.
Proof.
  induction 1 as [|n roads road c _ IH Hd (child_loc & cost & Hr & Hc & ->)].
  - split; [reflexivity|]. split; [reflexivity|]. split; [simpl; lia|].
    split; [reflexivity|]. exists [], []. repeat split; reflexivity.
  - destruct IH as (Hh & Hdepth & _ & Hsol & cs & segments & Hw & Hres & Hend & Hcost).
    split; [exact Hh|]. rewrite length_app. simpl. split; [lia|]. split; [lia|].
    split.
    + rewrite solution_of_child, Hsol, map_app. reflexivity.
    + rewrite <- Hend in Hr, Hc.
      destruct (walk_snoc road roads _ cs segments child_loc cost Hw Hres Hr Hc)
        as [Hw' Hres'].
      exists (cs ++ [cost]), (segments ++ [(end_of (RouteProblem.start problem) segments,
                                            child_loc)]).
      split; [exact Hw'|]. split; [exact Hres'|]. split.
      * unfold end_of. rewrite map_app. simpl. apply last_last.
      * rewrite fold_left_app. simpl. rewrite Hcost. reflexivity.
Qed.

Lemma route_node_reachable (n : Node.t) (roads : list string) :
  route_node n roads -> reachable m0 (RouteProblem.start problem) (Node.loc n).
Proof.
  induction 1 as [|n roads road c _ IH _ (child_loc & cost & Hr & _ & ->)].
  - apply reach_start.
  - eapply reach_step; [exact IH | exact Hr].
Qed.

Definition on_route (n : Node.t) : Prop := exists roads, route_node n roads.

Lemma on_route_h_fun_ok (n : Node.t) : on_route n -> h_fun_ok m0 n.
Proof using hf_ok.
  intros [roads Hn]. unfold h_fun_ok.
  rewrite (proj1 (route_node_facts n roads Hn)).
  destruct hf as [h|]; [|exact I].
  intros r b Hb. apply hf_ok. eapply reach_step; [|exact Hb].
  eapply route_node_reachable. exact Hn.
Qed.

Definition route_inv (st : search_state) (w : World) : Prop :=
  only_defaults_added m0 (the_map w) /\ Forall on_route (nodes_of (fst st)).

Lemma route_body_spec (child : search_state -> Node.t -> M World search_state) :
  child_step_ok child ->
  forall st w, route_inv st w -> negb (Frontier.is_empty (fst st)) = true ->
  exists r w', search_body child problem st w = Return r w' /\
    only_defaults_added m0 (the_map w') /\
    match r with
    | inl st' =>
        Forall on_route (nodes_of (fst st')) /\
        total_weight (branching m0) (nodes_of (fst st'))
          < total_weight (branching m0) (nodes_of (fst st))
    | inr v => on_route v /\ RouteProblem.is_goal problem (Node.loc v) = true
    end.
Proof using m0_costs hf_ok.
  intros Hchild st w [Hw Hnodes] Hne. apply negb_true_iff in Hne.
  destruct (call_pop (fst st) w Hne) as (n & F' & Epop & _ & Hperm).
  unfold search_body, bind. rewrite Epop. cbn [fst snd].
  assert (Hall : Forall on_route (n :: nodes_of F')).
  { eapply Permutation_Forall; [symmetry; exact Hperm | exact Hnodes]. }
  inversion Hall as [|? ? Hn HF']; subst.
  destruct (RouteProblem.is_goal problem (Node.loc n)) eqn:Hgoal.
  - exists (inr n), w. split; [reflexivity|]. split; [exact Hw|].
    split; [exact Hn | exact Hgoal].
  - destruct (expand_for_search m0 m0_costs n problem w Hw (on_route_h_fun_ok n Hn))
      as (children & m' & Eexp & Hm' & Hvia & _ & Hof & Hlen & Hnone).
    rewrite Eexp.
    assert (Hroute : Forall on_route children).
    { eapply Forall_impl; [exact Hvia|]. simpl. intros c (Hd & road & Hc).
      destruct Hn as [roads Hn]. exists (roads ++ [road]).
      eapply route_child; eassumption. }
    destruct (for_each_children child (branching m0) on_route Hchild children
                (F', snd st) (mkWorld m' (node_expansion_count w + 1)) HF' Hroute)
      as (st' & Efor & Hst' & Hwt).
    rewrite Efor. exists (inl st'), (mkWorld m' (node_expansion_count w + 1)).
    split; [reflexivity|]. split; [exact Hm'|]. split; [exact Hst'|].
    rewrite <- (total_weight_perm _ _ _ Hperm).
    pose proof (children_weight m0 n children Hof
                  (Nat.le_trans _ _ _ Hlen (roads_of_le_branching m0 (Node.loc n))) Hnone).
    cbn [fst] in Hwt. unfold total_weight in *. simpl. lia.
Qed.

(** What a driver hands back: nothing, or a node of a route to the goal. *)
Definition found_route (r : option Node.t) : Prop :=
  match r with
  | None => True
  | Some n =>
      exists roads segments,
        Node.solution n = map Some roads /\
        length roads <= depth_limit /\
        resolve m0 (RouteProblem.start problem) roads = Some segments /\
        end_of (RouteProblem.start problem) segments = Node.loc n /\
        RouteProblem.goal problem = Some (Node.loc n) /\
        value_of (RoadMap.path_cost (RouteProblem.start problem) roads m0)
          = Some (Node.path_cost n)
  end.

Lemma route_to_goal (n : Node.t) :
  on_route n -> RouteProblem.is_goal problem (Node.loc n) = true ->
  found_route (Some n).
Proof.
  intros [roads Hn] Hgoal.
  destruct (route_node_facts n roads Hn)
    as (_ & _ & Hlen & Hsol & cs & segments & Hw & Hres & Hend & Hcost).
  exists roads, segments. split; [exact Hsol|]. split; [exact Hlen|].
  split; [exact Hres|]. split; [exact Hend|]. split.
  - unfold RouteProblem.is_goal, eq_goal, EqGoal_str in Hgoal.
    destruct (RouteProblem.goal problem) as [g|]; [|discriminate].
    apply String.eqb_eq in Hgoal. congruence.
  - unfold RoadMap.path_cost.
    destruct (path_cost_loop_walk roads 0%Q (RouteProblem.start problem) m0)
      as (m' & _ & ->).
    rewrite Hw. simpl. rewrite Hcost. reflexivity.
Qed.

(** The tail every driver shares, from the root. *)
Lemma search_finds_route (child : search_state -> Node.t -> M World search_state)
    (sort_by : sort_key) (visited : list Node.t) (count fuel : nat) :
  child_step_ok child ->
  subtree_size (branching m0) depth_limit < fuel ->
  let root := Node.init (RouteProblem.start problem) None None 0 0 hf in
  exists r w',
    (r <- while_loop fuel (fun st => negb (Frontier.is_empty (fst st)))
            (search_body child problem) (Frontier.init root sort_by, visited) ;;
     match r with
     | inr node => ret (Some node)
     | inl _ => ret None
     end) (mkWorld m0 count) = Return r w' /\
    only_defaults_added m0 (the_map w') /\ found_route r.
Proof using m0_costs hf_ok.
  intros Hchild Hfuel root.
  destruct (while_loop_ends (fun st => negb (Frontier.is_empty (fst st)))
              (search_body child problem) route_inv
              (fun v w' => only_defaults_added m0 (the_map w') /\ on_route v /\
                           RouteProblem.is_goal problem (Node.loc v) = true)
              (fun st => total_weight (branching m0) (nodes_of (fst st))))
    with (fuel := fuel) (st := (Frontier.init root sort_by, visited))
         (s := mkWorld m0 count)
    as (r & w' & E & Hr).
  - intros st s Hinv Hc.
    destruct (route_body_spec child Hchild st s Hinv Hc) as (r & s' & E & Hs' & Hr).
    exists r, s'. split; [exact E|]. destruct r as [st'|v].
    + split; [split; [exact Hs' | exact (proj1 Hr)] | exact (proj2 Hr)].
    + split; [exact Hs' | exact Hr].
  - split; [apply only_defaults_added_refl|].
    repeat constructor. exists []. apply route_root.
  - unfold nodes_of, total_weight, weight. simpl.
    pose proof (subtree_size_mono (branching m0) (depth_limit - 0)
                  depth_limit ltac:(lia)). simpl in *. lia.
  - unfold bind. rewrite E. destruct r as [st'|v].
    + exists None, w'. split; [reflexivity|]. split; [exact (proj1 (proj1 Hr)) | exact I].
    + destruct Hr as (Hw' & Hv & Hgoal).
      exists (Some v), w'. split; [reflexivity|]. split; [exact Hw'|].
      apply route_to_goal; assumption.
Qed.

Lemma root_is_route :
  RouteProblem.is_goal problem (RouteProblem.start problem) = true ->
  found_route (Some (Node.init (RouteProblem.start problem) None None 0 0 hf)).
Proof.
  intros Hgoal. apply route_to_goal; [|exact Hgoal]. exists []. apply route_root.
Qed.

End routes.

(** X12. Every search ends, and what it returns is a route.  On a map
    where every named road has a cost, given enough fuel for the loop, each
    of the five drivers, with or without repeated-state checking, returns
    without raising (greedy and A* search for a heuristic that evaluates on
    the locations reachable from the start), having added at most default
    entries to the map.  When it returns a node, the node is at the goal,
    its [solution] is a list of at most 20 road names that resolves, road by
    road, from the start to the node's location, and [path_cost] of that
    list from the start is exactly the node's [path_cost]. *)
Theorem search_returns_route `{builtins} (m0 : RoadMap.t) (problem : RouteProblem.t) :
  roads_have_costs m0 ->
  exists N, forall fuel repeat_check count, N <= fuel ->
    (exists r w', BFS fuel problem repeat_check (mkWorld m0 count) = Return r w' /\
       only_defaults_added m0 (the_map w') /\ found_route m0 problem r) /\
    (exists r w', DFS fuel problem repeat_check (mkWorld m0 count) = Return r w' /\
       only_defaults_added m0 (the_map w') /\ found_route m0 problem r) /\
    (exists r w', uniform_cost_search fuel problem repeat_check (mkWorld m0 count)
                  = Return r w' /\
       only_defaults_added m0 (the_map w') /\ found_route m0 problem r) /\
    (forall h,
        (forall loc, reachable m0 (RouteProblem.start problem) loc ->
                     h_defined_at m0 h loc) ->
        (exists r w', greedy_search fuel problem h repeat_check (mkWorld m0 count)
                      = Return r w' /\
           only_defaults_added m0 (the_map w') /\ found_route m0 problem r) /\
        (exists r w', a_star_search fuel problem h repeat_check (mkWorld m0 count)
                      = Return r w' /\
           only_defaults_added m0 (the_map w') /\ found_route m0 problem r)).
Proof.
  intros Hcosts.
  exists (S (subtree_size (branching m0) depth_limit)).
  intros fuel repeat_check count Hfuel.
  assert (Hlt : subtree_size (branching m0) depth_limit < fuel) by lia.
  assert (Hroot : forall hf,
    RouteProblem.is_goal problem (RouteProblem.start problem) = true ->
    exists r w',
      @ret World _ (Some (Node.init (RouteProblem.start problem) None None 0 0 hf))
        (mkWorld m0 count) = Return r w' /\
      only_defaults_added m0 (the_map w') /\ found_route m0 problem r).
  { intros hf Hg. eexists _, _. split; [reflexivity|].
    split; [apply only_defaults_added_refl|]. apply root_is_route. exact Hg. }
  split; [|split; [|split]].
  - unfold BFS. cbn [RouteProblem.is_goal eq_goal EqGoal_Node].
    exact (search_finds_route m0 problem None Hcosts I (BFS_child repeat_check)
             (Metric "g") _ count fuel (BFS_child_ok repeat_check) Hlt).
  - unfold DFS. cbn [RouteProblem.is_goal eq_goal EqGoal_Node].
    exact (search_finds_route m0 problem None Hcosts I (DFS_child repeat_check)
             (Flag true) _ count fuel (DFS_child_ok repeat_check) Hlt).
  - unfold uniform_cost_search.
    change (Node.loc (Node.init (RouteProblem.start problem) None None 0 0 None))
      with (RouteProblem.start problem).
    destruct (RouteProblem.is_goal problem (RouteProblem.start problem)) eqn:Hg.
    + apply Hroot. reflexivity.
    + exact (search_finds_route m0 problem None Hcosts I
               (uniform_cost_search_child repeat_check)
               (Metric "g") _ count fuel (uniform_cost_search_child_ok repeat_check) Hlt).
  - intros h Hh. split.
    + unfold greedy_search.
      change (Node.loc (Node.init (RouteProblem.start problem) None None 0 0 (Some h)))
        with (RouteProblem.start problem).
      destruct (RouteProblem.is_goal problem (RouteProblem.start problem)) eqn:Hg.
      * apply Hroot. reflexivity.
      * exact (search_finds_route m0 problem (Some h) Hcosts Hh
                 (greedy_child repeat_check)
                 (Metric "h") _ count fuel (greedy_child_ok repeat_check) Hlt).
    + unfold a_star_search.
      change (Node.loc (Node.init (RouteProblem.start problem) None None 0 0 (Some h)))
        with (RouteProblem.start problem).
      destruct (RouteProblem.is_goal problem (RouteProblem.start problem)) eqn:Hg.
      * apply Hroot. reflexivity.
      * exact (search_finds_route m0 problem (Some h) Hcosts Hh
                 (a_star_search_child repeat_check)
                 (Metric "f") _ count fuel (a_star_search_child_ok repeat_check) Hlt).
Qed.

(** A problem on [example_map] whose goal the roads reach. *)
Definition example_problem : RouteProblem.t := RouteProblem.mk "s" (Some "g").

Lemma search_returns_route_witness :
  exists N, forall fuel repeat_check count, N <= fuel ->
    (exists r w', @BFS example_builtins fuel example_problem repeat_check
                    (mkWorld example_map count) = Return r w' /\
       only_defaults_added example_map (the_map w') /\
       found_route example_map example_problem r) /\
    (exists r w', @DFS example_builtins fuel example_problem repeat_check
                    (mkWorld example_map count) = Return r w' /\
       only_defaults_added example_map (the_map w') /\
       found_route example_map example_problem r) /\
    (exists r w', @uniform_cost_search example_builtins fuel example_problem repeat_check
                    (mkWorld example_map count) = Return r w' /\
       only_defaults_added example_map (the_map w') /\
       found_route example_map example_problem r) /\
    (forall h,
        (forall loc, reachable example_map (RouteProblem.start example_problem) loc ->
                     h_defined_at example_map h loc) ->
        (exists r w', @greedy_search example_builtins fuel example_problem h repeat_check
                        (mkWorld example_map count) = Return r w' /\
           only_defaults_added example_map (the_map w') /\
           found_route example_map example_problem r) /\
        (exists r w', @a_star_search example_builtins fuel example_problem h repeat_check
                        (mkWorld example_map count) = Return r w' /\
           only_defaults_added example_map (the_map w') /\
           found_route example_map example_problem r)).
Proof.
  exact (@search_returns_route example_builtins example_map example_problem
           (roads_have_costs_b_sound example_map eq_refl)).
Defined.

(** The drivers on [example_problem], run with fuel 200: the roads and the
    path cost of the node returned. *)
Definition roads_and_cost (r : result World (option Node.t))
    : option (list (option string) * Q) :=
  match r with
  | Return (Some n) _ => Some (Node.solution n, Node.path_cost n)
  | _ => None
  end.

Example example_searches_return_routes :
  roads_and_cost (@BFS example_builtins 200 example_problem false (mkWorld example_map 0))
    = Some ([Some "sb"; Some "ba"; Some "ag"], 0 + 1 + 1 + 1)%Q /\
  roads_and_cost (@DFS example_builtins 200 example_problem true (mkWorld example_map 0))
    = Some ([Some "sa"; Some "ag"], 0 + 5 + 1)%Q /\
  roads_and_cost (@uniform_cost_search example_builtins 200 example_problem false
                    (mkWorld example_map 0))
    = Some ([Some "sb"; Some "ba"; Some "ag"], 0 + 1 + 1 + 1)%Q.
Proof. repeat split; vm_compute; reflexivity. Qed.

(** ** A problem whose start is its goal *)

Lemma pop_init (root : Node.t) (sort_by : sort_key) :
  Frontier.pop (Frontier.init root sort_by) = Return root (Frontier.mk sort_by []).
Proof. reflexivity. Qed.

Lemma root_returned_when_goal `{builtins} (problem : RouteProblem.t)
    (h : HeuristicFunction.t) (repeat_check : bool) (fuel : nat) (w : World) :
  RouteProblem.goal problem = Some (RouteProblem.start problem) ->
  let root := fun hf => Node.init (RouteProblem.start problem) None None 0 0 hf in
  BFS (S fuel) problem repeat_check w = Return (Some (root None)) w /\
  DFS (S fuel) problem repeat_check w = Return (Some (root None)) w /\
  uniform_cost_search fuel problem repeat_check w = Return (Some (root None)) w /\
  greedy_search fuel problem h repeat_check w = Return (Some (root (Some h))) w /\
  a_star_search fuel problem h repeat_check w = Return (Some (root (Some h))) w.
Proof.
  intros Hg root.
  assert (Hgoal : RouteProblem.is_goal problem (RouteProblem.start problem) = true).
  { unfold RouteProblem.is_goal, eq_goal, EqGoal_str. rewrite Hg.
    apply String.eqb_refl. }
  split; [|split; [|split; [|split]]].
  - unfold BFS. cbn [RouteProblem.is_goal eq_goal EqGoal_Node while_loop].
    unfold bind at 1. cbn [fst Frontier.is_empty Frontier.init negb].
    unfold BFS_body, bind, call. cbn [fst]. rewrite pop_init. cbn [fst snd Node.loc Node.init].
    fold (RouteProblem.is_goal problem (RouteProblem.start problem)). rewrite Hgoal.
    reflexivity.
  - unfold DFS. cbn [RouteProblem.is_goal eq_goal EqGoal_Node while_loop].
    unfold bind at 1. cbn [fst Frontier.is_empty Frontier.init negb].
    unfold DFS_body, bind, call. cbn [fst]. rewrite pop_init. cbn [fst snd Node.loc Node.init].
    fold (RouteProblem.is_goal problem (RouteProblem.start problem)). rewrite Hgoal.
    reflexivity.
  - unfold uniform_cost_search. cbn [Node.loc Node.init]. rewrite Hgoal. reflexivity.
  - unfold greedy_search. cbn [Node.loc Node.init]. rewrite Hgoal. reflexivity.
  - unfold a_star_search. cbn [Node.loc Node.init]. rewrite Hgoal. reflexivity.
Qed.

(** X13. When the start is the goal, every driver returns the root node,
    whose solution is empty and whose path cost is 0.0, without expanding
    a node or touching the map.  Uniform-cost, greedy and A* search return
    it before the loop; BFS and DFS, whose first test compares a node with
    a location, return it from the first pass of the loop. *)
Theorem search_from_goal `{builtins} (problem : RouteProblem.t)
    (h : HeuristicFunction.t) (repeat_check : bool) (fuel : nat) (w : World) :
  RouteProblem.goal problem = Some (RouteProblem.start problem) ->
  let root := fun hf => Node.init (RouteProblem.start problem) None None 0 0 hf in
  BFS (S fuel) problem repeat_check w = Return (Some (root None)) w /\
  DFS (S fuel) problem repeat_check w = Return (Some (root None)) w /\
  uniform_cost_search fuel problem repeat_check w = Return (Some (root None)) w /\
  greedy_search fuel problem h repeat_check w = Return (Some (root (Some h))) w /\
  a_star_search fuel problem h repeat_check w = Return (Some (root (Some h))) w /\
  Node.solution (root None) = [] /\ Node.path_cost (root None) = 0%Q /\
  Node.solution (root (Some h)) = [] /\ Node.path_cost (root (Some h)) = 0%Q.
Proof.
  intros Hg root.
  destruct (root_returned_when_goal problem h repeat_check fuel w Hg)
    as (HB & HD & HU & HG & HA).
  repeat (split; [assumption|]). repeat split; reflexivity.
Qed.

Lemma search_from_goal_witness :
  @BFS example_builtins 1 (RouteProblem.mk "s" (Some "s")) true (mkWorld example_map 0)
    = Return (Some node_s) (mkWorld example_map 0) /\
  @uniform_cost_search example_builtins 0 (RouteProblem.mk "s" (Some "s")) true
    (mkWorld example_map 0)
    = Return (Some node_s) (mkWorld example_map 0).
Proof.
  destruct (@search_from_goal example_builtins (RouteProblem.mk "s" (Some "s"))
              island_h true 0 (mkWorld example_map 0) eq_refl)
    as (HB & _ & HU & _).
  split; [exact HB | exact HU].
Defined.

(** ** The heuristic *)

Lemma location_coordinates_unknown (m : RoadMap.t) (loc : string) :
  ~ coords_ok m loc ->
  exists m', RoadMap.location_coordinates loc m = Raise (UnknownLocation loc) m' /\
             only_defaults_added m m'.
Proof.
  intros Hn. destruct (location_coordinates_only_defaults loc m) as (m' & Hs & Hm).
  rewrite location_coordinates_spec in Hs |- *. cbv zeta in *.
  destruct (truthy _ && truthy _) eqn:E.
  - exfalso. apply Hn. unfold get_or in E.
    destruct (Dict.get (RoadMap.loc_dict m) loc) as [[x y]|] eqn:Hg; [|discriminate].
    simpl in E. apply andb_true_iff in E as [Hx Hy]. exists x, y. auto.
  - injection Hs as <-. eexists. split; [reflexivity | exact Hm].
Qed.

Lemma h_cost_known `{builtins} (h : HeuristicFunction.t) (m : RoadMap.t)
    (loc g : string) :
  HeuristicFunction.goal h = Some g -> coords_ok m loc -> coords_ok m g ->
  HeuristicFunction.h_cost h (Some loc) m =
  if Qeq_bool (HeuristicFunction.efficientGas h) 0
  then Raise ZeroDivisionError m
  else Return (distance m loc g / HeuristicFunction.efficientGas h)%Q m.
Proof.
  intros Hg Hl Hgk. unfold HeuristicFunction.h_cost. rewrite Hg. unfold bind.
  rewrite (euclidean_distance_ok m loc g Hl Hgk).
  unfold HeuristicFunction.py_div. destruct (Qeq_bool _ 0); reflexivity.
Qed.

(** X15. What [h_cost] answers.  Without a location it is 0.0.  For a
    heuristic with goal [g]: an unknown location error for [loc] when [loc]
    has no usable coordinates, for [g] when [loc] has and [g] has not; a
    division by zero when both have and [efficientGas] is zero; and
    otherwise the distance from [loc] to [g] divided by [efficientGas].
    The map is left as it is except after an unknown location error, which
    may leave a default entry for the location behind. *)
Theorem h_cost_outcome `{builtins} (h : HeuristicFunction.t) (m : RoadMap.t) :
  HeuristicFunction.h_cost h None m = Return 0%Q m /\
  forall loc g, HeuristicFunction.goal h = Some g ->
    (~ coords_ok m loc ->
     exists m', HeuristicFunction.h_cost h (Some loc) m = Raise (UnknownLocation loc) m' /\
                only_defaults_added m m') /\
    (coords_ok m loc -> ~ coords_ok m g ->
     exists m', HeuristicFunction.h_cost h (Some loc) m = Raise (UnknownLocation g) m' /\
                only_defaults_added m m') /\
    (coords_ok m loc -> coords_ok m g ->
     HeuristicFunction.h_cost h (Some loc) m =
     if Qeq_bool (HeuristicFunction.efficientGas h) 0
     then Raise ZeroDivisionError m
     else Return (distance m loc g / HeuristicFunction.efficientGas h)%Q m).
Proof.
  split; [reflexivity|]. intros loc g Hg.
  split; [|split]; [| |apply h_cost_known; exact Hg];
    unfold HeuristicFunction.h_cost; rewrite Hg; unfold bind.
  - intros Hn. unfold RoadMap.euclidean_distance, bind.
    destruct (location_coordinates_unknown m loc Hn) as (m' & -> & Hm').
    exists m'. split; [reflexivity | exact Hm'].
  - intros Hl Hn. unfold RoadMap.euclidean_distance, bind.
    rewrite (location_coordinates_ok m loc Hl).
    destruct (location_coordinates_unknown m g Hn) as (m' & -> & Hm').
    exists m'. split; [reflexivity | exact Hm'].
Qed.

(** ** The invariant of a RoadMap *)

(** X17. Every method of RoadMap keeps the invariant that each named road
    has a cost.  The empty map has it; [add_location] and [add_road] lead
    from a map that has it to a map that has it, whatever their arguments;
    and so do the lookups [get], [get_result], [location_coordinates] and
    [path_cost], which may add default entries. *)
Theorem RoadMap_methods_keep_costs :
  roads_have_costs (RoadMap.init None None None) /\
  forall m, roads_have_costs m ->
    (forall loc x y,
        exists m', RoadMap.add_location loc x y m = Return tt m' /\ roads_have_costs m') /\
    (forall start end_ name cost,
        exists m', RoadMap.add_road start end_ name cost m = Return tt m' /\
                   roads_have_costs m') /\
    (forall start end_,
        exists v m', RoadMap.get start end_ m = Return v m' /\ roads_have_costs m') /\
    (forall start road,
        exists v m', RoadMap.get_result start road m = Return v m' /\
                     roads_have_costs m') /\
    (forall loc,
        exists m', state_of (RoadMap.location_coordinates loc m) = Some m' /\
                   roads_have_costs m') /\
    (forall start road_list,
        exists m', state_of (RoadMap.path_cost start road_list m) = Some m' /\
                   roads_have_costs m').
Proof.
  split.
  - intros a r b Hr. discriminate.
  - intros m Hm. split; [|split; [|split; [|split; [|split]]]].
    + intros loc x y. apply add_location_roads_have_costs. exact Hm.
    + intros start end_ name cost. apply add_road_roads_have_costs. exact Hm.
    + intros start end_. destruct (get_only_defaults start end_ m) as (v & m' & E & Hd).
      exists v, m'. split; [exact E|]. eapply only_defaults_roads_have_costs; eassumption.
    + intros start road.
      destruct (get_result_only_defaults start road m) as (v & m' & E & Hd).
      exists v, m'. split; [exact E|]. eapply only_defaults_roads_have_costs; eassumption.
    + intros loc. destruct (location_coordinates_only_defaults loc m) as (m' & E & Hd).
      exists m'. split; [exact E|]. eapply only_defaults_roads_have_costs; eassumption.
    + intros start road_list. unfold RoadMap.path_cost.
      destruct (path_cost_loop_walk road_list 0%Q start m) as (m' & Hd & ->).
      exists m'. split; [destruct (walk m start road_list); reflexivity|].
      eapply only_defaults_roads_have_costs; eassumption.
Qed.

(** ** Repeated-state checking: expansions and reachable locations *)

(** What the body of a driver's [for] loop does with a child when
    repeated states are checked: nothing if a node at the child's location
    was reached before; otherwise the child joins the frontier and the
    reached list. *)
Definition child_step_checked (f : search_state -> Node.t -> M World search_state)
    : Prop :=
  forall st child w,
  exists st', f st child w = Return st' w /\
    if Node.elem child (snd st) then st' = st
    else Permutation (nodes_of (fst st')) (child :: nodes_of (fst st)) /\
         snd st' = snd st ++ [child].

Lemma BFS_child_checked : child_step_checked (BFS_child true).
Proof.
  intros [F v] child w. unfold BFS_child. cbn [fst snd].
  destruct (Node.elem child v); cbn [negb].
  - eexists. split; reflexivity.
  - destruct (frontier_add_spec child (F, v ++ [child]) w) as (F' & E & _ & Hp).
    eexists. split; [exact E|]. split; [exact Hp | reflexivity].
Qed.

Lemma DFS_child_checked : child_step_checked (DFS_child true).
Proof. exact BFS_child_checked. Qed.

Lemma greedy_child_checked : child_step_checked (greedy_child true).
Proof.
  intros [F v] child w. unfold greedy_child. cbn [fst snd].
  destruct (Node.elem child v); cbn [negb].
  - eexists. split; reflexivity.
  - destruct (frontier_add_spec child (F, v) w) as (F' & E & _ & Hp).
    unfold bind. rewrite E. eexists. split; [reflexivity|].
    split; [exact Hp | reflexivity].
Qed.

Lemma uniform_cost_search_child_checked :
  child_step_checked (uniform_cost_search_child true).
Proof.
  intros [F v] child w. unfold uniform_cost_search_child. cbn [fst snd].
  destruct (Node.elem child v).
  - unfold bind. rewrite replace_test_false. eexists. split; reflexivity.
  - destruct (frontier_add_spec child (F, v) w) as (F' & E & _ & Hp).
    unfold bind. rewrite E. eexists. split; [reflexivity|].
    split; [exact Hp | reflexivity].
Qed.

Lemma a_star_search_child_checked : child_step_checked (a_star_search_child true).
Proof. exact uniform_cost_search_child_checked. Qed.

Lemma NoDup_snoc {A} (l : list A) (x : A) :
  List.NoDup l -> ~ In x l -> List.NoDup (l ++ [x]).
Proof.
  induction 1 as [|a l Ha Hl IH]; intros Hx; simpl.
  - constructor; [intros [] | constructor].
  - constructor.
    + intros Hin. apply in_app_or in Hin. destruct Hin as [Hin | [-> | [] ] ].
      * exact (Ha Hin).
      * apply Hx. left. reflexivity.
    + apply IH. intros Hin. apply Hx. right. exact Hin.
Qed.

Lemma elem_false_not_in (n : Node.t) (nodes : list Node.t) :
  Node.elem n nodes = false -> ~ In (Node.loc n) (map Node.loc nodes).
Proof.
  unfold Node.elem. intros He Hin. apply in_map_iff in Hin.
  destruct Hin as (x & Hloc & Hx).
  assert (Ht : existsb (fun y => Node.eq y n) nodes = true).
  { apply List.existsb_exists. exists x. split; [exact Hx|].
    apply Node_eq_iff. exact Hloc. }
  congruence.
Qed.

Section checked.
Context `{builtins}.
Variable m0 : RoadMap.t.
Variable problem : RouteProblem.t.
Variable hf : option HeuristicFunction.t.
Variable count0 : nat.
Variable locs : list string.
Hypothesis m0_costs : roads_have_costs m0.
Hypothesis locs_cover :
  forall loc, reachable m0 (RouteProblem.start problem) loc -> In loc locs.
Hypothesis hf_ok :
  match hf with
  | Some h => forall loc, reachable m0 (RouteProblem.start problem) loc ->
                          h_defined_at m0 h loc
  | None => True
  end.

(** The reached nodes are at different locations, all reachable. *)
Definition reached_ok (reached : list Node.t) : Prop :=
  List.NoDup (map Node.loc reached) /\
  Forall (fun n => reachable m0 (RouteProblem.start problem) (Node.loc n)) reached.

Lemma reached_ok_length (reached : list Node.t) :
  reached_ok reached -> length reached <= length locs.
Proof using locs_cover.
  intros [Hnd Hr].
  rewrite <- (length_map Node.loc reached).
  apply List.NoDup_incl_length; [exact Hnd|].
  intros loc Hin. apply in_map_iff in Hin. destruct Hin as (n & <- & Hn).
  rewrite List.Forall_forall in Hr. apply locs_cover. apply Hr. exact Hn.
Qed.

Definition checked_inv (st : search_state) (w : World) : Prop :=
  only_defaults_added m0 (the_map w) /\
  Forall (node_ok m0 problem hf) (nodes_of (fst st)) /\
  reached_ok (snd st) /\
  node_expansion_count w + length (nodes_of (fst st)) = count0 + length (snd st).

Lemma for_each_checked (f : search_state -> Node.t -> M World search_state) :
  child_step_checked f ->
  forall children st w,
  Forall (node_ok m0 problem hf) (nodes_of (fst st)) ->
  Forall (node_ok m0 problem hf) children ->
  reached_ok (snd st) ->
  exists st', for_each children f st w = Return st' w /\
    Forall (node_ok m0 problem hf) (nodes_of (fst st')) /\
    reached_ok (snd st') /\
    length (nodes_of (fst st')) + length (snd st)
      = length (nodes_of (fst st)) + length (snd st') /\
    length (snd st) <= length (snd st').
Proof.
  intros Hf. induction children as [|c children IH]; intros st w Hst Hch Hre; simpl.
  - exists st. split; [reflexivity|]. split; [exact Hst|]. split; [exact Hre|]. lia.
  - inversion Hch as [|? ? Hc Hch']; subst.
    destruct (Hf st c w) as (st1 & E1 & Hstep).
    unfold bind. rewrite E1.
    assert (H1 : Forall (node_ok m0 problem hf) (nodes_of (fst st1)) /\
                 reached_ok (snd st1) /\
                 length (nodes_of (fst st1)) + length (snd st)
                   = length (nodes_of (fst st)) + length (snd st1) /\
                 length (snd st) <= length (snd st1)).
    { destruct (Node.elem c (snd st)) eqn:Ee.
      - subst st1. split; [exact Hst|]. split; [exact Hre|]. lia.
      - destruct Hstep as [Hp Hv]. split; [|split].
        + eapply Permutation_Forall; [symmetry; exact Hp | constructor; assumption].
        + rewrite Hv. destruct Hre as [Hnd Hr]. split.
          * rewrite map_app. simpl.
            apply NoDup_snoc; [exact Hnd|].
            exact (elem_false_not_in c (snd st) Ee).
          * apply Forall_app. split; [exact Hr|]. constructor; [apply Hc | constructor].
        + rewrite Hv, length_app. apply Permutation_length in Hp. simpl in *. lia. }
    destruct H1 as (Hn1 & Hre1 & Hlen1 & Hle1).
    destruct (IH st1 w Hn1 Hch' Hre1) as (st' & E & Hn' & Hre' & Hlen' & Hle').
    exists st'. split; [exact E|]. split; [exact Hn'|]. split; [exact Hre'|]. lia.
Qed.

(** The bound on the passes of the loop: twice the locations not reached
    yet, plus the nodes waiting. *)
Definition passes_left (st : search_state) : nat :=
  2 * (length locs - length (snd st)) + length (nodes_of (fst st)).

Lemma checked_body_spec (child : search_state -> Node.t -> M World search_state) :
  child_step_checked child ->
  forall st w, checked_inv st w -> negb (Frontier.is_empty (fst st)) = true ->
  exists r w', search_body child problem st w = Return r w' /\
    match r with
    | inl st' => checked_inv st' w' /\ passes_left st' < passes_left st
    | inr v => node_expansion_count w' <= count0 + length locs
    end.
Proof using m0_costs hf_ok locs_cover.
  intros Hchild st w (Hw & Hnodes & Hre & Hcount) Hne. apply negb_true_iff in Hne.
  destruct (call_pop (fst st) w Hne) as (n & F' & Epop & _ & Hperm).
  unfold search_body, bind. rewrite Epop. cbn [fst snd].
  assert (Hall : Forall (node_ok m0 problem hf) (n :: nodes_of F')).
  { eapply Permutation_Forall; [symmetry; exact Hperm | exact Hnodes]. }
  inversion Hall as [|? ? Hn HF']; subst.
  pose proof (reached_ok_length _ Hre) as Hbound.
  apply Permutation_length in Hperm. simpl in Hperm.
  destruct (RouteProblem.is_goal problem (Node.loc n)) eqn:Hgoal.
  - exists (inr n), w. split; [reflexivity|]. lia.
  - destruct (expand_for_search m0 m0_costs n problem w Hw
                (node_ok_h_fun_ok m0 problem hf hf_ok n Hn))
      as (children & m' & Eexp & Hm' & _ & _ & Hof & _ & _).
    rewrite Eexp.
    assert (Hchok : Forall (node_ok m0 problem hf) children).
    { eapply Forall_impl; [exact Hof|]. intros c. apply child_of_node_ok. exact Hn. }
    destruct (for_each_checked child Hchild children (F', snd st)
                (mkWorld m' (node_expansion_count w + 1)) HF' Hchok Hre)
      as (st' & Efor & Hst' & Hre' & Hlen & Hle).
    rewrite Efor. exists (inl st'), (mkWorld m' (node_expansion_count w + 1)).
    split; [reflexivity|]. cbn [fst snd] in Hlen, Hle.
    pose proof (reached_ok_length _ Hre') as Hbound'.
    split.
    + split; [exact Hm'|]. split; [exact Hst'|]. split; [exact Hre'|].
      cbn [node_expansion_count]. lia.
    + unfold passes_left. lia.
Qed.

(** The tail every driver shares, from the root, with the reached list
    holding the root. *)
Lemma checked_search_ends (child : search_state -> Node.t -> M World search_state)
    (sort_by : sort_key) (fuel : nat) :
  child_step_checked child ->
  2 * length locs <= fuel ->
  let root := Node.init (RouteProblem.start problem) None None 0 0 hf in
  exists r w',
    (r <- while_loop fuel (fun st => negb (Frontier.is_empty (fst st)))
            (search_body child problem) (Frontier.init root sort_by, [root]) ;;
     match r with
     | inr node => ret (Some node)
     | inl _ => ret None
     end) (mkWorld m0 count0) = Return r w' /\
    node_expansion_count w' <= count0 + length locs.
Proof using m0_costs hf_ok locs_cover.
  intros Hchild Hfuel root.
  destruct (while_loop_ends (fun st => negb (Frontier.is_empty (fst st)))
              (search_body child problem) checked_inv
              (fun v w' => node_expansion_count w' <= count0 + length locs)
              passes_left)
    with (fuel := fuel) (st := (Frontier.init root sort_by, [root]))
         (s := mkWorld m0 count0)
    as (r & w' & E & Hr).
  - exact (checked_body_spec child Hchild).
  - split; [apply only_defaults_added_refl|]. split; [|split].
    + constructor; [|constructor]. split; [apply reach_start | reflexivity].
    + split.
      * constructor; [intros [] | constructor].
      * constructor; [apply reach_start | constructor].
    + simpl. lia.
  - assert (Hroot : reached_ok [root]).
    { split.
      - constructor; [intros [] | constructor].
      - constructor; [apply reach_start | constructor]. }
    apply reached_ok_length in Hroot.
    unfold passes_left. simpl in *. lia.
  - unfold bind. rewrite E. destruct r as [st'|v].
    + exists None, w'. split; [reflexivity|].
      destruct Hr as [(_ & _ & Hre & Hcount) _].
      pose proof (reached_ok_length _ Hre). lia.
    + exists (Some v), w'. split; [reflexivity | exact Hr].
Qed.

End checked.

(** X18. With repeated-state checking the expansions are bounded by the
    locations that can be reached.  On a map where every named road has a
    cost, let [locs] be any list that holds every location reachable from
    the start by named roads.  Each of the five drivers run with
    [repeat_check] true then returns without raising within twice
    [length locs] passes of its loop (greedy and A* search: for a heuristic
    that evaluates on the reachable locations), and it adds at most
    [length locs] to [node_expansion_count].  For a list of the reachable
    locations without repetitions that is the number of different
    locations reachable from the start.  The bound does not depend on the
    order in which the frontier hands out its nodes. *)
Theorem repeat_check_bounds_expansions `{builtins} (m0 : RoadMap.t)
    (problem : RouteProblem.t) (locs : list string) (fuel count : nat) :
  roads_have_costs m0 ->
  (forall loc, reachable m0 (RouteProblem.start problem) loc -> In loc locs) ->
  2 * length locs <= fuel ->
  (exists r w', BFS fuel problem true (mkWorld m0 count) = Return r w' /\
     node_expansion_count w' <= count + length locs) /\
  (exists r w', DFS fuel problem true (mkWorld m0 count) = Return r w' /\
     node_expansion_count w' <= count + length locs) /\
  (exists r w', uniform_cost_search fuel problem true (mkWorld m0 count) = Return r w' /\
     node_expansion_count w' <= count + length locs) /\
  (forall h,
      (forall loc, reachable m0 (RouteProblem.start problem) loc ->
                   h_defined_at m0 h loc) ->
      (exists r w', greedy_search fuel problem h true (mkWorld m0 count) = Return r w' /\
         node_expansion_count w' <= count + length locs) /\
      (exists r w', a_star_search fuel problem h true (mkWorld m0 count) = Return r w' /\
         node_expansion_count w' <= count + length locs)).
Proof.
  intros Hcosts Hlocs Hfuel.
  assert (Hroot : forall hf,
    exists r w',
      @ret World _ (Some (Node.init (RouteProblem.start problem) None None 0 0 hf))
        (mkWorld m0 count) = Return r w' /\
      node_expansion_count w' <= count + length locs).
  { intros hf. eexists _, _. split; [reflexivity|]. simpl. lia. }
  split; [|split; [|split]].
  - unfold BFS. cbn [RouteProblem.is_goal eq_goal EqGoal_Node].
    exact (checked_search_ends m0 problem None count locs Hcosts Hlocs I (BFS_child true)
             (Metric "g") fuel BFS_child_checked Hfuel).
  - unfold DFS. cbn [RouteProblem.is_goal eq_goal EqGoal_Node].
    exact (checked_search_ends m0 problem None count locs Hcosts Hlocs I (DFS_child true)
             (Flag true) fuel DFS_child_checked Hfuel).
  - unfold uniform_cost_search.
    destruct (RouteProblem.is_goal problem _); [apply Hroot|].
    exact (checked_search_ends m0 problem None count locs Hcosts Hlocs I
             (uniform_cost_search_child true)
             (Metric "g") fuel uniform_cost_search_child_checked Hfuel).
  - intros h Hh. split.
    + unfold greedy_search.
      destruct (RouteProblem.is_goal problem _); [apply Hroot|].
      exact (checked_search_ends m0 problem (Some h) count locs Hcosts Hlocs Hh
               (greedy_child true)
               (Metric "h") fuel greedy_child_checked Hfuel).
    + unfold a_star_search.
      destruct (RouteProblem.is_goal problem _); [apply Hroot|].
      exact (checked_search_ends m0 problem (Some h) count locs Hcosts Hlocs Hh
               (a_star_search_child true)
               (Metric "f") fuel a_star_search_child_checked Hfuel).
Qed.

Lemma repeat_check_bounds_expansions_witness :
  (exists r w', @BFS example_builtins 8 example_problem true (mkWorld example_map 0)
                = Return r w' /\
     node_expansion_count w' <= 0 + length ["s"; "a"; "b"; "g"]) /\
  (exists r w', @DFS example_builtins 8 example_problem true (mkWorld example_map 0)
                = Return r w' /\
     node_expansion_count w' <= 0 + length ["s"; "a"; "b"; "g"]) /\
  (exists r w', @uniform_cost_search example_builtins 8 example_problem true
                  (mkWorld example_map 0) = Return r w' /\
     node_expansion_count w' <= 0 + length ["s"; "a"; "b"; "g"]) /\
  (forall h,
      (forall loc, reachable example_map (RouteProblem.start example_problem) loc ->
                   h_defined_at example_map h loc) ->
      (exists r w', @greedy_search example_builtins 8 example_problem h true
                      (mkWorld example_map 0) = Return r w' /\
         node_expansion_count w' <= 0 + length ["s"; "a"; "b"; "g"]) /\
      (exists r w', @a_star_search example_builtins 8 example_problem h true
                      (mkWorld example_map 0) = Return r w' /\
         node_expansion_count w' <= 0 + length ["s"; "a"; "b"; "g"])).
Proof.
  apply (@repeat_check_bounds_expansions example_builtins example_map example_problem
           ["s"; "a"; "b"; "g"] 8 0).
  - exact (roads_have_costs_b_sound example_map eq_refl).
  - exact example_map_reachable.
  - simpl. lia.
Defined.

(** ** Searching without repeated-state checking *)

(** What the body of a driver's [for] loop does with a child when repeated
    states are not checked: the child joins the frontier. *)
Definition child_step_adds (f : search_state -> Node.t -> M World search_state) : Prop :=
  forall st child w,
  exists F', f st child w = Return (F', snd st) w /\
    Frontier.sort_by F' = Frontier.sort_by (fst st) /\
    Permutation (nodes_of F') (child :: nodes_of (fst st)) /\
    (Frontier_wf (fst st) -> Frontier_wf F').

Lemma frontier_add_adds : child_step_adds (fun st child => frontier_add child st).
Proof.
  intros st child w.
  destruct (Frontier_add_One child (fst st)) as (F' & E & Hs & Hp & Hw).
  exists F'. unfold frontier_add, bind, call. rewrite E. cbn [ret snd].
  split; [reflexivity|]. split; [exact Hs|]. split; [|exact Hw].
  unfold nodes_of. rewrite Hp. reflexivity.
Qed.

Lemma BFS_child_adds : child_step_adds (BFS_child false).
Proof. exact frontier_add_adds. Qed.

Lemma DFS_child_adds : child_step_adds (DFS_child false).
Proof. exact frontier_add_adds. Qed.

Lemma uniform_cost_search_child_adds : child_step_adds (uniform_cost_search_child false).
Proof. exact frontier_add_adds. Qed.

Lemma a_star_search_child_adds : child_step_adds (a_star_search_child false).
Proof. exact frontier_add_adds. Qed.

Lemma greedy_child_adds : child_step_adds (greedy_child false).
Proof. exact frontier_add_adds. Qed.

Lemma for_each_adds (f : search_state -> Node.t -> M World search_state) :
  child_step_adds f ->
  forall children st w,
  exists F', for_each children f st w = Return (F', snd st) w /\
    Frontier.sort_by F' = Frontier.sort_by (fst st) /\
    Permutation (nodes_of F') (nodes_of (fst st) ++ children) /\
    (Frontier_wf (fst st) -> Frontier_wf F').
Proof.
  intros Hf. induction children as [|c children IH]; intros [F v] w; simpl.
  - exists F. split; [reflexivity|]. split; [reflexivity|].
    rewrite app_nil_r. split; [reflexivity | tauto].
  - destruct (Hf (F, v) c w) as (F1 & E1 & S1 & P1 & W1). cbn [fst snd] in *.
    unfold bind. rewrite E1.
    destruct (IH (F1, v) w) as (F' & E & S' & P' & W'). cbn [fst snd] in *.
    exists F'. split; [exact E|]. split; [congruence|]. split; [|tauto].
    rewrite P', P1. simpl. apply Permutation_middle.
Qed.

Lemma Dict_get_keys {V} (d : Dict.t V) (k : string) (v : V) :
  Dict.get d k = Some v -> In k (Dict.keys d).
Proof. intros Hg. apply Dict_get_In in Hg. apply (in_map fst) in Hg. exact Hg. Qed.

Lemma total_weight_app (b : nat) (l1 l2 : list Node.t) :
  total_weight b (l1 ++ l2) = total_weight b l1 + total_weight b l2.
Proof.
  unfold total_weight. rewrite map_app. induction (map (weight b) l1); simpl; lia.
Qed.

Section ways.
Context `{builtins}.
Variable m0 : RoadMap.t.
Variable problem : RouteProblem.t.
Variable hf : option HeuristicFunction.t.
Variable sort_by0 : sort_key.
Hypothesis m0_costs : roads_have_costs m0.
Hypothesis hf_ok :
  match hf with
  | Some h => forall loc, reachable m0 (RouteProblem.start problem) loc ->
                          h_defined_at m0 h loc
  | None => True
  end.

(** A way: a list of at most 20 roads that resolves from the start and
    ends at the goal. *)
Definition way (roads : list string) (segments : list (string * string)) : Prop :=
  length roads <= depth_limit /\
  resolve m0 (RouteProblem.start problem) roads = Some segments /\
  RouteProblem.goal problem = Some (end_of (RouteProblem.start problem) segments).

(** Every way has begun: the node of one of its prefixes is among [nodes]. *)
Definition covers (nodes : list Node.t) : Prop :=
  forall roads segments, way roads segments ->
  exists prefix rest n,
    roads = prefix ++ rest /\ In n nodes /\ route_node m0 problem hf n prefix.

Lemma covers_perm (l1 l2 : list Node.t) : Permutation l1 l2 -> covers l1 -> covers l2.
Proof.
  intros Hp Hc roads segments Hw.
  destruct (Hc roads segments Hw) as (prefix & rest & n & Hr & Hin & Hn).
  exists prefix, rest, n. split; [exact Hr|]. split; [|exact Hn].
  eapply Permutation_in; eassumption.
Qed.

Lemma way_end_is_goal (n : Node.t) (roads : list string)
    (segments : list (string * string)) :
  way roads segments -> route_node m0 problem hf n roads ->
  RouteProblem.is_goal problem (Node.loc n) = true.
Proof.
  intros (_ & Hres & Hgoal) Hn.
  destruct (route_node_facts m0 problem hf n roads Hn)
    as (_ & _ & _ & _ & cs & segs & _ & Hres' & Hend & _).
  assert (segs = segments) by congruence. subst segs.
  unfold RouteProblem.is_goal, eq_goal, EqGoal_str. rewrite Hgoal, Hend.
  apply String.eqb_refl.
Qed.

Lemma covers_step (n0 : Node.t) (others children : list Node.t) :
  covers (n0 :: others) ->
  RouteProblem.is_goal problem (Node.loc n0) = false ->
  (forall road, Node.depth n0 < depth_limit ->
     In road (roads_of m0 (Node.loc n0)) ->
     exists c, In c children /\ child_via m0 n0 road c) ->
  covers (others ++ children).
Proof.
  intros Hc Hgoal Hch roads segments Hw.
  destruct (Hc roads segments Hw) as (prefix & rest & n & Hr & [<-|Hin] & Hn).
  2:{ exists prefix, rest, n. split; [exact Hr|]. split; [|exact Hn].
      apply in_or_app. left. exact Hin. }
  destruct rest as [|r rest].
  { rewrite app_nil_r in Hr. subst prefix.
    rewrite (way_end_is_goal n0 roads segments Hw Hn) in Hgoal. discriminate. }
  destruct (route_node_facts m0 problem hf n0 prefix Hn)
    as (_ & Hdepth & _ & _ & cs & segsP & _ & HresP & Hend & _).
  destruct Hw as (Hlen & Hres & _).
  assert (Hd : Node.depth n0 < depth_limit).
  { rewrite Hr, length_app in Hlen. simpl in Hlen. lia. }
  assert (Hroad : In r (roads_of m0 (Node.loc n0))).
  { rewrite Hr, (resolve_app m0 prefix (r :: rest) _ segsP HresP), Hend in Hres.
    simpl in Hres.
    destruct (road_end m0 (Node.loc n0) r) as [b|] eqn:Eb; [|discriminate].
    unfold roads_of. eapply Dict_get_keys. exact Eb. }
  destruct (Hch r Hd Hroad) as (c & Hinc & Hvia).
  exists (prefix ++ [r]), rest, c. split; [|split].
  - rewrite <- app_assoc. exact Hr.
  - apply in_or_app. right. exact Hinc.
  - eapply route_child; eassumption.
Qed.

Definition way_inv (st : search_state) (w : World) : Prop :=
  only_defaults_added m0 (the_map w) /\
  Forall (on_route m0 problem hf) (nodes_of (fst st)) /\
  covers (nodes_of (fst st)) /\
  Frontier_wf (fst st) /\ Frontier.sort_by (fst st) = sort_by0.

(** What is known of a node the loop returns: it is on a route, at the
    goal, and for every way the node of one of its prefixes was in the
    frontier with it, not standing before it. *)
Definition first_of_ways (v : Node.t) : Prop :=
  on_route m0 problem hf v /\
  RouteProblem.is_goal problem (Node.loc v) = true /\
  forall roads segments, way roads segments ->
  exists prefix rest n,
    roads = prefix ++ rest /\ route_node m0 problem hf n prefix /\
    (n = v \/ pops_before sort_by0 v n).

Lemma way_body_spec (child : search_state -> Node.t -> M World search_state) :
  child_step_adds child ->
  forall st w, way_inv st w -> negb (Frontier.is_empty (fst st)) = true ->
  exists r w', search_body child problem st w = Return r w' /\
    match r with
    | inl st' =>
        way_inv st' w' /\
        total_weight (branching m0) (nodes_of (fst st'))
          < total_weight (branching m0) (nodes_of (fst st))
    | inr v => only_defaults_added m0 (the_map w') /\ first_of_ways v
    end.
Proof using m0_costs hf_ok.
  intros Hchild st w (Hw & Hnodes & Hcov & Hwf & Hsort) Hne.
  apply negb_true_iff in Hne.
  destruct (call_pop (fst st) w Hne) as (n & F' & Epop & HsF' & Hperm).
  assert (Epop' : Frontier.pop (fst st) = Return n F').
  { revert Epop. unfold call. destruct (Frontier.pop (fst st)) as [a o|e o|];
      [intros [= <- <-]; reflexivity | discriminate | discriminate]. }
  pose proof (Frontier_pop_wf _ _ _ Hwf Epop') as HwfF'.
  pose proof (Frontier_pop_least _ _ _ Hwf Epop') as Hleast.
  unfold search_body, bind. rewrite Epop. cbn [fst snd].
  assert (Hall : Forall (on_route m0 problem hf) (n :: nodes_of F')).
  { eapply Permutation_Forall; [symmetry; exact Hperm | exact Hnodes]. }
  inversion Hall as [|? ? Hn HF']; subst.
  assert (Hcov' : covers (n :: nodes_of F')).
  { eapply covers_perm; [symmetry; exact Hperm | exact Hcov]. }
  destruct (RouteProblem.is_goal problem (Node.loc n)) eqn:Hgoal.
  - exists (inr n), w. split; [reflexivity|]. split; [exact Hw|].
    split; [exact Hn|]. split; [exact Hgoal|].
    intros roads segments Hway.
    destruct (Hcov' roads segments Hway) as (prefix & rest & x & Hr & Hin & Hx).
    exists prefix, rest, x. split; [exact Hr|]. split; [exact Hx|].
    destruct Hin as [->|Hin]; [left; reflexivity | right].
    rewrite List.Forall_forall in Hleast. rewrite Hsort in Hleast. apply Hleast. exact Hin.
  - destruct (expand_for_search m0 m0_costs n problem w Hw
                (on_route_h_fun_ok m0 problem hf hf_ok n Hn))
      as (children & m' & Eexp & Hm' & Hvia & Hevery & Hof & Hlen & Hnone).
    rewrite Eexp.
    destruct (for_each_adds child Hchild children (F', snd st)
                (mkWorld m' (node_expansion_count w + 1)))
      as (F2 & Efor & HsF2 & Hp2 & Hwf2).
    rewrite Efor. cbn [fst snd] in *.
    exists (inl (F2, snd st)), (mkWorld m' (node_expansion_count w + 1)).
    split; [reflexivity|]. unfold way_inv. cbn [fst snd the_map].
    split.
    + split; [exact Hm'|]. split; [|split; [|split]].
      * eapply Permutation_Forall; [symmetry; exact Hp2|].
        apply Forall_app. split; [exact HF'|].
        eapply Forall_impl; [exact Hvia|]. simpl. intros c (Hd & road & Hc).
        destruct Hn as [roads Hn]. exists (roads ++ [road]).
        eapply route_child; eassumption.
      * eapply covers_perm; [symmetry; exact Hp2|].
        eapply covers_step; eassumption.
      * exact (Hwf2 HwfF').
      * congruence.
    + rewrite (total_weight_perm _ _ _ Hp2), total_weight_app.
      rewrite <- (total_weight_perm _ _ _ Hperm).
      pose proof (children_weight m0 n children Hof
                    (Nat.le_trans _ _ _ Hlen (roads_of_le_branching m0 (Node.loc n)))
                    Hnone).
      unfold total_weight in *. simpl. lia.
Qed.

(** The tail every driver shares, from the root. *)
Lemma way_search_ends (child : search_state -> Node.t -> M World search_state)
    (visited : list Node.t) (count fuel : nat) :
  child_step_adds child ->
  subtree_size (branching m0) depth_limit < fuel ->
  let root := Node.init (RouteProblem.start problem) None None 0 0 hf in
  exists r w',
    (r <- while_loop fuel (fun st => negb (Frontier.is_empty (fst st)))
            (search_body child problem) (Frontier.init root sort_by0, visited) ;;
     match r with
     | inr node => ret (Some node)
     | inl _ => ret None
     end) (mkWorld m0 count) = Return r w' /\
    match r with
    | None => forall roads segments, ~ way roads segments
    | Some v => first_of_ways v
    end.
Proof using m0_costs hf_ok.
  intros Hchild Hfuel root.
  destruct (while_loop_ends (fun st => negb (Frontier.is_empty (fst st)))
              (search_body child problem) way_inv
              (fun v w' => only_defaults_added m0 (the_map w') /\ first_of_ways v)
              (fun st => total_weight (branching m0) (nodes_of (fst st))))
    with (fuel := fuel) (st := (Frontier.init root sort_by0, visited))
         (s := mkWorld m0 count)
    as (r & w' & E & Hr).
  - exact (way_body_spec child Hchild).
  - split; [apply only_defaults_added_refl|]. split; [|split; [|split]].
    + repeat constructor. exists []. apply route_root.
    + intros roads segments Hway. exists [], roads, root.
      split; [reflexivity|]. split; [left; reflexivity | apply route_root].
    + apply Frontier_init_wf.
    + reflexivity.
  - unfold nodes_of, total_weight, weight. simpl.
    pose proof (subtree_size_mono (branching m0) (depth_limit - 0)
                  depth_limit ltac:(lia)). simpl in *. lia.
  - unfold bind. rewrite E. destruct r as [st'|v].
    + exists None, w'. split; [reflexivity|].
      destruct Hr as [(_ & _ & Hcov & _) Hempty].
      intros roads segments Hway.
      destruct (Hcov roads segments Hway) as (prefix & rest & n & _ & Hin & _).
      apply negb_false_iff in Hempty. unfold Frontier.is_empty in Hempty.
      unfold nodes_of in Hin. destruct (Frontier.fringe (fst st')); [exact Hin|].
      discriminate.
    + exists (Some v), w'. split; [reflexivity | exact (proj2 Hr)].
Qed.

Lemma root_first_of_ways :
  RouteProblem.is_goal problem (RouteProblem.start problem) = true ->
  first_of_ways (Node.init (RouteProblem.start problem) None None 0 0 hf).
Proof.
  intros Hgoal. split; [exists []; apply route_root|]. split; [exact Hgoal|].
  intros roads segments Hway.
  exists [], roads, (Node.init (RouteProblem.start problem) None None 0 0 hf).
  split; [reflexivity|]. split; [apply route_root | left; reflexivity].
Qed.

Lemma first_of_ways_is_way (v : Node.t) :
  first_of_ways v -> exists roads segments, way roads segments.
Proof.
  intros ([roads Hv] & Hgoal & _).
  destruct (route_node_facts m0 problem hf v roads Hv)
    as (_ & _ & Hlen & _ & cs & segments & _ & Hres & Hend & _).
  exists roads, segments. split; [exact Hlen|]. split; [exact Hres|].
  unfold RouteProblem.is_goal, eq_goal, EqGoal_str in Hgoal.
  destruct (RouteProblem.goal problem) as [g|]; [|discriminate].
  apply String.eqb_eq in Hgoal. congruence.
Qed.

End ways.

Lemma none_iff_no_way `{builtins} (m0 : RoadMap.t) (problem : RouteProblem.t)
    (hf : option HeuristicFunction.t) (sort_by0 : sort_key) (r : option Node.t) :
  match r with
  | None => forall roads segments, ~ way m0 problem roads segments
  | Some v => first_of_ways m0 problem hf sort_by0 v
  end ->
  (r = None <-> forall roads segments, ~ way m0 problem roads segments).
Proof.
  destruct r as [v|]; intros Hr.
  - split; [discriminate|]. intros Hno. exfalso.
    destruct (first_of_ways_is_way m0 problem hf sort_by0 v Hr) as (roads & segments & Hw).
    exact (Hno roads segments Hw).
  - split; [intros _; exact Hr | reflexivity].
Qed.

(** X19. Without repeated-state checking every driver is complete up to
    the depth limit.  On a map where every named road has a cost, given
    enough fuel for the loop, each of the five drivers run with
    [repeat_check] false (greedy and A* search: for a heuristic that
    evaluates on the locations reachable from the start) returns None
    exactly when no list of at most 20 roads resolves from the start to
    the goal; whenever there is such a list it returns a node. *)
Theorem search_without_check_complete `{builtins} (m0 : RoadMap.t)
    (problem : RouteProblem.t) :
  roads_have_costs m0 ->
  exists N, forall fuel count, N <= fuel ->
    (exists r w', BFS fuel problem false (mkWorld m0 count) = Return r w' /\
       (r = None <-> forall roads segments, ~ way m0 problem roads segments)) /\
    (exists r w', DFS fuel problem false (mkWorld m0 count) = Return r w' /\
       (r = None <-> forall roads segments, ~ way m0 problem roads segments)) /\
    (exists r w', uniform_cost_search fuel problem false (mkWorld m0 count)
                  = Return r w' /\
       (r = None <-> forall roads segments, ~ way m0 problem roads segments)) /\
    (forall h,
        (forall loc, reachable m0 (RouteProblem.start problem) loc ->
                     h_defined_at m0 h loc) ->
        (exists r w', greedy_search fuel problem h false (mkWorld m0 count)
                      = Return r w' /\
           (r = None <-> forall roads segments, ~ way m0 problem roads segments)) /\
        (exists r w', a_star_search fuel problem h false (mkWorld m0 count)
                      = Return r w' /\
           (r = None <-> forall roads segments, ~ way m0 problem roads segments))).
Proof.
  intros Hcosts.
  exists (S (subtree_size (branching m0) depth_limit)).
  intros fuel count Hfuel.
  assert (Hlt : subtree_size (branching m0) depth_limit < fuel) by lia.
  assert (Hloop : forall hf sort_by0 child visited,
    match hf with
    | Some h => forall loc, reachable m0 (RouteProblem.start problem) loc ->
                            h_defined_at m0 h loc
    | None => True
    end ->
    child_step_adds child ->
    exists r w',
      (r <- while_loop fuel (fun st => negb (Frontier.is_empty (fst st)))
              (search_body child problem)
              (Frontier.init (Node.init (RouteProblem.start problem) None None 0 0 hf)
                 sort_by0, visited) ;;
       match r with
       | inr node => ret (Some node)
       | inl _ => ret None
       end) (mkWorld m0 count) = Return r w' /\
      (r = None <-> forall roads segments, ~ way m0 problem roads segments)).
  { intros hf sort_by0 child visited Hhf Hchild.
    destruct (way_search_ends m0 problem hf sort_by0 Hcosts Hhf child visited count fuel
                Hchild Hlt) as (r & w' & E & Hr).
    exists r, w'. split; [exact E|]. eapply none_iff_no_way. exact Hr. }
  assert (Hroot : forall hf,
    RouteProblem.is_goal problem (RouteProblem.start problem) = true ->
    exists r w',
      @ret World _ (Some (Node.init (RouteProblem.start problem) None None 0 0 hf))
        (mkWorld m0 count) = Return r w' /\
      (r = None <-> forall roads segments, ~ way m0 problem roads segments)).
  { intros hf Hg. eexists _, _. split; [reflexivity|].
    apply (none_iff_no_way m0 problem hf (Metric "g")).
    apply root_first_of_ways. exact Hg. }
  split; [|split; [|split]].
  - unfold BFS. cbn [RouteProblem.is_goal eq_goal EqGoal_Node].
    exact (Hloop None (Metric "g") (BFS_child false) _ I BFS_child_adds).
  - unfold DFS. cbn [RouteProblem.is_goal eq_goal EqGoal_Node].
    exact (Hloop None (Flag true) (DFS_child false) _ I DFS_child_adds).
  - unfold uniform_cost_search.
    change (Node.loc (Node.init (RouteProblem.start problem) None None 0 0 None))
      with (RouteProblem.start problem).
    destruct (RouteProblem.is_goal problem (RouteProblem.start problem)) eqn:Hg.
    + apply Hroot. reflexivity.
    + exact (Hloop None (Metric "g") (uniform_cost_search_child false) _ I
               uniform_cost_search_child_adds).
  - intros h Hh. split.
    + unfold greedy_search.
      change (Node.loc (Node.init (RouteProblem.start problem) None None 0 0 (Some h)))
        with (RouteProblem.start problem).
      destruct (RouteProblem.is_goal problem (RouteProblem.start problem)) eqn:Hg.
      * apply Hroot. reflexivity.
      * exact (Hloop (Some h) (Metric "h") (greedy_child false) _ Hh greedy_child_adds).
    + unfold a_star_search.
      change (Node.loc (Node.init (RouteProblem.start problem) None None 0 0 (Some h)))
        with (RouteProblem.start problem).
      destruct (RouteProblem.is_goal problem (RouteProblem.start problem)) eqn:Hg.
      * apply Hroot. reflexivity.
      * exact (Hloop (Some h) (Metric "f") (a_star_search_child false) _ Hh
                 a_star_search_child_adds).
Qed.

Lemma search_without_check_complete_witness :
  exists N, forall fuel count, N <= fuel ->
    (exists r w', @BFS example_builtins fuel example_problem false
                    (mkWorld example_map count) = Return r w' /\
       (r = None <->
        forall roads segments, ~ way example_map example_problem roads segments)) /\
    (exists r w', @DFS example_builtins fuel example_problem false
                    (mkWorld example_map count) = Return r w' /\
       (r = None <->
        forall roads segments, ~ way example_map example_problem roads segments)) /\
    (exists r w', @uniform_cost_search example_builtins fuel example_problem false
                    (mkWorld example_map count) = Return r w' /\
       (r = None <->
        forall roads segments, ~ way example_map example_problem roads segments)) /\
    (forall h,
        (forall loc, reachable example_map (RouteProblem.start example_problem) loc ->
                     h_defined_at example_map h loc) ->
        (exists r w', @greedy_search example_builtins fuel example_problem h false
                        (mkWorld example_map count) = Return r w' /\
           (r = None <->
            forall roads segments, ~ way example_map example_problem roads segments)) /\
        (exists r w', @a_star_search example_builtins fuel example_problem h false
                        (mkWorld example_map count) = Return r w' /\
           (r = None <->
            forall roads segments, ~ way example_map example_problem roads segments))).
Proof.
  exact (@search_without_check_complete example_builtins example_map example_problem
           (roads_have_costs_b_sound example_map eq_refl)).
Defined.

(** ** Uniform-cost search returns a cheapest way *)

Lemma segment_cost_nonneg (m : RoadMap.t) (e : string * string) :
  (forall a b c, edge_cost m a b = Some c -> (0 <= c)%Q) -> (0 <= segment_cost m e)%Q.
Proof.
  intros Hnn. unfold segment_cost.
  destruct (edge_cost m (fst e) (snd e)) as [c|] eqn:E; [|apply Qle_refl].
  exact (Hnn _ _ _ E).
Qed.

Lemma sum_costs_nonneg (m : RoadMap.t) (segments : list (string * string)) :
  (forall a b c, edge_cost m a b = Some c -> (0 <= c)%Q) -> (0 <= sum_costs m segments)%Q.
Proof.
  intros Hnn. induction segments as [|e segments IH].
  - apply Qle_refl.
  - change (e :: segments) with ([e] ++ segments). rewrite sum_costs_app.
    assert (H1 : (sum_costs m [e] == segment_cost m e)%Q).
    { unfold sum_costs. simpl. ring. }
    rewrite H1. rewrite <- (Qplus_0_r 0).
    apply Qplus_le_compat; [apply segment_cost_nonneg; exact Hnn | exact IH].
Qed.

Lemma pops_before_g (v n : Node.t) :
  pops_before (Metric "g") v n -> (Node.path_cost v <= Node.path_cost n)%Q.
Proof.
  unfold pops_before. simpl. intros [Hlt | [Heq _]].
  - apply Qlt_le_weak. exact Hlt.
  - rewrite Heq. apply Qle_refl.
Qed.

Lemma first_of_ways_cheapest `{builtins} (m0 : RoadMap.t) (problem : RouteProblem.t)
    (hf : option HeuristicFunction.t) (v : Node.t) :
  roads_have_costs m0 ->
  (forall a b c, edge_cost m0 a b = Some c -> (0 <= c)%Q) ->
  first_of_ways m0 problem hf (Metric "g") v ->
  forall roads segments, way m0 problem roads segments ->
  (Node.path_cost v <= sum_costs m0 segments)%Q.
Proof.
  intros Hcosts Hnn (_ & _ & Hfirst) roads segments Hway.
  destruct (Hfirst roads segments Hway) as (prefix & rest & n & Hr & Hn & Hvn).
  destruct (route_node_facts m0 problem hf n prefix Hn)
    as (_ & _ & _ & _ & cs & segsP & Hwalk & HresP & _ & Hcost).
  pose proof (walk_resolve m0 prefix Hcosts (RouteProblem.start problem) 0%Q) as Hwr.
  rewrite Hwalk, HresP in Hwr. fold (sum_costs m0 segsP) in Hwr.
  destruct Hway as (_ & Hres & _).
  rewrite Hr, (resolve_app m0 prefix rest _ segsP HresP) in Hres.
  destruct (resolve m0 (end_of (RouteProblem.start problem) segsP) rest) as [segsR|];
    [|discriminate].
  simpl in Hres. injection Hres as <-.
  assert (Hn_le : (Node.path_cost n <= sum_costs m0 (segsP ++ segsR))%Q).
  { rewrite <- Hcost, Hwr, sum_costs_app.
    rewrite <- (Qplus_0_r (sum_costs m0 segsP)) at 1.
    apply Qplus_le_compat; [apply Qle_refl | apply sum_costs_nonneg; exact Hnn]. }
  destruct Hvn as [->|Hb]; [exact Hn_le|].
  eapply Qle_trans; [exact (pops_before_g v n Hb) | exact Hn_le].
Qed.

(** The costs of a map are whole numbers from 0 to 2^48.  A sum of at most
    [depth_limit] such costs stays below 2^53, so adding them one after the
    other loses nothing in double precision either. *)
Definition whole_costs (m : RoadMap.t) : Prop :=
  forall a b c, edge_cost m a b = Some c ->
  exists n : Z, c = inject_Z n /\ (0 <= n <= 2 ^ 48)%Z.

Lemma whole_costs_nonneg (m : RoadMap.t) :
  whole_costs m -> forall a b c, edge_cost m a b = Some c -> (0 <= c)%Q.
Proof.
  intros Hm a b c Hc. destruct (Hm a b c Hc) as (n & -> & Hn & _).
  unfold Qle, inject_Z. simpl. lia.
Qed.

(** X20. Uniform-cost search without repeated-state checking returns a
    cheapest way.  On a map where every named road has a cost and the costs
    are whole numbers from 0 to 2^48, given enough fuel for the loop,
    [uniform_cost_search] returns without raising, and the path cost of a
    node it returns is at most the sum of the segment costs, added in the
    order of the roads, of every list of at most 20 roads that resolves
    from the start to the goal. *)
Theorem uniform_cost_search_cheapest `{builtins} (m0 : RoadMap.t)
    (problem : RouteProblem.t) :
  roads_have_costs m0 ->
  whole_costs m0 ->
  exists N, forall fuel count, N <= fuel ->
    exists r w', uniform_cost_search fuel problem false (mkWorld m0 count)
                 = Return r w' /\
      forall n, r = Some n ->
      forall roads segments, way m0 problem roads segments ->
      (Node.path_cost n <= sum_costs m0 segments)%Q.
Proof.
  intros Hcosts Hwhole.
  pose proof (whole_costs_nonneg m0 Hwhole) as Hnn.
  exists (S (subtree_size (branching m0) depth_limit)).
  intros fuel count Hfuel.
  assert (Hlt : subtree_size (branching m0) depth_limit < fuel) by lia.
  assert (Hloop : forall visited,
    exists r w',
      (r <- while_loop fuel (fun st => negb (Frontier.is_empty (fst st)))
              (search_body (uniform_cost_search_child false) problem)
              (Frontier.init (Node.init (RouteProblem.start problem) None None 0 0 None)
                 (Metric "g"), visited) ;;
       match r with
       | inr node => ret (Some node)
       | inl _ => ret None
       end) (mkWorld m0 count) = Return r w' /\
      forall n, r = Some n ->
      forall roads segments, way m0 problem roads segments ->
      (Node.path_cost n <= sum_costs m0 segments)%Q).
  { intros visited.
    destruct (way_search_ends m0 problem None (Metric "g") Hcosts I
                (uniform_cost_search_child false) visited count fuel
                uniform_cost_search_child_adds Hlt) as (r & w' & E & Hr).
    exists r, w'. split; [exact E|]. intros n ->.
    exact (first_of_ways_cheapest m0 problem None n Hcosts Hnn Hr). }
  unfold uniform_cost_search.
  change (Node.loc (Node.init (RouteProblem.start problem) None None 0 0 None))
    with (RouteProblem.start problem).
  destruct (RouteProblem.is_goal problem (RouteProblem.start problem)) eqn:Hg.
  - eexists _, _. split; [reflexivity|]. intros n [= <-].
    apply (first_of_ways_cheapest m0 problem None _ Hcosts Hnn).
    apply root_first_of_ways. exact Hg.
  - apply Hloop.
Qed.

(** A checker for [whole_costs]. *)
Definition whole_costs_b (m : RoadMap.t) : bool :=
  forallb (fun entry =>
             forallb (fun ec =>
                        (Qden (snd ec) =? 1)%positive &&
                        (0 <=? Qnum (snd ec))%Z && (Qnum (snd ec) <=? 2 ^ 48)%Z)
                     (snd entry))
    (RoadMap.connection_dict m).

Lemma whole_costs_b_sound (m : RoadMap.t) : whole_costs_b m = true -> whole_costs m.
Proof.
  unfold whole_costs_b, whole_costs, edge_cost, get_or. intros Hb a b c Hc.
  destruct (Dict.get (RoadMap.connection_dict m) a) as [inner|] eqn:Ea; [|discriminate].
  apply Dict_get_In in Ea. apply Dict_get_In in Hc.
  rewrite List.forallb_forall in Hb. specialize (Hb _ Ea). simpl in Hb.
  rewrite List.forallb_forall in Hb. specialize (Hb _ Hc). simpl in Hb.
  apply andb_prop in Hb. destruct Hb as [Hb Hhi].
  apply andb_prop in Hb. destruct Hb as [Hden Hlo].
  apply Z.leb_le in Hlo. apply Z.leb_le in Hhi.
  exists (Qnum c). destruct c as [num den]. simpl in *.
  destruct den; try discriminate Hden.
  split; [reflexivity | lia].
Qed.

Lemma uniform_cost_search_cheapest_witness :
  exists N, forall fuel count, N <= fuel ->
    exists r w', @uniform_cost_search example_builtins fuel example_problem false
                   (mkWorld example_map count) = Return r w' /\
      forall n, r = Some n ->
      forall roads segments, way example_map example_problem roads segments ->
      (Node.path_cost n <= sum_costs example_map segments)%Q.
Proof.
  exact (@uniform_cost_search_cheapest example_builtins example_map example_problem
           (roads_have_costs_b_sound example_map eq_refl)
           (whole_costs_b_sound example_map eq_refl)).
Defined.

(** With repeated-state checking the first node generated for a location
    stays: on [example_map] uniform-cost search then returns the way
    through "a" at cost 6 although the way through "b" costs 3. *)
Example uniform_cost_search_with_check_keeps_first_node :
  roads_and_cost (@uniform_cost_search example_builtins 200 example_problem true
                    (mkWorld example_map 0))
    = Some ([Some "sa"; Some "ag"], 0 + 5 + 1)%Q /\
  roads_and_cost (@uniform_cost_search example_builtins 200 example_problem false
                    (mkWorld example_map 0))
    = Some ([Some "sb"; Some "ba"; Some "ag"], 0 + 1 + 1 + 1)%Q.
Proof. split; vm_compute; reflexivity. Qed.
